(** * The Emoji JSON codec, Sticker.TagList and Message.URL of discord/

    A shallow embedding of [discord/emoji_ffjson.go] (the generated
    encoder and the goto-driven decoder of [Emoji]) and of
    [Sticker.TagList] and [Message.URL] from [discord/message.go], with
    the properties the specification states about them and further
    properties read off the code.

    Byte slices and Go strings are lists of bytes ([list ascii]); unsigned
    64-bit identifiers are [N]; a Go slice that may be nil is an [option]
    of a list; the pointer receiver the decoder mutates is threaded
    explicitly and returned next to the error. *)

From Stdlib Require Import String Ascii DecimalString DecimalN.
From Stdlib Require Import NArith ZArith Bool Arith Lia List.
Import ListNotations.
Local Open Scope N_scope.

(** ** Bytes *)

Definition bytes := list ascii.

(** [B "text"] is the byte slice of an ASCII literal. *)
Definition B (s : string) : bytes := list_ascii_of_string s.

Definition code (c : ascii) : N := N_of_ascii c.

(** The double quote, written by number so that no literal needs it. *)
Definition dq : ascii := ascii_of_N 34.

(** [quoted k] is [k] between double quotes, as the literals of the
    encoder spell their keys. *)
Definition quoted (k : bytes) : bytes := dq :: k ++ [dq].

Definition byte_eqb (a b : ascii) : bool := Ascii.eqb a b.

(** [bytes.Equal]. *)
Fixpoint bytes_Equal (a b : bytes) : bool :=
  match a, b with
  | [], [] => true
  | x :: a', y :: b' => byte_eqb x y && bytes_Equal a' b'
  | _, _ => false
  end.

(** [bytes.Join] and [strings.Join]: the elements with [sep] between
    them. *)
Fixpoint join (sep : bytes) (l : list bytes) : bytes :=
  match l with
  | [] => []
  | [x] => x
  | x :: l' => x ++ sep ++ join sep l'
  end.

(** ** unicode/utf8 *)

Module utf8.

Definition RuneSelf : N := 128.
Definition RuneError : N := 65533.

Definition is_cont (b : ascii) : bool := (128 <=? code b) && (code b <=? 191).

Definition in_range (lo hi : N) (b : ascii) : bool :=
  (lo <=? code b) && (code b <=? hi).

(** [DecodeRune p]: the first rune of [p] and its width in bytes;
    [(RuneError, 0)] on empty input and [(RuneError, 1)] on an invalid
    or truncated encoding. *)
Definition DecodeRune (p : bytes) : N * nat :=
  match p with
  | [] => (RuneError, 0%nat)
  | p0 :: tl =>
    let c0 := code p0 in
    if c0 <? 128 then (c0, 1%nat)
    else if (194 <=? c0) && (c0 <=? 223) then
      match tl with
      | b1 :: _ =>
        if is_cont b1
        then (N.lor (N.shiftl (N.land c0 31) 6) (N.land (code b1) 63), 2%nat)
        else (RuneError, 1%nat)
      | _ => (RuneError, 1%nat)
      end
    else if (224 <=? c0) && (c0 <=? 239) then
      let lo := if c0 =? 224 then 160 else 128 in
      let hi := if c0 =? 237 then 159 else 191 in
      match tl with
      | b1 :: b2 :: _ =>
        if negb (in_range lo hi b1) then (RuneError, 1%nat)
        else if negb (is_cont b2) then (RuneError, 1%nat)
        else (N.lor (N.shiftl (N.land c0 15) 12)
                (N.lor (N.shiftl (N.land (code b1) 63) 6)
                       (N.land (code b2) 63)), 3%nat)
      | _ => (RuneError, 1%nat)
      end
    else if (240 <=? c0) && (c0 <=? 244) then
      let lo := if c0 =? 240 then 144 else 128 in
      let hi := if c0 =? 244 then 143 else 191 in
      match tl with
      | b1 :: b2 :: b3 :: _ =>
        if negb (in_range lo hi b1) then (RuneError, 1%nat)
        else if negb (is_cont b2) then (RuneError, 1%nat)
        else if negb (is_cont b3) then (RuneError, 1%nat)
        else (N.lor (N.shiftl (N.land c0 7) 18)
                (N.lor (N.shiftl (N.land (code b1) 63) 12)
                   (N.lor (N.shiftl (N.land (code b2) 63) 6)
                          (N.land (code b3) 63))), 4%nat)
      | _ => (RuneError, 1%nat)
      end
    else (RuneError, 1%nat)
  end.

End utf8.

(** Valid UTF-8, as [utf8.Valid] decides it: decoding rune after rune
    never meets an invalid or truncated encoding, which [DecodeRune]
    reports as the error rune with width 1. *)
Inductive valid_utf8 : bytes -> Prop :=
| valid_utf8_nil : valid_utf8 []
| valid_utf8_rune (s : bytes) (r : N) (size : nat) :
    s <> [] ->
    utf8.DecodeRune s = (r, size) ->
    ~ (r = utf8.RuneError /\ size = 1%nat) ->
    valid_utf8 (skipn size s) ->
    valid_utf8 s.

(** ** fflib: the key-folding helpers

    [SimpleLetterEqualFold] and [EqualFoldRight] are the specialisations
    of [bytes.EqualFold] the generator picks per key: the first for keys
    made of ASCII letters other than k and s, the second for ASCII keys
    holding a k or an s, whose fold orbit has a non-ASCII member. *)

Module fflib_fold.

(** [caseMask = ^byte(0x20)]. *)
Definition caseMask : N := 223.
Definition kelvin : N := 8490.
Definition smallLongEss : N := 383.

Fixpoint SimpleLetterEqualFold_loop (s t : bytes) : bool :=
  match s, t with
  | [], _ => true
  | b :: s', tb :: t' =>
    if N.land (code b) caseMask =? N.land (code tb) caseMask
    then SimpleLetterEqualFold_loop s' t' else false
  | _ :: _, [] => false
  end.

Definition SimpleLetterEqualFold (s t : bytes) : bool :=
  if negb (Nat.eqb (List.length s) (List.length t)) then false
  else SimpleLetterEqualFold_loop s t.

Fixpoint EqualFoldRight (s t : bytes) : bool :=
  match s with
  | [] => match t with [] => true | _ :: _ => false end
  | sb :: s' =>
    match t with
    | [] => false
    | tb :: t' =>
      if code tb <? utf8.RuneSelf then
        if negb (byte_eqb sb tb) then
          let sbUpper := N.land (code sb) caseMask in
          if (65 <=? sbUpper) && (sbUpper <=? 90) then
            if negb (sbUpper =? N.land (code tb) caseMask) then false
            else EqualFoldRight s' t'
          else false
        else EqualFoldRight s' t'
      else
        let '(tr, size) := utf8.DecodeRune t in
        if (code sb =? 115) || (code sb =? 83) then
          if negb (tr =? smallLongEss) then false
          else EqualFoldRight s' (skipn size t)
        else if (code sb =? 107) || (code sb =? 75) then
          if negb (tr =? kelvin) then false
          else EqualFoldRight s' (skipn size t)
        else false
    end
  end.

End fflib_fold.

(** ** unicode and strings

    The parts of Go's standard library [Sticker.TagList] calls:
    [strings.Split] with a one-byte separator and [strings.TrimSpace],
    with the rune decoding and the white space property under them. *)

Module unicode.

(** [unicode.IsSpace]: the Latin-1 white space by cases, the rest by
    the White_Space table. *)
Definition IsSpace (r : N) : bool :=
  if r <=? 255 then
    ((9 <=? r) && (r <=? 13)) || (r =? 32) || (r =? 133) || (r =? 160)
  else
    (r =? 5760) || ((8192 <=? r) && (r <=? 8202)) || (r =? 8232)
    || (r =? 8233) || (r =? 8239) || (r =? 8287) || (r =? 12288).

End unicode.

Module strings.

(** [utf8.RuneStart]. *)
Definition RuneStart (b : ascii) : bool :=
  negb (N.land (code b) 192 =? 128).

(** The backward search of [DecodeLastRune] for the byte the last rune
    starts at: from [start] down to [lim], stopping at a byte that can
    start a rune. *)
Fixpoint back_search (fuel : nat) (p : bytes) (start lim : Z) : Z :=
  match fuel with
  | O => start
  | S fuel' =>
    if (lim <=? start)%Z then
      if RuneStart (nth (Z.to_nat start) p zero) then start
      else back_search fuel' p (start - 1)%Z lim
    else start
  end.

(** [utf8.DecodeLastRuneInString]. *)
Definition DecodeLastRune (p : bytes) : N * nat :=
  let end_ := Z.of_nat (List.length p) in
  if (end_ =? 0)%Z then (utf8.RuneError, O)
  else
    let start := (end_ - 1)%Z in
    let r := code (nth (Z.to_nat start) p zero) in
    if r <? utf8.RuneSelf then (r, 1%nat)
    else
      let lim := (if (end_ - 4 <? 0)%Z then 0 else end_ - 4)%Z in
      let start := back_search (List.length p) p (start - 1)%Z lim in
      let start := (if (start <? 0)%Z then 0 else start)%Z in
      let '(r, size) := utf8.DecodeRune (skipn (Z.to_nat start) p) in
      if negb (start + Z.of_nat size =? end_)%Z then (utf8.RuneError, 1%nat)
      else (r, size).

(** [asciiSpace]. *)
Definition asciiSpace (c : ascii) : bool :=
  (code c =? 9) || (code c =? 10) || (code c =? 11) || (code c =? 12)
  || (code c =? 13) || (code c =? 32).

(** [TrimLeftFunc(s, unicode.IsSpace)]: the runes are decoded from the
    left, and the string from the first one that is no white space is
    kept; nothing when there is none. *)
Fixpoint TrimLeftSpace_loop (fuel : nat) (s : bytes) : bytes :=
  match fuel with
  | O => []
  | S fuel' =>
    match s with
    | [] => []
    | _ :: _ =>
      let '(r, size) := utf8.DecodeRune s in
      if unicode.IsSpace r then TrimLeftSpace_loop fuel' (skipn size s)
      else s
    end
  end.

Definition TrimLeftSpace (s : bytes) : bytes :=
  TrimLeftSpace_loop (List.length s) s.

(** [lastIndexFunc(s, unicode.IsSpace, false)]: the runes are decoded
    from the right; the index the last one that is no white space
    starts at, [None] for -1. *)
Fixpoint lastIndexNotSpace (fuel : nat) (s : bytes) (i : nat) : option nat :=
  match fuel with
  | O => None
  | S fuel' =>
    if (0 <? i)%nat then
      let '(r, size) := DecodeLastRune (firstn i s) in
      let i' := (i - size)%nat in
      if negb (unicode.IsSpace r) then Some i'
      else lastIndexNotSpace fuel' s i'
    else None
  end.

(** [TrimRightFunc(s, unicode.IsSpace)]. *)
Definition TrimRightSpace (s : bytes) : bytes :=
  match lastIndexNotSpace (S (List.length s)) s (List.length s) with
  | Some i =>
    if utf8.RuneSelf <=? code (nth i s zero)
    then firstn (i + snd (utf8.DecodeRune (skipn i s))) s
    else firstn (S i) s
  | None => firstn 0 s
  end.

(** The first loop of [TrimSpace]: leading ASCII white space is
    dropped; [true] when a byte that is not ASCII stopped it. *)
Fixpoint TrimSpace_start (s : bytes) : bytes * bool :=
  match s with
  | [] => ([], false)
  | c :: s' =>
    if utf8.RuneSelf <=? code c then (s, true)
    else if asciiSpace c then TrimSpace_start s'
    else (s, false)
  end.

(** The second loop of [TrimSpace], on the bytes from the last one
    backwards: trailing ASCII white space is dropped; at a byte that is
    not ASCII the rest goes to [TrimRightFunc]. *)
Fixpoint TrimSpace_stop (rs : bytes) : bytes :=
  match rs with
  | [] => []
  | c :: rs' =>
    if utf8.RuneSelf <=? code c then TrimRightSpace (rev rs)
    else if asciiSpace c then TrimSpace_stop rs'
    else rev rs
  end.

(** [strings.TrimSpace]. *)
Definition TrimSpace (s : bytes) : bytes :=
  let '(s1, nonascii) := TrimSpace_start s in
  if nonascii then TrimRightSpace (TrimLeftSpace s1)
  else TrimSpace_stop (rev s1).

(** [strings.Count(s, sep)] for a one-byte separator. *)
Definition Count (s : bytes) (sep : ascii) : nat :=
  List.length (filter (byte_eqb sep) s).

(** [strings.IndexByte]: [None] for -1. *)
Fixpoint IndexByte (s : bytes) (sep : ascii) : option nat :=
  match s with
  | [] => None
  | c :: s' =>
    if byte_eqb c sep then Some O
    else match IndexByte s' sep with
         | Some m => Some (S m)
         | None => None
         end
  end.

(** The loop of [genSplit]: at most [n] cuts at the separator, the
    rest of the string last. *)
Fixpoint genSplit_loop (n : nat) (s : bytes) (sep : ascii) : list bytes :=
  match n with
  | O => [s]
  | S n' =>
    match IndexByte s sep with
    | None => [s]
    | Some m => firstn m s :: genSplit_loop n' (skipn (m + 1) s) sep
    end
  end.

(** [strings.Split(s, sep)] for a one-byte separator: [Count(s, sep)]
    cuts. *)
Definition Split (s : bytes) (sep : ascii) : list bytes :=
  genSplit_loop (Count s sep) s sep.

End strings.

(** ** Sticker *)

(** The struct [Sticker]; identifiers are unsigned 64-bit numbers, the
    user a pointer to a user entity [U]. *)
Record Sticker (U : Type) : Type := mkSticker {
  Sticker_ID : N;
  Sticker_PackID : N;
  Sticker_Name : bytes;
  Sticker_Description : bytes;
  Sticker_Tags : bytes;
  Sticker_Type : Z;
  Sticker_FormatType : N;
  Sticker_Available : bool;
  Sticker_GuildID : N;
  Sticker_User : option U;
  Sticker_SortValue : option Z
}.

(** [func (s Sticker) TagList() []string]. *)
Definition TagList {U : Type} (s : Sticker U) : list bytes :=
  let tags := strings.Split (Sticker_Tags U s) ","%char in
  map strings.TrimSpace tags.

(** *** What trimming is to achieve, stated on runes *)

(** A run of white space: encodings of white space runes, one after
    the other. *)
Inductive space_run : bytes -> Prop :=
| space_run_nil : space_run []
| space_run_cons (enc rest : bytes) (r : N) :
    enc <> [] ->
    utf8.DecodeRune enc = (r, List.length enc) ->
    unicode.IsSpace r = true ->
    space_run rest ->
    space_run (enc ++ rest).

(** A string without white space around it: it is empty, or neither
    its first nor its last rune is white space. *)
Definition trimmed (t : bytes) : Prop :=
  t = []
  \/ (unicode.IsSpace (fst (utf8.DecodeRune t)) = false
      /\ unicode.IsSpace (fst (strings.DecodeLastRune t)) = false).

(** ** Message *)

Section MessageURL.

(** The identifier types are not under src/: [IsValid] and [String] of
    [GuildID], [String] of [ChannelID] and of [MessageID]. *)
Variable GuildID_IsValid : N -> bool.
Variable GuildID_String : N -> bytes.
Variable ChannelID_String : N -> bytes.
Variable MessageID_String : N -> bytes.

(** The struct [Message], with the fields [URL] reads; its other fields
    are data of types that are not under src/. *)
Record Message : Set := mkMessage {
  Message_ID : N;
  Message_ChannelID : N;
  Message_GuildID : N
}.

(** The guild segment of the URL: ["@me"] for a message without a
    guild. *)
Definition URL_guild (m : Message) : bytes :=
  if GuildID_IsValid (Message_GuildID m)
  then GuildID_String (Message_GuildID m)
  else B "@me".

(** [func (m Message) URL() string]. *)
Definition URL (m : Message) : bytes :=
  B "https://discord.com/channels/"
  ++ URL_guild m ++ B "/"
  ++ ChannelID_String (Message_ChannelID m) ++ B "/"
  ++ MessageID_String (Message_ID m).

End MessageURL.

(** ** The key constants of the Emoji decoder *)

(** The [iota] block of [ffjtEmoji...] constants: which field the key
    last read stands for. *)
Inductive ffjtEmoji : Set :=
| ffjtEmojibase
| ffjtEmojinosuchkey
| ffjtEmojiID
| ffjtEmojiName
| ffjtEmojiRoleIDs
| ffjtEmojiUser
| ffjtEmojiRequireColons
| ffjtEmojiManaged
| ffjtEmojiAnimated
| ffjtEmojiAvailable.

Definition ffjKeyEmojiID : bytes := B "id".
Definition ffjKeyEmojiName : bytes := B "name".
Definition ffjKeyEmojiRoleIDs : bytes := B "roles".
Definition ffjKeyEmojiUser : bytes := B "user".
Definition ffjKeyEmojiRequireColons : bytes := B "require_colons".
Definition ffjKeyEmojiManaged : bytes := B "managed".
Definition ffjKeyEmojiAnimated : bytes := B "animated".
Definition ffjKeyEmojiAvailable : bytes := B "available".

(** The [switch kn[0]] of the want-key state: the exact comparisons,
    tried only under the case of the key's first byte.  [None] is the
    fall-through to the folding chain. *)
Definition exact_switch (kn : bytes) : option ffjtEmoji :=
  match kn with
  | [] => None
  | c :: _ =>
    if byte_eqb c "a" then
      if bytes_Equal ffjKeyEmojiAnimated kn then Some ffjtEmojiAnimated
      else if bytes_Equal ffjKeyEmojiAvailable kn then Some ffjtEmojiAvailable
      else None
    else if byte_eqb c "i" then
      if bytes_Equal ffjKeyEmojiID kn then Some ffjtEmojiID else None
    else if byte_eqb c "m" then
      if bytes_Equal ffjKeyEmojiManaged kn then Some ffjtEmojiManaged else None
    else if byte_eqb c "n" then
      if bytes_Equal ffjKeyEmojiName kn then Some ffjtEmojiName else None
    else if byte_eqb c "r" then
      if bytes_Equal ffjKeyEmojiRoleIDs kn then Some ffjtEmojiRoleIDs
      else if bytes_Equal ffjKeyEmojiRequireColons kn
           then Some ffjtEmojiRequireColons
      else None
    else if byte_eqb c "u" then
      if bytes_Equal ffjKeyEmojiUser kn then Some ffjtEmojiUser else None
    else None
  end.

(** The chain of folding comparisons after the switch, in the order the
    generator wrote them. *)
Definition fold_chain (kn : bytes) : ffjtEmoji :=
  if fflib_fold.SimpleLetterEqualFold ffjKeyEmojiAvailable kn
  then ffjtEmojiAvailable
  else if fflib_fold.SimpleLetterEqualFold ffjKeyEmojiAnimated kn
  then ffjtEmojiAnimated
  else if fflib_fold.SimpleLetterEqualFold ffjKeyEmojiManaged kn
  then ffjtEmojiManaged
  else if fflib_fold.EqualFoldRight ffjKeyEmojiRequireColons kn
  then ffjtEmojiRequireColons
  else if fflib_fold.EqualFoldRight ffjKeyEmojiUser kn
  then ffjtEmojiUser
  else if fflib_fold.EqualFoldRight ffjKeyEmojiRoleIDs kn
  then ffjtEmojiRoleIDs
  else if fflib_fold.SimpleLetterEqualFold ffjKeyEmojiName kn
  then ffjtEmojiName
  else if fflib_fold.SimpleLetterEqualFold ffjKeyEmojiID kn
  then ffjtEmojiID
  else ffjtEmojinosuchkey.

(** What the want-key state assigns to [currentKey] for the key bytes
    [kn] ([fs.Output.Bytes()] of the string token). *)
Definition currentKey_of (kn : bytes) : ffjtEmoji :=
  if (List.length kn <=? 0)%nat then ffjtEmojinosuchkey
  else match exact_switch kn with
       | Some k => k
       | None => fold_chain kn
       end.

(** The wire keys in declaration order, each with its field. *)
Definition wire_keys : list (bytes * ffjtEmoji) :=
  [ (ffjKeyEmojiID, ffjtEmojiID);
    (ffjKeyEmojiName, ffjtEmojiName);
    (ffjKeyEmojiRoleIDs, ffjtEmojiRoleIDs);
    (ffjKeyEmojiUser, ffjtEmojiUser);
    (ffjKeyEmojiRequireColons, ffjtEmojiRequireColons);
    (ffjKeyEmojiManaged, ffjtEmojiManaged);
    (ffjKeyEmojiAnimated, ffjtEmojiAnimated);
    (ffjKeyEmojiAvailable, ffjtEmojiAvailable) ].

(** *** Case-insensitive equality, stated on runes

    The notion the folding helpers are specialisations of: the key [k]
    and the incoming bytes [t] are equal rune by rune up to simple case
    folding.  The only runes that fold onto an ASCII rune are the ASCII
    letters themselves, the long s (onto s) and the Kelvin sign (onto
    k). *)

Definition fold_rune (r : N) : N :=
  if (65 <=? r) && (r <=? 90) then r + 32
  else if r =? fflib_fold.smallLongEss then 115
  else if r =? fflib_fold.kelvin then 107
  else r.

Inductive fold_equal : bytes -> bytes -> Prop :=
| fold_equal_nil : fold_equal [] []
| fold_equal_cons (c : ascii) (k t : bytes) :
    t <> [] ->
    fold_rune (fst (utf8.DecodeRune t)) = fold_rune (code c) ->
    fold_equal k (skipn (snd (utf8.DecodeRune t)) t) ->
    fold_equal (c :: k) t.

(** The lower-case form of a byte: an ASCII upper-case letter becomes
    its lower-case letter, any other byte stays. *)
Definition ascii_lower (c : ascii) : ascii :=
  if (65 <=? code c) && (code c <=? 90) then ascii_of_N (code c + 32) else c.

(** Every byte value, for statements checked value by value. *)
Definition all_bytes : list ascii := map ascii_of_nat (seq 0 256).

(** A byte of a key that is its own fold: ASCII and not an upper-case
    letter. *)
Definition folded_byte (c : ascii) : bool :=
  (code c <? 128) && negb ((65 <=? code c) && (code c <=? 90)).

(** An ASCII letter other than k and s, in either case: what
    [SimpleLetterEqualFold] asks of the bytes of its first argument. *)
Definition simple_letter (c : ascii) : bool :=
  let u := N.land (code c) fflib_fold.caseMask in
  (code c <? 128) && (65 <=? u) && (u <=? 90)
  && negb (u =? 75) && negb (u =? 83).

(** ** fflib: tokens, parse states and errors *)

Inductive FFTok : Set :=
| FFTok_init
| FFTok_bool
| FFTok_colon
| FFTok_comma
| FFTok_eof
| FFTok_error
| FFTok_left_brace      (* [ *)
| FFTok_left_bracket    (* { *)
| FFTok_integer
| FFTok_double
| FFTok_null
| FFTok_right_brace     (* ] *)
| FFTok_right_bracket   (* } *)
| FFTok_string
| FFTok_comment.

Inductive FFParseState : Set :=
| FFParse_map_start
| FFParse_after_value
| FFParse_want_key
| FFParse_want_colon
| FFParse_want_value.

Inductive FFErr : Set :=
| FFErr_e_ok
| FFErr_io
| FFErr_string_invalid_utf8
| FFErr_string_invalid_escaped_char
| FFErr_string_invalid_json_char
| FFErr_string_invalid_hex_char
| FFErr_invalid_char
| FFErr_invalid_string
| FFErr_missing_integer_after_decimal
| FFErr_missing_integer_after_exponent
| FFErr_missing_integer_after_minus
| FFErr_unallowed_comment
| FFErr_incomplete_comment
| FFErr_unexpected_token_type.

Definition FFTok_eqb (a b : FFTok) : bool :=
  match a, b with
  | FFTok_init, FFTok_init | FFTok_bool, FFTok_bool
  | FFTok_colon, FFTok_colon | FFTok_comma, FFTok_comma
  | FFTok_eof, FFTok_eof | FFTok_error, FFTok_error
  | FFTok_left_brace, FFTok_left_brace
  | FFTok_left_bracket, FFTok_left_bracket
  | FFTok_integer, FFTok_integer | FFTok_double, FFTok_double
  | FFTok_null, FFTok_null | FFTok_right_brace, FFTok_right_brace
  | FFTok_right_bracket, FFTok_right_bracket
  | FFTok_string, FFTok_string | FFTok_comment, FFTok_comment => true
  | _, _ => false
  end.

(** Go's [error] values, one constructor per place that makes one.  The
    arguments are the values the message is formatted from. *)
Inductive error : Set :=
(** [fmt.Errorf("cannot unmarshal %s into Go value for <ty>", tok)] *)
| Errorf_cannot_unmarshal (tok : FFTok) (ty : string)
(** [fmt.Errorf("wanted value token, but got token: %v", tok)] *)
| Errorf_wanted_value (tok : FFTok)
(** [fmt.Errorf("ffjson: wanted token: %v, but got token: %v output=%s", ...)] *)
| Errorf_wanted_token (wantedTok tok : FFTok) (output : bytes)
(** [errors.New("unexpected bytes for true/false value")] *)
| errors_New_true_false
(** [fs.Error.ToError()] of a lexer error code *)
| FFErr_ToError (e : FFErr)
(** [errors.New("ffjson: unexpected EOF")], of [scanField] *)
| errors_New_unexpected_EOF
(** [fmt.Errorf("ffjson: invalid capture type: %v", start)], of [scanField] *)
| Errorf_invalid_capture (start : FFTok)
(** an error value made by a collaborator codec (identifier, user) *)
| foreign_error (msg : string)
(** [fs.WrapErr(err)]: the error with the lexer position attached *)
| LexerError (err : error).

(** The error kinds of the specification's error-handling design. *)
Inductive error_kind : Set :=
| structural_token_error
| type_mismatch
| malformed_scalar
| nested_decode_failure
| lexer_fault.

(** The kind of an error of the decoder, read off the place that made it:
    the token-kind preconditions of the field handlers are type
    mismatches, the failed boolean parse is a malformed scalar, the
    grammar-position checks of the state machine are structural, the
    collaborators' errors are nested failures and the tokenizer's own are
    lexer faults. *)
Fixpoint kind_of (e : error) : error_kind :=
  match e with
  | Errorf_cannot_unmarshal _ _ => type_mismatch
  | Errorf_wanted_value _ => structural_token_error
  | Errorf_wanted_token _ _ _ => structural_token_error
  | errors_New_true_false => malformed_scalar
  | FFErr_ToError _ => lexer_fault
  | errors_New_unexpected_EOF => lexer_fault
  | Errorf_invalid_capture _ => structural_token_error
  | foreign_error _ => nested_decode_failure
  | LexerError err => kind_of err
  end.

(** ** fflib: the buffer *)

Definition Buffer := bytes.

Definition Buffer_Write (buf : Buffer) (p : bytes) : Buffer := buf ++ p.
Definition Buffer_WriteString (buf : Buffer) (s : bytes) : Buffer := buf ++ s.
Definition Buffer_WriteByte (buf : Buffer) (c : ascii) : Buffer := buf ++ [c].

(** [Rewind(n)] drops the last [n] bytes written. *)
Definition Buffer_Rewind (buf : Buffer) (n : nat) : Buffer :=
  firstn (List.length buf - n) buf.

(** ** fflib: JSON string writer

    Modelled from the spec: the string writer of the codec library is
    not under src/; the encoder only calls it.  It writes a JSON string
    literal: the bytes between double quotes, with the quote, the
    backslash, the control characters and the characters [<], [>], [&]
    escaped, invalid UTF-8 replaced by U+FFFD and the two line
    separators U+2028 and U+2029 escaped. *)

Definition hex_digit (n : N) : ascii :=
  if n <? 10 then ascii_of_N (48 + n) else ascii_of_N (87 + n).

(** The bytes written verbatim: [0x20 <= b] and none of the escaped
    ASCII characters. *)
Definition json_plain (b : ascii) : bool :=
  (32 <=? code b) && (code b <? 128)
  && negb (code b =? 92) && negb (code b =? 34)
  && negb (code b =? 60) && negb (code b =? 62) && negb (code b =? 38).

Definition json_escape (b : ascii) : bytes :=
  if (code b =? 92) || (code b =? 34) then ["\"%char; b]
  else if code b =? 10 then B "\n"
  else if code b =? 13 then B "\r"
  else B "\u00" ++ [hex_digit (N.shiftr (code b) 4);
                    hex_digit (N.land (code b) 15)].

Fixpoint WriteJson_loop (fuel : nat) (s : bytes) : bytes :=
  match fuel with
  | O => []
  | S fuel' =>
    match s with
    | [] => []
    | b :: s' =>
      if code b <? utf8.RuneSelf then
        (if json_plain b then [b] else json_escape b)
        ++ WriteJson_loop fuel' s'
      else
        let '(c, size) := utf8.DecodeRune s in
        if (c =? utf8.RuneError) && Nat.eqb size 1 then
          B "\ufffd" ++ WriteJson_loop fuel' s'
        else if (c =? 8232) || (c =? 8233) then
          B "\u202" ++ [hex_digit (N.land c 15)]
          ++ WriteJson_loop fuel' (skipn size s)
        else firstn size s ++ WriteJson_loop fuel' (skipn size s)
    end
  end.

Definition WriteJson (buf : Buffer) (s : bytes) : Buffer :=
  Buffer_WriteByte
    (Buffer_Write (Buffer_WriteByte buf dq) (WriteJson_loop (List.length s) s))
    dq.

Definition WriteJsonString (buf : Buffer) (s : bytes) : Buffer :=
  WriteJson buf s.

(** ** fflib: the tokenizer

    Modelled from the spec: the tokenizer of the codec library is not
    under src/; the decoder only calls its [Scan], [SkipField] and
    [CaptureField] and reads its [Output].  It turns the remaining
    input into one primitive JSON token per [Scan] and exposes the
    captured bytes of the token: the unescaped contents of a string, the
    literal of a number, of a boolean and of null. *)

Record FFLexer : Set := mkFFLexer {
  reader : bytes;            (* the input not yet consumed *)
  Output : bytes;            (* the captured bytes of the current token *)
  Error : FFErr;
  BigError : option error
}.

Definition NewFFLexer (input : bytes) : FFLexer :=
  {| reader := input; Output := []; Error := FFErr_e_ok; BigError := None |}.

Definition is_space (c : ascii) : bool :=
  (code c =? 32) || (code c =? 9) || (code c =? 13) || (code c =? 10).

Definition is_digit (c : ascii) : bool := (48 <=? code c) && (code c <=? 57).

Definition hex_value (c : ascii) : option N :=
  let n := code c in
  if (48 <=? n) && (n <=? 57) then Some (n - 48)
  else if (97 <=? n) && (n <=? 102) then Some (n - 87)
  else if (65 <=? n) && (n <=? 70) then Some (n - 55)
  else None.

Definition hex4 (a b c d : ascii) : option N :=
  match hex_value a, hex_value b, hex_value c, hex_value d with
  | Some x, Some y, Some z, Some w => Some (((x * 16 + y) * 16 + z) * 16 + w)
  | _, _, _, _ => None
  end.

(** [utf8.EncodeRune]. *)
Definition EncodeRune (r : N) : bytes :=
  if r <? 128 then [ascii_of_N r]
  else if r <? 2048 then
    [ascii_of_N (N.lor 192 (N.shiftr r 6));
     ascii_of_N (N.lor 128 (N.land r 63))]
  else if ((55296 <=? r) && (r <=? 57343)) || (1114111 <? r) then
    [ascii_of_N 239; ascii_of_N 191; ascii_of_N 189]
  else if r <? 65536 then
    [ascii_of_N (N.lor 224 (N.shiftr r 12));
     ascii_of_N (N.lor 128 (N.land (N.shiftr r 6) 63));
     ascii_of_N (N.lor 128 (N.land r 63))]
  else
    [ascii_of_N (N.lor 240 (N.shiftr r 18));
     ascii_of_N (N.lor 128 (N.land (N.shiftr r 12) 63));
     ascii_of_N (N.lor 128 (N.land (N.shiftr r 6) 63));
     ascii_of_N (N.lor 128 (N.land r 63))].

(** What one scan yields: the token, its captured bytes, the error code
    of an error token, and the input left. *)
Definition scanned : Set := FFTok * bytes * FFErr * bytes.

Definition scan_error (e : FFErr) (rest : bytes) : scanned :=
  (FFTok_error, [], e, rest).

(** The body of a string literal, after its opening quote; [acc] holds
    the unescaped bytes so far, last first. *)
Fixpoint lexString (r : bytes) (acc : bytes) : scanned :=
  match r with
  | [] => scan_error FFErr_io []
  | c :: r1 =>
    if code c =? 34 then (FFTok_string, rev acc, FFErr_e_ok, r1)
    else if code c =? 92 then
      match r1 with
      | [] => scan_error FFErr_io []
      | e :: r2 =>
        if (code e =? 34) || (code e =? 92) || (code e =? 47)
        then lexString r2 (e :: acc)
        else if code e =? 98 then lexString r2 (ascii_of_N 8 :: acc)
        else if code e =? 102 then lexString r2 (ascii_of_N 12 :: acc)
        else if code e =? 110 then lexString r2 (ascii_of_N 10 :: acc)
        else if code e =? 114 then lexString r2 (ascii_of_N 13 :: acc)
        else if code e =? 116 then lexString r2 (ascii_of_N 9 :: acc)
        else if code e =? 117 then
          match r2 with
          | h1 :: h2 :: h3 :: h4 :: r3 =>
            match hex4 h1 h2 h3 h4 with
            | None => scan_error FFErr_string_invalid_hex_char r2
            | Some hi =>
              if (55296 <=? hi) && (hi <=? 56319) then
                (* a high surrogate: joined with a low one that follows *)
                match r3 with
                | b :: u :: l1 :: l2 :: l3 :: l4 :: r4 =>
                  match
                    (if (code b =? 92) && (code u =? 117)
                     then hex4 l1 l2 l3 l4 else None)
                  with
                  | Some lo =>
                    if (56320 <=? lo) && (lo <=? 57343) then
                      lexString r4
                        (rev (EncodeRune
                                (65536 + (hi - 55296) * 1024 + (lo - 56320)))
                         ++ acc)
                    else lexString r3 (rev (EncodeRune utf8.RuneError) ++ acc)
                  | None =>
                    lexString r3 (rev (EncodeRune utf8.RuneError) ++ acc)
                  end
                | _ => lexString r3 (rev (EncodeRune utf8.RuneError) ++ acc)
                end
              else lexString r3 (rev (EncodeRune hi) ++ acc)
            end
          | _ => scan_error FFErr_string_invalid_hex_char r2
          end
        else scan_error FFErr_string_invalid_escaped_char r2
      end
    else if code c <? 32 then scan_error FFErr_string_invalid_json_char r1
    else lexString r1 (c :: acc)
  end.

(** The longest prefix of digits, and what follows it. *)
Fixpoint span_digits (r : bytes) : bytes * bytes :=
  match r with
  | c :: r' =>
    if is_digit c
    then let '(d, rest) := span_digits r' in (c :: d, rest)
    else ([], r)
  | [] => ([], [])
  end.

(** A number literal: an optional minus, digits, an optional fraction
    and an optional exponent; with either of the last two it is a
    double. *)
Definition lexNumber (r : bytes) : scanned :=
  let '(sign, r0) :=
    match r with
    | c :: r' => if code c =? 45 then ([c], r') else ([], r)
    | [] => ([], [])
    end in
  let '(int, r1) := span_digits r0 in
  match int with
  | [] => scan_error FFErr_missing_integer_after_minus r0
  | _ :: _ =>
    let frac :=
      match r1 with
      | c :: r' =>
        if code c =? 46 then
          let '(d, r2) := span_digits r' in Some (c :: d, d, r2)
        else None
      | [] => None
      end in
    match frac with
    | Some (_, [], r2) => scan_error FFErr_missing_integer_after_decimal r2
    | _ =>
      let '(fr, r2, dbl) :=
        match frac with
        | Some (f, _, r2) => (f, r2, true)
        | None => ([], r1, false)
        end in
      let expo :=
        match r2 with
        | c :: r' =>
          if (code c =? 101) || (code c =? 69) then
            let '(sg, r3) :=
              match r' with
              | s :: r'' =>
                if (code s =? 43) || (code s =? 45) then ([s], r'')
                else ([], r')
              | [] => ([], [])
              end in
            let '(d, r4) := span_digits r3 in Some (c :: sg ++ d, d, r4)
          else None
        | [] => None
        end in
      match expo with
      | Some (_, [], r4) => scan_error FFErr_missing_integer_after_exponent r4
      | Some (e, _, r4) =>
        (FFTok_double, sign ++ int ++ fr ++ e, FFErr_e_ok, r4)
      | None =>
        (if dbl then FFTok_double else FFTok_integer,
         sign ++ int ++ fr, FFErr_e_ok, r2)
      end
    end
  end.

(** [wantBytes]: the rest of a literal ([rue], [alse], [ull]) must
    follow. *)
Fixpoint wantBytes (want r acc : bytes) (iftrue : FFTok) : scanned :=
  match want with
  | [] => (iftrue, acc, FFErr_e_ok, r)
  | b :: want' =>
    match r with
    | [] => scan_error FFErr_io []
    | c :: r' =>
      if byte_eqb c b then wantBytes want' r' (acc ++ [c]) iftrue
      else scan_error FFErr_invalid_string r
    end
  end.

(** One token off the head of [r], white space skipped. *)
Fixpoint scan_token (r : bytes) : scanned :=
  match r with
  | [] => (FFTok_eof, [], FFErr_e_ok, [])
  | c :: r' =>
    if is_space c then scan_token r'
    else if code c =? 34 then lexString r' []
    else if (code c =? 45) || is_digit c then lexNumber r
    else if code c =? 116 then wantBytes (B "rue") r' [c] FFTok_bool
    else if code c =? 102 then wantBytes (B "alse") r' [c] FFTok_bool
    else if code c =? 110 then wantBytes (B "ull") r' [c] FFTok_null
    else if code c =? 123 then (FFTok_left_bracket, [], FFErr_e_ok, r')
    else if code c =? 125 then (FFTok_right_bracket, [], FFErr_e_ok, r')
    else if code c =? 91 then (FFTok_left_brace, [], FFErr_e_ok, r')
    else if code c =? 93 then (FFTok_right_brace, [], FFErr_e_ok, r')
    else if code c =? 44 then (FFTok_comma, [], FFErr_e_ok, r')
    else if code c =? 58 then (FFTok_colon, [], FFErr_e_ok, r')
    else scan_error FFErr_invalid_char r'
  end.

(** [fs.Scan()]: the token, and the lexer after it. *)
Definition Scan (fs : FFLexer) : FFTok * FFLexer :=
  let '(tok, out, err, rest) := scan_token (reader fs) in
  (tok,
   {| reader := rest;
      Output := out;
      Error := match tok with FFTok_error => err | _ => Error fs end;
      BigError := BigError fs |}).

Definition ToError (e : FFErr) : option error :=
  match e with
  | FFErr_e_ok => None
  | _ => Some (FFErr_ToError e)
  end.

Definition WrapErr (fs : FFLexer) (err : error) : error := LexerError err.

(** The loop of [scanField] over a nested value: tokens are scanned
    until the bracket that closes the opening one; only brackets of the
    opening kind are counted.  Every scan that does not end the loop
    consumes input, so [fuel] above the length of the input is never
    used up. *)
Fixpoint scanField_loop (fuel : nat) (fs : FFLexer) (start end_ : FFTok)
    (depth : nat) : FFLexer * option error :=
  match fuel with
  | O => (fs, Some errors_New_unexpected_EOF)
  | S fuel' =>
    let '(tok, fs1) := Scan fs in
    match tok with
    | FFTok_eof => (fs1, Some errors_New_unexpected_EOF)
    | FFTok_error =>
      match BigError fs1 with
      | Some e => (fs1, Some e)
      | None => (fs1, ToError (Error fs1))
      end
    | _ =>
      if FFTok_eqb tok end_ then
        match depth with
        | S O | O => (fs1, None)
        | S d => scanField_loop fuel' fs1 start end_ d
        end
      else if FFTok_eqb tok start then
        scanField_loop fuel' fs1 start end_ (S depth)
      else scanField_loop fuel' fs1 start end_ depth
    end
  end.

(** [scanField(start, capture)]: the lexer after the value whose first
    token [start] was just scanned, the captured bytes when asked for,
    and the error. *)
Definition scanField (fs : FFLexer) (start : FFTok) (capture : bool)
  : FFLexer * bytes * option error :=
  match start with
  | FFTok_left_brace | FFTok_left_bracket =>
    let end_ :=
      match start with
      | FFTok_left_bracket => FFTok_right_bracket
      | _ => FFTok_right_brace
      end in
    let opening :=
      match start with
      | FFTok_left_bracket => "{"%char
      | _ => "["%char
      end in
    let '(fs1, err) :=
      scanField_loop (S (List.length (reader fs))) fs start end_ 1 in
    match err with
    | Some e => (fs1, [], Some e)
    | None =>
      if capture then
        (fs1,
         opening :: firstn (List.length (reader fs) - List.length (reader fs1))
                           (reader fs),
         None)
      else (fs1, [], None)
    end
  | FFTok_bool | FFTok_integer | FFTok_null | FFTok_double =>
    if capture then (fs, Output fs, None) else (fs, [], None)
  | FFTok_string =>
    if capture then (fs, WriteJson [] (Output fs), None) else (fs, [], None)
  | _ => (fs, [], Some (Errorf_invalid_capture start))
  end.

Definition SkipField (fs : FFLexer) (tok : FFTok) : FFLexer * option error :=
  let '(fs1, _, err) := scanField fs tok false in (fs1, err).

Definition CaptureField (fs : FFLexer) (tok : FFTok)
  : FFLexer * bytes * option error :=
  scanField fs tok true.

(** ** Collaborators, as the specification describes them

    The identifier codec and the user entity are not under src/.  The
    definitions here are the stand-ins the concrete examples run on; the
    codec itself is stated over any collaborators. *)

(** Modelled from the spec: the identifier codec (the [MarshalJSON] and
    [UnmarshalJSON] of the 64-bit identifier types) is missing.  An
    identifier is written as a JSON string of decimal digits; it is read
    by a fixed-width unsigned parse of the captured bytes, quoted or
    bare. *)
Definition decimal (v : N) : bytes :=
  list_ascii_of_string (NilEmpty.string_of_uint (N.to_uint v)).

Definition Snowflake_MarshalJSON (v : N) : bytes * option error :=
  (quoted (decimal v), None).

Definition trim_quotes (b : bytes) : bytes :=
  let b1 := match b with
            | c :: b' => if code c =? 34 then b' else b
            | [] => []
            end in
  match rev b1 with
  | c :: r => if code c =? 34 then rev r else b1
  | [] => []
  end.

Definition ParseUint64 (b : bytes) : option N :=
  match b with
  | [] => None
  | _ :: _ =>
    match NilEmpty.uint_of_string (string_of_list_ascii b) with
    | Some u => let v := N.of_uint u in
                if v <? 18446744073709551616 then Some v else None
    | None => None
    end
  end.

Definition Snowflake_UnmarshalJSON (s : N) (v : bytes) : N * option error :=
  match ParseUint64 (trim_quotes v) with
  | Some p => (p, None)
  | None => (s, Some (foreign_error "invalid syntax"))
  end.

(** Modelled from the spec: [IsValid] and [String] of the identifier
    types are missing.  An identifier is valid when it is neither zero
    nor the null identifier, whose bits are all set; its string form is
    its decimal digits. *)
Definition Snowflake_IsValid (v : N) : bool :=
  negb ((v =? 0) || (v =? 18446744073709551615)).

Definition Snowflake_String (v : N) : bytes := decimal v.

(** Modelled from the spec: the user entity and its generated codec are
    missing, and the specification names none of its fields.  The
    stand-in is the entity without fields: it is written as an empty
    object, and read from the want-key state, where only the closing
    bracket may follow. *)
Definition NoUser : Type := unit.

Definition NoUser_MarshalJSONBuf (u : NoUser) (buf : Buffer)
  : Buffer * option error :=
  (Buffer_WriteString buf (B "{}"), None).

Definition NoUser_UnmarshalJSONFFLexer (u : NoUser) (fs : FFLexer)
    (state : FFParseState) : NoUser * FFLexer * option error :=
  let '(tok, fs1) := Scan fs in
  if FFTok_eqb tok FFTok_right_bracket then (u, fs1, None)
  else (u, fs1, Some (foreign_error "user: wanted the closing bracket")).

(** ** The Emoji entity and its codec *)

(** A step of the encoder: it writes to the buffer and may fail. *)
Definition writer := Buffer -> Buffer * option error.

Definition andThen (a b : writer) : writer :=
  fun buf =>
    let '(buf1, err) := a buf in
    match err with
    | Some e => (buf1, Some e)
    | None => b buf1
    end.

Notation "a ;; b" := (andThen a b) (at level 61, right associativity).

Definition WriteString (s : bytes) : writer :=
  fun buf => (Buffer_WriteString buf s, None).
Definition WriteByte (c : ascii) : writer :=
  fun buf => (Buffer_WriteByte buf c, None).
Definition Rewind (n : nat) : writer :=
  fun buf => (Buffer_Rewind buf n, None).
Definition skip : writer := fun buf => (buf, None).

(** [obj, err = v.MarshalJSON(); if err != nil { return err };
    buf.Write(obj)]. *)
Definition WriteMarshaled (r : bytes * option error) : writer :=
  fun buf =>
    match snd r with
    | Some e => (buf, Some e)
    | None => (Buffer_Write buf (fst r), None)
    end.

Section EmojiCodec.

(** The collaborators of the codec, which are not under src/: the
    identifier types [EmojiID] and [RoleID] with their own
    [MarshalJSON] / [UnmarshalJSON], and the [User] entity with its own
    generated codec.  An [UnmarshalJSON] maps the receiver and the
    captured bytes to the receiver afterwards and the error. *)
Variable User : Type.
Variable EmojiID_MarshalJSON : N -> bytes * option error.
Variable EmojiID_UnmarshalJSON : N -> bytes -> N * option error.
Variable RoleID_MarshalJSON : N -> bytes * option error.
Variable RoleID_UnmarshalJSON : N -> bytes -> N * option error.
Variable User_MarshalJSONBuf : User -> writer.
Variable User_UnmarshalJSONFFLexer :
  User -> FFLexer -> FFParseState -> User * FFLexer * option error.

(** [RoleIDs] is a slice: [None] is nil, [Some []] is empty and not
    nil. *)
Record Emoji : Type := mkEmoji {
  ID : N;
  Name : bytes;
  RoleIDs : option (list N);
  User_ : User;
  RequireColons : bool;
  Managed : bool;
  Animated : bool;
  Available : bool
}.

Definition len_RoleIDs (r : option (list N)) : nat :=
  match r with
  | None => O
  | Some l => List.length l
  end.

(** [for i, v := range j.RoleIDs]: a comma before every element but
    the first, then the element's own encoding. *)
Fixpoint write_RoleIDs (i : nat) (l : list N) : writer :=
  match l with
  | [] => skip
  | v :: l' =>
    (if negb (Nat.eqb i 0) then WriteString (B ",") else skip) ;;
    WriteMarshaled (RoleID_MarshalJSON v) ;;
    write_RoleIDs (S i) l'
  end.

(** [MarshalJSONBuf] on a receiver that is not nil. *)
Definition MarshalJSONBuf_fields (j : Emoji) : writer :=
  WriteString (B "{ " ++ quoted (B "id") ++ B ":") ;;
  WriteMarshaled (EmojiID_MarshalJSON (ID j)) ;;
  WriteString (B "," ++ quoted (B "name") ++ B ":") ;;
  (fun buf => (WriteJsonString buf (Name j), None)) ;;
  WriteByte "," ;;
  (if negb (Nat.eqb (len_RoleIDs (RoleIDs j)) 0) then
     WriteString (quoted (B "roles") ++ B ":") ;;
     match RoleIDs j with
     | Some l =>
       WriteString (B "[") ;; write_RoleIDs 0 l ;; WriteString (B "]")
     | None => WriteString (B "null")
     end ;;
     WriteByte ","
   else skip) ;;
  (WriteString (quoted (B "user") ++ B ":") ;;
   User_MarshalJSONBuf (User_ j) ;;
   WriteByte ",") ;;
  (if negb (Bool.eqb (RequireColons j) false) then
     (if RequireColons j
      then WriteString (quoted (B "require_colons") ++ B ":true")
      else WriteString (quoted (B "require_colons") ++ B ":false")) ;;
     WriteByte ","
   else skip) ;;
  (if negb (Bool.eqb (Managed j) false) then
     (if Managed j
      then WriteString (quoted (B "managed") ++ B ":true")
      else WriteString (quoted (B "managed") ++ B ":false")) ;;
     WriteByte ","
   else skip) ;;
  (if negb (Bool.eqb (Animated j) false) then
     (if Animated j
      then WriteString (quoted (B "animated") ++ B ":true")
      else WriteString (quoted (B "animated") ++ B ":false")) ;;
     WriteByte ","
   else skip) ;;
  (if negb (Bool.eqb (Available j) false) then
     (if Available j
      then WriteString (quoted (B "available") ++ B ":true")
      else WriteString (quoted (B "available") ++ B ":false")) ;;
     WriteByte ","
   else skip) ;;
  Rewind 1 ;;
  WriteByte "}".

(** [func (j *Emoji) MarshalJSONBuf(buf fflib.EncodingBuffer) error];
    the receiver is a pointer, [None] when nil. *)
Definition MarshalJSONBuf (j : option Emoji) : writer :=
  match j with
  | None => WriteString (B "null")
  | Some j => MarshalJSONBuf_fields j
  end.

(** [func (j *Emoji) MarshalJSON() ([]byte, error)]: the bytes, nil
    ([None]) next to an error. *)
Definition MarshalJSON (j : option Emoji) : option bytes * option error :=
  let buf : Buffer := [] in
  match j with
  | None =>
    let '(buf1, _) := WriteString (B "null") buf in (Some buf1, None)
  | Some _ =>
    let '(buf1, err) := MarshalJSONBuf j buf in
    match err with
    | Some e => (None, Some e)
    | None => (Some buf1, None)
    end
  end.

(** *** The decoder

    The receiver [j] and the lexer [fs] are mutated in place by the Go
    code; here both are threaded through and handed back with the
    error, so that what the caller's variables hold after the call is
    part of the result. *)

(** The local state of [UnmarshalJSONFFLexer] between two iterations of
    [mainparse]. *)
Record config : Type := mkConfig {
  c_fs : FFLexer;
  c_state : FFParseState;
  c_currentKey : ffjtEmoji;
  c_j : Emoji
}.

(** How a call ends: [return err] (with [None] for nil) or the panic
    after [tokerror]. *)
Inductive exit : Set :=
| Return (err : option error)
| Panic.

(** The end of a call: what the receiver and the lexer hold then, and
    how it ended. *)
Definition ended : Type := Emoji * FFLexer * exit.

(** One iteration of the [for] loop: it goes round again, or the call
    ends. *)
Inductive step_result : Type :=
| Continue (c : config)
| Exit (e : ended).

(** A field handler: it falls through to
    [state = fflib.FFParse_after_value; goto mainparse], or the call
    ends. *)
Inductive handled : Type :=
| Handled (fs : FFLexer) (j : Emoji)
| Failed (e : ended).

Definition set_ID (j : Emoji) (v : N) : Emoji :=
  mkEmoji v (Name j) (RoleIDs j) (User_ j)
          (RequireColons j) (Managed j) (Animated j) (Available j).
Definition set_Name (j : Emoji) (v : bytes) : Emoji :=
  mkEmoji (ID j) v (RoleIDs j) (User_ j)
          (RequireColons j) (Managed j) (Animated j) (Available j).
Definition set_RoleIDs (j : Emoji) (v : option (list N)) : Emoji :=
  mkEmoji (ID j) (Name j) v (User_ j)
          (RequireColons j) (Managed j) (Animated j) (Available j).
Definition set_User (j : Emoji) (v : User) : Emoji :=
  mkEmoji (ID j) (Name j) (RoleIDs j) v
          (RequireColons j) (Managed j) (Animated j) (Available j).
Definition set_RequireColons (j : Emoji) (v : bool) : Emoji :=
  mkEmoji (ID j) (Name j) (RoleIDs j) (User_ j)
          v (Managed j) (Animated j) (Available j).
Definition set_Managed (j : Emoji) (v : bool) : Emoji :=
  mkEmoji (ID j) (Name j) (RoleIDs j) (User_ j)
          (RequireColons j) v (Animated j) (Available j).
Definition set_Animated (j : Emoji) (v : bool) : Emoji :=
  mkEmoji (ID j) (Name j) (RoleIDs j) (User_ j)
          (RequireColons j) (Managed j) v (Available j).
Definition set_Available (j : Emoji) (v : bool) : Emoji :=
  mkEmoji (ID j) (Name j) (RoleIDs j) (User_ j)
          (RequireColons j) (Managed j) (Animated j) v.

(** [return fs.WrapErr(err)]. *)
Definition return_wrapped (fs : FFLexer) (j : Emoji) (err : error) : ended :=
  (j, fs, Return (Some (WrapErr fs err))).

(** The labels every failure of the state machine jumps to. *)
Definition wantedvalue (fs : FFLexer) (j : Emoji) (tok : FFTok) : ended :=
  return_wrapped fs j (Errorf_wanted_value tok).

Definition wrongtokenerror (fs : FFLexer) (j : Emoji) (wantedTok tok : FFTok)
  : ended :=
  return_wrapped fs j (Errorf_wanted_token wantedTok tok (Output fs)).

Definition tokerror (fs : FFLexer) (j : Emoji) : ended :=
  match BigError fs with
  | Some e => return_wrapped fs j e
  | None =>
    match ToError (Error fs) with
    | Some e => return_wrapped fs j e
    | None => (j, fs, Panic)
    end
  end.

Definition handle_ID (fs : FFLexer) (j : Emoji) (tok : FFTok) : handled :=
  if FFTok_eqb tok FFTok_null then Handled fs j
  else
    let '(fs1, tbuf, err) := CaptureField fs tok in
    match err with
    | Some e => Failed (return_wrapped fs1 j e)
    | None =>
      let '(id, err) := EmojiID_UnmarshalJSON (ID j) tbuf in
      match err with
      | Some e => Failed (return_wrapped fs1 (set_ID j id) e)
      | None => Handled fs1 (set_ID j id)
      end
    end.

Definition handle_Name (fs : FFLexer) (j : Emoji) (tok : FFTok) : handled :=
  if negb (FFTok_eqb tok FFTok_string) && negb (FFTok_eqb tok FFTok_null)
  then Failed (return_wrapped fs j (Errorf_cannot_unmarshal tok "string"))
  else if FFTok_eqb tok FFTok_null then Handled fs j
  else Handled fs (set_Name j (Output fs)).

(** [append(j.RoleIDs, v)]. *)
Definition append_RoleIDs (r : option (list N)) (v : N) : option (list N) :=
  match r with
  | None => Some [v]
  | Some l => Some (l ++ [v])
  end.

(** The element loop of [handle_RoleIDs].  Each round scans a token, so
    [fuel] above the length of the input is never used up. *)
Fixpoint RoleIDs_loop (fuel : nat) (fs : FFLexer) (j : Emoji) (wantVal : bool)
  : handled :=
  match fuel with
  | O => Failed (tokerror fs j)
  | S fuel' =>
    let tmpJRoleIDs : N := 0 in
    let '(tok, fs1) := Scan fs in
    if FFTok_eqb tok FFTok_error then Failed (tokerror fs1 j)
    else if FFTok_eqb tok FFTok_right_brace then Handled fs1 j
    else if FFTok_eqb tok FFTok_comma then
      if Bool.eqb wantVal true
      then Failed (return_wrapped fs1 j (Errorf_wanted_value tok))
      else RoleIDs_loop fuel' fs1 j wantVal
    else
      if FFTok_eqb tok FFTok_null then
        RoleIDs_loop fuel' fs1
          (set_RoleIDs j (append_RoleIDs (RoleIDs j) tmpJRoleIDs)) false
      else
        let '(fs2, tbuf, err) := CaptureField fs1 tok in
        match err with
        | Some e => Failed (return_wrapped fs2 j e)
        | None =>
          let '(v, err) := RoleID_UnmarshalJSON tmpJRoleIDs tbuf in
          match err with
          | Some e => Failed (return_wrapped fs2 j e)
          | None =>
            RoleIDs_loop fuel' fs2
              (set_RoleIDs j (append_RoleIDs (RoleIDs j) v)) false
          end
        end
  end.

Definition handle_RoleIDs (fs : FFLexer) (j : Emoji) (tok : FFTok)
  : handled :=
  if negb (FFTok_eqb tok FFTok_left_brace) && negb (FFTok_eqb tok FFTok_null)
  then Failed (return_wrapped fs j (Errorf_cannot_unmarshal tok EmptyString))
  else if FFTok_eqb tok FFTok_null then Handled fs (set_RoleIDs j None)
  else
    RoleIDs_loop (S (List.length (reader fs))) fs
                 (set_RoleIDs j (Some [])) true.

Definition handle_User (fs : FFLexer) (j : Emoji) (tok : FFTok) : handled :=
  if FFTok_eqb tok FFTok_null then Handled fs j
  else
    let '(u, fs1, err) :=
      User_UnmarshalJSONFFLexer (User_ j) fs FFParse_want_key in
    match err with
    | Some e => Failed (set_User j u, fs1, Return (Some e))
    | None => Handled fs1 (set_User j u)
    end.

(** The four boolean handlers are the same block over their field;
    [set] is the assignment to it. *)
Definition handle_bool (set : Emoji -> bool -> Emoji)
    (fs : FFLexer) (j : Emoji) (tok : FFTok) : handled :=
  if negb (FFTok_eqb tok FFTok_bool) && negb (FFTok_eqb tok FFTok_null)
  then Failed (return_wrapped fs j (Errorf_cannot_unmarshal tok "bool"))
  else if FFTok_eqb tok FFTok_null then Handled fs j
  else
    let tmpb := Output fs in
    if bytes_Equal (B "true") tmpb then Handled fs (set j true)
    else if bytes_Equal (B "false") tmpb then Handled fs (set j false)
    else Failed (return_wrapped fs j errors_New_true_false).

Definition handle_RequireColons := handle_bool set_RequireColons.
Definition handle_Managed := handle_bool set_Managed.
Definition handle_Animated := handle_bool set_Animated.
Definition handle_Available := handle_bool set_Available.

(** The [case ffjtEmojinosuchkey] of the want-value state. *)
Definition handle_nosuchkey (fs : FFLexer) (j : Emoji) (tok : FFTok)
  : handled :=
  let '(fs1, err) := SkipField fs tok in
  match err with
  | Some e => Failed (return_wrapped fs1 j e)
  | None => Handled fs1 j
  end.

(** The tokens the want-value state lets through to a handler. *)
Definition value_token (tok : FFTok) : bool :=
  match tok with
  | FFTok_left_brace | FFTok_left_bracket | FFTok_integer | FFTok_double
  | FFTok_string | FFTok_bool | FFTok_null => true
  | _ => false
  end.

(** After a handler: [state = fflib.FFParse_after_value; goto
    mainparse], the key last read still in [currentKey]. *)
Definition after_handler (c : config) (h : handled) : step_result :=
  match h with
  | Handled fs j => Continue (mkConfig fs FFParse_after_value (c_currentKey c) j)
  | Failed e => Exit e
  end.

(** One iteration of [mainparse]: a scan, the [switch state], and the
    handler the switch jumps to. *)
Definition step (c : config) : step_result :=
  let j := c_j c in
  let '(tok, fs) := Scan (c_fs c) in
  if FFTok_eqb tok FFTok_error then Exit (tokerror fs j)
  else
    match c_state c with
    | FFParse_map_start =>
      if negb (FFTok_eqb tok FFTok_left_bracket)
      then Exit (wrongtokenerror fs j FFTok_left_bracket tok)
      else Continue (mkConfig fs FFParse_want_key (c_currentKey c) j)
    | FFParse_after_value =>
      if FFTok_eqb tok FFTok_comma
      then Continue (mkConfig fs FFParse_want_key (c_currentKey c) j)
      else if FFTok_eqb tok FFTok_right_bracket
      then Exit (j, fs, Return None)
      else Exit (wrongtokenerror fs j FFTok_comma tok)
    | FFParse_want_key =>
      if FFTok_eqb tok FFTok_right_bracket then Exit (j, fs, Return None)
      else if negb (FFTok_eqb tok FFTok_string)
      then Exit (wrongtokenerror fs j FFTok_string tok)
      else
        let kn := Output fs in
        Continue (mkConfig fs FFParse_want_colon (currentKey_of kn) j)
    | FFParse_want_colon =>
      if negb (FFTok_eqb tok FFTok_colon)
      then Exit (wrongtokenerror fs j FFTok_colon tok)
      else Continue (mkConfig fs FFParse_want_value (c_currentKey c) j)
    | FFParse_want_value =>
      if value_token tok then
        match c_currentKey c with
        | ffjtEmojiID => after_handler c (handle_ID fs j tok)
        | ffjtEmojiName => after_handler c (handle_Name fs j tok)
        | ffjtEmojiRoleIDs => after_handler c (handle_RoleIDs fs j tok)
        | ffjtEmojiUser => after_handler c (handle_User fs j tok)
        | ffjtEmojiRequireColons =>
          after_handler c (handle_RequireColons fs j tok)
        | ffjtEmojiManaged => after_handler c (handle_Managed fs j tok)
        | ffjtEmojiAnimated => after_handler c (handle_Animated fs j tok)
        | ffjtEmojiAvailable => after_handler c (handle_Available fs j tok)
        | ffjtEmojinosuchkey => after_handler c (handle_nosuchkey fs j tok)
        | ffjtEmojibase =>
          Continue (mkConfig fs FFParse_want_value (c_currentKey c) j)
        end
      else Exit (wantedvalue fs j tok)
    end.

(** [mainparse]: iterations until the call ends.  The nested decoder
    of [User] hands back a lexer of its own making, so the number of
    iterations is bounded from outside; [None] is a bound that was too
    small. *)
Fixpoint mainparse (fuel : nat) (c : config) : option ended :=
  match fuel with
  | O => None
  | S fuel' =>
    match step c with
    | Continue c' => mainparse fuel' c'
    | Exit e => Some e
    end
  end.

(** [func (j *Emoji) UnmarshalJSONFFLexer(fs *fflib.FFLexer,
    state fflib.FFParseState) error]. *)
Definition UnmarshalJSONFFLexer (fuel : nat) (j : Emoji) (fs : FFLexer)
    (state : FFParseState) : option ended :=
  mainparse fuel (mkConfig fs state ffjtEmojibase j).

(** [func (j *Emoji) UnmarshalJSON(input []byte) error]: the receiver
    afterwards and how the call ended. *)
Definition UnmarshalJSON (fuel : nat) (j : Emoji) (input : bytes)
  : option (Emoji * exit) :=
  match UnmarshalJSONFFLexer fuel j (NewFFLexer input) FFParse_map_start with
  | Some (j1, _, e) => Some (j1, e)
  | None => None
  end.

(** *** What the encoder is to write, stated on members

    A JSON object as its list of members, each a key and the bytes of
    its value; the members are separated by commas and no comma follows
    the last one. *)

Definition member (k v : bytes) : bytes := quoted k ++ B ":" ++ v.

Definition json_object (members : list bytes) : bytes :=
  B "{ " ++ join (B ",") members ++ B "}".

(** The encodings of the role identifiers, when none of them fails. *)
Fixpoint marshal_roles (l : list N) : option (list bytes) :=
  match l with
  | [] => Some []
  | v :: l' =>
    match snd (RoleID_MarshalJSON v), marshal_roles l' with
    | None, Some bs => Some (fst (RoleID_MarshalJSON v) :: bs)
    | _, _ => None
    end
  end.

(** A boolean member is present exactly when the field is true. *)
Definition bool_member (k : bytes) (b : bool) : list bytes :=
  if b then [member k (B "true")] else [].

(** The roles member is present exactly when the slice has elements. *)
Definition roles_member (r : option (list N)) (rbs : list bytes)
  : list bytes :=
  match r with
  | Some (_ :: _) => [member (B "roles") (B "[" ++ join (B ",") rbs ++ B "]")]
  | _ => []
  end.

(** The members of an Emoji, in declaration order: [ib], [rbs] and
    [ub] are the encodings of the identifier, of the role identifiers
    and of the user. *)
Definition Emoji_members (j : Emoji) (ib : bytes) (rbs : list bytes)
    (ub : bytes) : list bytes :=
  [member (B "id") ib; member (B "name") (WriteJsonString [] (Name j))]
  ++ roles_member (RoleIDs j) rbs
  ++ [member (B "user") ub]
  ++ bool_member (B "require_colons") (RequireColons j)
  ++ bool_member (B "managed") (Managed j)
  ++ bool_member (B "animated") (Animated j)
  ++ bool_member (B "available") (Available j).

(** The collaborators' encoders succeed on the parts of [j], with
    [ib], [rbs] and [ub] as their output; the user's encoder only
    appends. *)
Definition encodes_parts (j : Emoji) (ib : bytes) (rbs : list bytes)
    (ub : bytes) : Prop :=
  EmojiID_MarshalJSON (ID j) = (ib, None)
  /\ marshal_roles (match RoleIDs j with Some l => l | None => [] end)
     = Some rbs
  /\ forall buf, User_MarshalJSONBuf (User_ j) buf = (buf ++ ub, None).

(** A writer that only appends [out] and does not fail. *)
Definition writes (w : writer) (out : bytes) : Prop :=
  forall buf, w buf = (buf ++ out, None).

(** The boolean fields: the key of each and the assignment its handler
    makes. *)
Definition bool_field (k : ffjtEmoji) : option (Emoji -> bool -> Emoji) :=
  match k with
  | ffjtEmojiRequireColons => Some set_RequireColons
  | ffjtEmojiManaged => Some set_Managed
  | ffjtEmojiAnimated => Some set_Animated
  | ffjtEmojiAvailable => Some set_Available
  | _ => None
  end.

(** [steps n c c']: [n] iterations of [mainparse] lead from [c] to
    [c'], none of them ending the call. *)
Inductive steps : nat -> config -> config -> Prop :=
| steps_O (c : config) : steps O c c
| steps_S (n : nat) (c c1 c2 : config) :
    step c = Continue c1 -> steps n c1 c2 -> steps (S n) c c2.

(** *** JSON values, stated on tokens *)

(** [scans fs toks fs']: successive scans from [fs] yield the tokens
    [toks] and leave the lexer [fs']. *)
Inductive scans : FFLexer -> list FFTok -> FFLexer -> Prop :=
| scans_nil (fs : FFLexer) : scans fs [] fs
| scans_cons (fs fs1 fs2 : FFLexer) (tok : FFTok) (toks : list FFTok) :
    Scan fs = (tok, fs1) -> scans fs1 toks fs2 -> scans fs (tok :: toks) fs2.

Definition scalar_token (tok : FFTok) : bool :=
  match tok with
  | FFTok_string | FFTok_integer | FFTok_double | FFTok_bool | FFTok_null =>
    true
  | _ => false
  end.

(** The token sequences of the JSON values: a scalar, an array of
    values separated by commas, an object of members separated by
    commas, each member a string key, a colon and a value. *)
Inductive json_value : list FFTok -> Prop :=
| jv_scalar (tok : FFTok) :
    scalar_token tok = true -> json_value [tok]
| jv_array_empty : json_value [FFTok_left_brace; FFTok_right_brace]
| jv_array (es : list FFTok) :
    json_elements es ->
    json_value (FFTok_left_brace :: es ++ [FFTok_right_brace])
| jv_object_empty : json_value [FFTok_left_bracket; FFTok_right_bracket]
| jv_object (ms : list FFTok) :
    json_members ms ->
    json_value (FFTok_left_bracket :: ms ++ [FFTok_right_bracket])
with json_elements : list FFTok -> Prop :=
| je_one (v : list FFTok) : json_value v -> json_elements v
| je_more (v es : list FFTok) :
    json_value v -> json_elements es ->
    json_elements (v ++ FFTok_comma :: es)
with json_members : list FFTok -> Prop :=
| jm_one (v : list FFTok) :
    json_value v -> json_members (FFTok_string :: FFTok_colon :: v)
| jm_more (v ms : list FFTok) :
    json_value v -> json_members ms ->
    json_members (FFTok_string :: FFTok_colon :: v ++ FFTok_comma :: ms).

Scheme json_value_min := Minimality for json_value Sort Prop
  with json_elements_min := Minimality for json_elements Sort Prop
  with json_members_min := Minimality for json_members Sort Prop.

Combined Scheme json_mutual_min
  from json_value_min, json_elements_min, json_members_min.

(** The depth counter of [scanField] over a token sequence, as an
    excess of opening over closing brackets of one kind: [None] when a
    closing bracket comes with nothing open. *)
Fixpoint excess (start end_ : FFTok) (e : nat) (toks : list FFTok)
  : option nat :=
  match toks with
  | [] => Some e
  | tok :: toks' =>
    if FFTok_eqb tok end_ then
      match e with
      | O => None
      | S e' => excess start end_ e' toks'
      end
    else if FFTok_eqb tok start then excess start end_ (S e) toks'
    else excess start end_ e toks'
  end.

(** The tokens a JSON value is made of. *)
Definition json_token (tok : FFTok) : bool :=
  match tok with
  | FFTok_eof | FFTok_error | FFTok_init | FFTok_comment => false
  | _ => true
  end.

(** *** What a round trip asks of the parts *)

(** What follows a value the encoder wrote: the comma before the next
    member or element, or a closing bracket. *)
Definition delimited (rest : bytes) : Prop :=
  exists c r, rest = c :: r
              /\ (c = ","%char \/ c = "]"%char \/ c = "}"%char).

(** A key the tokenizer reads back as it is spelled: no quote, no
    backslash, no control character. *)
Definition plain_key (k : bytes) : Prop :=
  Forall (fun c => (code c =? 34) = false /\ (code c =? 92) = false
                   /\ (code c <? 32) = false) k.

(** What [CaptureField] hands over for a scalar token with the
    captured bytes [out]: the bytes of a number, of a boolean or of
    null, and the string written back as a JSON string. *)
Definition captured (tok : FFTok) (out : bytes) : bytes :=
  match tok with
  | FFTok_string => WriteJson [] out
  | _ => out
  end.

(** The bytes [b] an identifier codec wrote for [v] are read back as
    [v] by the field handlers: they are one scalar token, and either
    the token is null and [v] is the zero identifier, which the handler
    leaves in place, or the codec's own [UnmarshalJSON], on a zero
    receiver and the captured bytes, yields [v]. *)
Definition identifier_round_trip
    (unmarshal : N -> bytes -> N * option error) (b : bytes) (v : N)
  : Prop :=
  exists tok out,
    scalar_token tok = true
    /\ (forall rest, delimited rest ->
          scan_token (b ++ rest) = (tok, out, FFErr_e_ok, rest))
    /\ ((tok = FFTok_null /\ v = 0)
        \/ (tok <> FFTok_null
            /\ unmarshal 0 (captured tok out) = (v, None))).


(** The name is read back from the string literal written for it. *)
Definition name_round_trip (name : bytes) : Prop :=
  forall rest,
    scan_token (WriteJsonString [] name ++ rest)
    = (FFTok_string, name, FFErr_e_ok, rest).

(** The bytes [ub] the user's encoder wrote for [u] are read back as
    [u] by the user's decoder started, as [handle_User] starts it, on a
    receiver [u0] in the want-key state behind the first token. *)
Definition user_round_trip (u0 u : User) (ub : bytes) : Prop :=
  forall fs rest,
    reader fs = ub ++ rest -> delimited rest ->
    exists tok fs1 fs2,
      Scan fs = (tok, fs1)
      /\ value_token tok = true /\ tok <> FFTok_null
      /\ User_UnmarshalJSONFFLexer u0 fs1 FFParse_want_key = (u, fs2, None)
      /\ reader fs2 = rest.

(** A member as the decoder sees it: its key, the bytes of its value
    and the field the key stands for. *)
Record item : Type := mkItem {
  it_key : bytes;
  it_val : bytes;
  it_field : ffjtEmoji
}.

Definition render (it : item) : bytes := member (it_key it) (it_val it).

(** In the want-value state under the field [k] and with the receiver
    [j], the bytes [vb] are consumed and the receiver becomes [j']. *)
Definition value_decodes (k : ffjtEmoji) (vb : bytes) (j j' : Emoji) : Prop :=
  forall fs rest,
    reader fs = vb ++ rest -> delimited rest ->
    exists fs',
      step (mkConfig fs FFParse_want_value k j)
      = Continue (mkConfig fs' FFParse_after_value k j')
      /\ reader fs' = rest.

(** [decodes j items j']: each member of [items] has a key the
    tokenizer reads back and that resolves to its field, and reading
    their values one after the other takes the receiver from [j] to
    [j']. *)
Inductive decodes : Emoji -> list item -> Emoji -> Prop :=
| decodes_nil (j : Emoji) : decodes j [] j
| decodes_cons (j j1 j2 : Emoji) (it : item) (items : list item) :
    plain_key (it_key it) ->
    currentKey_of (it_key it) = it_field it ->
    value_decodes (it_field it) (it_val it) j j1 ->
    decodes j1 items j2 ->
    decodes j (it :: items) j2.

(** What a decode of the encoding yields: the Emoji itself, with an
    empty role slice, which the encoder omits, read back as nil. *)
Definition omitted_to_zero (j : Emoji) : Emoji :=
  match RoleIDs j with
  | Some [] => set_RoleIDs j None
  | _ => j
  end.

(** The members of an Emoji as items, as [Emoji_members] lists
    them. *)
Definition Emoji_items (j : Emoji) (ib : bytes) (rbs : list bytes)
    (ub : bytes) : list item :=
  [mkItem (B "id") ib ffjtEmojiID;
   mkItem (B "name") (WriteJsonString [] (Name j)) ffjtEmojiName]
  ++ match RoleIDs j with
     | Some (_ :: _) =>
       [mkItem (B "roles") (B "[" ++ join (B ",") rbs ++ B "]")
               ffjtEmojiRoleIDs]
     | _ => []
     end
  ++ [mkItem (B "user") ub ffjtEmojiUser]
  ++ (if RequireColons j
      then [mkItem (B "require_colons") (B "true") ffjtEmojiRequireColons]
      else [])
  ++ (if Managed j
      then [mkItem (B "managed") (B "true") ffjtEmojiManaged] else [])
  ++ (if Animated j
      then [mkItem (B "animated") (B "true") ffjtEmojiAnimated] else [])
  ++ (if Available j
      then [mkItem (B "available") (B "true") ffjtEmojiAvailable] else []).

(** The receiver of a fresh decode: every field at its zero value,
    [u0] being the zero value of the user. *)
Definition fresh_Emoji (u0 : User) : Emoji :=
  mkEmoji 0 [] None u0 false false false false.

(** The role identifiers of a slice, none for nil. *)
Definition roles_of (r : option (list N)) : list N :=
  match r with
  | Some l => l
  | None => []
  end.

(** *** What is asked of the user's decoder *)

(** The user's decoder reads from the lexer it is given: it hands back
    no more input than it got. *)
Definition User_decoder_consumes : Prop :=
  forall u fs st u' fs' err,
    User_UnmarshalJSONFFLexer u fs st = (u', fs', err) ->
    (List.length (reader fs') <= List.length (reader fs))%nat.

(** *** The field a member may change *)

(** [same_except k j j']: [j'] is [j] but for the field the key [k]
    stands for. *)
Definition same_except (k : ffjtEmoji) (j j' : Emoji) : Prop :=
  (k = ffjtEmojiID \/ ID j' = ID j)
  /\ (k = ffjtEmojiName \/ Name j' = Name j)
  /\ (k = ffjtEmojiRoleIDs \/ RoleIDs j' = RoleIDs j)
  /\ (k = ffjtEmojiUser \/ User_ j' = User_ j)
  /\ (k = ffjtEmojiRequireColons \/ RequireColons j' = RequireColons j)
  /\ (k = ffjtEmojiManaged \/ Managed j' = Managed j)
  /\ (k = ffjtEmojiAnimated \/ Animated j' = Animated j)
  /\ (k = ffjtEmojiAvailable \/ Available j' = Available j).

(** What the caller's Emoji holds after a handler and after an
    iteration, whether the call goes on or ends there. *)
Definition receiver_of (h : handled) : Emoji :=
  match h with
  | Handled _ j => j
  | Failed (j, _, _) => j
  end.

Definition receiver_after (r : step_result) : Emoji :=
  match r with
  | Continue c => c_j c
  | Exit (j, _, _) => j
  end.

(** *** Encoders that fail *)

(** A writer that fails with [e], whatever the buffer holds. *)
Definition fails (w : writer) (e : error) : Prop :=
  forall buf, exists buf1, w buf = (buf1, Some e).

(** *** Decoding over a receiver that is not fresh *)


(** * Properties *)

(** ** Bytes *)

Lemma byte_eqb_eq (a b : ascii) : byte_eqb a b = true <-> a = b.
Proof. apply Ascii.eqb_eq. Qed.

Lemma byte_eqb_refl (a : ascii) : byte_eqb a a = true.
Proof. apply Ascii.eqb_refl. Qed.

Lemma bytes_Equal_eq (a b : bytes) : bytes_Equal a b = true <-> a = b.
Proof.
  revert b; induction a as [|x a IH]; intros [|y b]; simpl;
    try (split; [discriminate | congruence]); try tauto.
  rewrite andb_true_iff, byte_eqb_eq, IH. split.
  - intros [-> ->]; reflexivity.
  - intros H; injection H; auto.
Qed.

Lemma bytes_Equal_refl (a : bytes) : bytes_Equal a a = true.
Proof. apply bytes_Equal_eq; reflexivity. Qed.

Lemma bytes_Equal_neq (a b : bytes) : bytes_Equal a b = false <-> a <> b.
Proof.
  rewrite <- bytes_Equal_eq. destruct (bytes_Equal a b); split;
    congruence.
Qed.


Lemma all_bytes_complete (c : ascii) : In c all_bytes.
Proof.
  unfold all_bytes. rewrite <- (ascii_nat_embedding c).
  apply in_map, in_seq. pose proof (nat_ascii_bounded c). lia.
Qed.

Lemma forall_byte (P : ascii -> bool) :
  forallb P all_bytes = true -> forall c, P c = true.
Proof.
  intros H c. rewrite forallb_forall in H. apply H, all_bytes_complete.
Qed.

Lemma forall_byte2 (P : ascii -> ascii -> bool) :
  forallb (fun a => forallb (P a) all_bytes) all_bytes = true ->
  forall a b, P a b = true.
Proof.
  intros H a b. apply (forall_byte (P a)). apply (forall_byte _ H).
Qed.

Lemma code_inj (a b : ascii) : code a = code b -> a = b.
Proof.
  unfold code. intros H.
  rewrite <- (ascii_N_embedding a), <- (ascii_N_embedding b), H.
  reflexivity.
Qed.

Lemma code_lt_256 (a : ascii) : code a < 256.
Proof. apply N_ascii_bounded. Qed.

(** ** unicode/utf8 *)

Lemma Pos_le_lor (p q : positive) : (p <= Pos.lor p q)%positive.
Proof.
  revert q; induction p as [p IH|p IH|]; intros [q|q|]; simpl;
    try specialize (IH q); lia.
Qed.

Lemma N_le_lor (a b : N) : a <= N.lor a b.
Proof.
  destruct a as [|p], b as [|q]; simpl; try lia.
  pose proof (Pos_le_lor p q). lia.
Qed.

Lemma DecodeRune_ascii (c : ascii) (t : bytes) :
  code c < 128 -> utf8.DecodeRune (c :: t) = (code c, 1%nat).
Proof.
  intros H. unfold utf8.DecodeRune.
  destruct (N.ltb_spec (code c) 128); [reflexivity | lia].
Qed.

(** The lead bytes of the multi-byte forms put a bit at or above the
    eighth position. *)
Lemma lead_high :
  forall c : ascii,
    ((if (194 <=? code c) && (code c <=? 223)
      then 128 <=? N.shiftl (N.land (code c) 31) 6 else true)
     && (if (225 <=? code c) && (code c <=? 239)
         then 128 <=? N.shiftl (N.land (code c) 15) 12 else true)
     && (if (241 <=? code c) && (code c <=? 244)
         then 128 <=? N.shiftl (N.land (code c) 7) 18 else true))%bool
    = true.
Proof. apply forall_byte. vm_compute. reflexivity. Qed.

Lemma cont_high :
  forall b : ascii,
    (if utf8.in_range 160 191 b
     then 128 <=? N.shiftl (N.land (code b) 63) 6 else true)
    && (if utf8.in_range 144 191 b
        then 128 <=? N.shiftl (N.land (code b) 63) 12 else true) = true.
Proof. apply forall_byte. vm_compute. reflexivity. Qed.

Lemma N_le_lor_r (a b : N) : b <= N.lor a b.
Proof. rewrite N.lor_comm. apply N_le_lor. Qed.

Lemma DecodeRune_nonascii (c : ascii) (t : bytes) :
  128 <= code c -> 128 <= fst (utf8.DecodeRune (c :: t)).
Proof.
  intros H. unfold utf8.DecodeRune.
  pose proof (lead_high c) as L.
  apply andb_true_iff in L as [L L4]. apply andb_true_iff in L as [L2 L3].
  destruct (N.ltb_spec (code c) 128) as [?|_]; [lia|].
  destruct ((194 <=? code c) && (code c <=? 223)) eqn:E2.
  { destruct t as [|b1 ?]; [vm_compute; discriminate|].
    destruct (utf8.is_cont b1); [|vm_compute; discriminate].
    simpl fst. apply N.leb_le in L2.
    etransitivity; [exact L2 | apply N_le_lor]. }
  clear L2.
  destruct ((224 <=? code c) && (code c <=? 239)) eqn:E3.
  { destruct t as [|b1 [|b2 ?]]; try (vm_compute; discriminate).
    destruct (negb (utf8.in_range _ _ b1)) eqn:R1; [vm_compute; discriminate|].
    destruct (negb (utf8.is_cont b2)); [vm_compute; discriminate|].
    simpl fst. apply negb_false_iff in R1.
    destruct (N.eqb_spec (code c) 224) as [E|E].
    - pose proof (cont_high b1) as C. apply andb_true_iff in C as [C _].
      destruct (code c =? 237) eqn:E'; [apply N.eqb_eq in E'; lia|].
      rewrite R1 in C. apply N.leb_le in C.
      etransitivity; [exact C|].
      etransitivity; [apply N_le_lor | apply N_le_lor_r].
    - apply andb_true_iff in E3 as [A1 A2].
      apply N.leb_le in A1, A2.
      replace ((225 <=? code c) && (code c <=? 239)) with true in L3
        by (symmetry; apply andb_true_iff; split; apply N.leb_le; lia).
      apply N.leb_le in L3.
      etransitivity; [exact L3 | apply N_le_lor]. }
  clear L3.
  destruct ((240 <=? code c) && (code c <=? 244)) eqn:E4;
    [|vm_compute; discriminate].
  destruct t as [|b1 [|b2 [|b3 ?]]]; try (vm_compute; discriminate).
  destruct (negb (utf8.in_range _ _ b1)) eqn:R1; [vm_compute; discriminate|].
  destruct (negb (utf8.is_cont b2)); [vm_compute; discriminate|].
  destruct (negb (utf8.is_cont b3)); [vm_compute; discriminate|].
  simpl fst. apply negb_false_iff in R1.
  destruct (N.eqb_spec (code c) 240) as [E|E].
  - pose proof (cont_high b1) as C. apply andb_true_iff in C as [_ C].
    destruct (code c =? 244) eqn:E'; [apply N.eqb_eq in E'; lia|].
    rewrite R1 in C. apply N.leb_le in C.
    etransitivity; [exact C|].
    etransitivity; [apply N_le_lor | apply N_le_lor_r].
  - apply andb_true_iff in E4 as [A1 A2].
    apply N.leb_le in A1, A2.
    replace ((241 <=? code c) && (code c <=? 244)) with true in L4
      by (symmetry; apply andb_true_iff; split; apply N.leb_le; lia).
    apply N.leb_le in L4.
    etransitivity; [exact L4 | apply N_le_lor].
Qed.

(** ** The folding helpers meet case-insensitive equality *)

Lemma fold_step_ascii :
  forall sb tb : ascii,
    implb ((code sb <? 128) && (code tb <? 128))
      (Bool.eqb
         (if negb (byte_eqb sb tb) then
            let u := N.land (code sb) fflib_fold.caseMask in
            if (65 <=? u) && (u <=? 90)
            then negb (negb (u =? N.land (code tb) fflib_fold.caseMask))
            else false
          else true)
         (fold_rune (code tb) =? fold_rune (code sb))) = true.
Proof. apply forall_byte2. vm_compute. reflexivity. Qed.

Lemma fold_rune_ascii :
  forall sb : ascii,
    implb (code sb <? 128)
      ((fold_rune (code sb) <? 128)
       && Bool.eqb (fold_rune (code sb) =? 115)
                   ((code sb =? 115) || (code sb =? 83))
       && Bool.eqb (fold_rune (code sb) =? 107)
                   ((code sb =? 107) || (code sb =? 75))) = true.
Proof. apply forall_byte. vm_compute. reflexivity. Qed.

Lemma fold_rune_high (r : N) :
  128 <= r ->
  (r = fflib_fold.smallLongEss /\ fold_rune r = 115)
  \/ (r = fflib_fold.kelvin /\ fold_rune r = 107)
  \/ (r <> fflib_fold.smallLongEss /\ r <> fflib_fold.kelvin
      /\ fold_rune r = r).
Proof.
  intros H. unfold fold_rune, fflib_fold.smallLongEss, fflib_fold.kelvin.
  destruct (N.leb_spec 65 r), (N.leb_spec r 90); simpl; try lia;
    destruct (N.eqb_spec r 383); try (left; split; [assumption|reflexivity]);
    destruct (N.eqb_spec r 8490); try (right; left; split; [assumption|reflexivity]);
    right; right; auto.
Qed.

Lemma fold_equal_nil_l (t : bytes) : fold_equal [] t <-> t = [].
Proof.
  split; [inversion 1; reflexivity | intros ->; constructor].
Qed.

Lemma fold_equal_cons_iff (c : ascii) (k t : bytes) :
  fold_equal (c :: k) t <->
  t <> [] /\ fold_rune (fst (utf8.DecodeRune t)) = fold_rune (code c)
  /\ fold_equal k (skipn (snd (utf8.DecodeRune t)) t).
Proof.
  split.
  - inversion 1; subst; auto.
  - intros (H1 & H2 & H3). constructor; assumption.
Qed.

Lemma EqualFoldRight_spec (s : bytes) :
  Forall (fun c => code c < 128) s ->
  forall t, fflib_fold.EqualFoldRight s t = true <-> fold_equal s t.
Proof.
  induction 1 as [|sb s Hsb Hs IH]; intros t.
  - rewrite fold_equal_nil_l. destruct t; simpl; split; congruence.
  - rewrite fold_equal_cons_iff. destruct t as [|tb t'].
    + simpl. split; [discriminate | intros [[] _]; reflexivity].
    + cbn [fflib_fold.EqualFoldRight]. unfold utf8.RuneSelf.
      pose proof (fold_rune_ascii sb) as A.
      replace (code sb <? 128) with true in A by (symmetry; apply N.ltb_lt; exact Hsb).
      cbn [implb] in A.
      apply andb_true_iff in A as [A A3]. apply andb_true_iff in A as [A1 A2].
      apply N.ltb_lt in A1. apply Bool.eqb_prop in A2, A3.
      destruct (N.ltb_spec (code tb) 128) as [Htb|Htb].
      * rewrite (DecodeRune_ascii tb t' Htb). cbn [fst snd skipn].
        pose proof (fold_step_ascii sb tb) as F.
        replace ((code sb <? 128) && (code tb <? 128)) with true in F
          by (symmetry; apply andb_true_iff; split; apply N.ltb_lt; assumption).
        cbn [implb] in F. apply Bool.eqb_prop in F. cbv zeta in F.
        destruct (negb (byte_eqb sb tb)).
        -- destruct ((65 <=? N.land (code sb) fflib_fold.caseMask)
                     && (N.land (code sb) fflib_fold.caseMask <=? 90)).
           ++ destruct (N.land (code sb) fflib_fold.caseMask
                        =? N.land (code tb) fflib_fold.caseMask);
                cbn [negb] in *; symmetry in F.
              ** apply N.eqb_eq in F. rewrite IH.
                 split; [intros; repeat split; auto; discriminate | tauto].
              ** apply N.eqb_neq in F.
                 split; [discriminate | intros (_ & ? & _); contradiction].
           ++ symmetry in F. apply N.eqb_neq in F.
              split; [discriminate | intros (_ & ? & _); contradiction].
        -- symmetry in F. apply N.eqb_eq in F. rewrite IH.
           split; [intros; repeat split; auto; discriminate | tauto].
      * pose proof (DecodeRune_nonascii tb t' Htb) as D.
        destruct (utf8.DecodeRune (tb :: t')) as [tr size]. cbn [fst snd] in *.
        destruct (fold_rune_high tr D) as [[-> F]|[[-> F]|(N1 & N2 & F)]];
          rewrite F.
        -- destruct ((code sb =? 115) || (code sb =? 83)).
           ++ apply N.eqb_eq in A2. cbn. rewrite IH.
              split; [intros; repeat split; auto; discriminate | tauto].
           ++ apply N.eqb_neq in A2.
              destruct ((code sb =? 107) || (code sb =? 75)); cbn;
                (split; [discriminate | intros (_ & ? & _); congruence]).
        -- destruct ((code sb =? 115) || (code sb =? 83)).
           ++ apply N.eqb_eq in A2. cbn.
              split; [discriminate | intros (_ & ? & _); congruence].
           ++ destruct ((code sb =? 107) || (code sb =? 75)).
              ** apply N.eqb_eq in A3. cbn. rewrite IH.
                 split; [intros; repeat split; auto; discriminate | tauto].
              ** apply N.eqb_neq in A3.
                 split; [discriminate | intros (_ & ? & _); congruence].
        -- assert (tr <> fold_rune (code sb)) by lia.
           destruct ((code sb =? 115) || (code sb =? 83)).
           ++ destruct (N.eqb_spec tr fflib_fold.smallLongEss); [contradiction|].
              cbn. split; [discriminate | intros (_ & ? & _); congruence].
           ++ destruct ((code sb =? 107) || (code sb =? 75)).
              ** destruct (N.eqb_spec tr fflib_fold.kelvin); [contradiction|].
                 cbn. split; [discriminate | intros (_ & ? & _); congruence].
              ** split; [discriminate | intros (_ & ? & _); congruence].
Qed.

Lemma fold_step_simple :
  forall sb tb : ascii,
    implb (simple_letter sb)
      (Bool.eqb
         (N.land (code sb) fflib_fold.caseMask
          =? N.land (code tb) fflib_fold.caseMask)
         ((code tb <? 128)
          && (fold_rune (code tb) =? fold_rune (code sb)))) = true.
Proof. apply forall_byte2. vm_compute. reflexivity. Qed.

Lemma fold_rune_simple :
  forall sb : ascii,
    implb (simple_letter sb)
      ((fold_rune (code sb) <? 128)
       && negb (fold_rune (code sb) =? 115)
       && negb (fold_rune (code sb) =? 107)) = true.
Proof. apply forall_byte. vm_compute. reflexivity. Qed.

Lemma SimpleLetterEqualFold_loop_spec (s : bytes) :
  Forall (fun c => simple_letter c = true) s ->
  forall t,
    (List.length s = List.length t
     /\ fflib_fold.SimpleLetterEqualFold_loop s t = true)
    <-> fold_equal s t.
Proof.
  induction 1 as [|sb s Hsb Hs IH]; intros t.
  - rewrite fold_equal_nil_l. destruct t; simpl; split;
      try tauto; try (intros [? _]; discriminate); discriminate.
  - rewrite fold_equal_cons_iff. destruct t as [|tb t'].
    + simpl. split; [intros [? _]; discriminate | intros [[] _]; reflexivity].
    + cbn [fflib_fold.SimpleLetterEqualFold_loop List.length].
      pose proof (fold_step_simple sb tb) as F.
      pose proof (fold_rune_simple sb) as A.
      rewrite Hsb in F, A. cbn [implb] in F, A.
      apply Bool.eqb_prop in F.
      apply andb_true_iff in A as [A A3]. apply andb_true_iff in A as [A1 A2].
      apply N.ltb_lt in A1. apply negb_true_iff, N.eqb_neq in A2, A3.
      rewrite F.
      destruct (N.ltb_spec (code tb) 128) as [Htb|Htb]; cbn [andb].
      * rewrite (DecodeRune_ascii tb t' Htb). cbn [fst snd skipn].
        destruct (N.eqb_spec (fold_rune (code tb)) (fold_rune (code sb)))
          as [E|E].
        -- rewrite <- IH. split.
           ++ intros [L ?]. injection L as L. repeat split; auto. discriminate.
           ++ intros (_ & _ & L & ?). split; [f_equal|]; assumption.
        -- split; [intros [_ ?]; discriminate
                  | intros (_ & ? & _); contradiction].
      * pose proof (DecodeRune_nonascii tb t' Htb) as D.
        destruct (utf8.DecodeRune (tb :: t')) as [tr size]. cbn [fst snd] in *.
        split; [intros [_ ?]; discriminate|].
        intros (_ & E & _). exfalso.
        destruct (fold_rune_high tr D) as [[-> F']|[[-> F']|(N1 & N2 & F')]];
          rewrite F' in E; try congruence. lia.
Qed.

Lemma SimpleLetterEqualFold_spec (s t : bytes) :
  Forall (fun c => simple_letter c = true) s ->
  fflib_fold.SimpleLetterEqualFold s t = true <-> fold_equal s t.
Proof.
  intros Hs. rewrite <- (SimpleLetterEqualFold_loop_spec s Hs t).
  unfold fflib_fold.SimpleLetterEqualFold.
  destruct (Nat.eqb_spec (List.length s) (List.length t)); cbn [negb].
  - tauto.
  - split; [discriminate | tauto].
Qed.

(** A key of folded bytes is determined by any input it is
    fold-equal to. *)
Lemma fold_equal_functional (k1 k2 t : bytes) :
  Forall (fun c => folded_byte c = true) k1 ->
  Forall (fun c => folded_byte c = true) k2 ->
  fold_equal k1 t -> fold_equal k2 t -> k1 = k2.
Proof.
  intros F1 F2 H1. revert k2 F2.
  induction H1 as [|c k t Ht Hc Hk IH]; intros k2 F2 H2.
  - inversion H2; subst; [reflexivity | congruence].
  - inversion H2 as [|c' k' t' _ Hc' Hk']; subst; [congruence|].
    inversion F1; inversion F2; subst.
    f_equal; [|apply IH; assumption].
    apply code_inj.
    assert (U : forall x, folded_byte x = true -> fold_rune (code x) = code x).
    { intros x. generalize x.
      assert (G : forall y, implb (folded_byte y)
                              (fold_rune (code y) =? code y) = true)
        by (apply forall_byte; vm_compute; reflexivity).
      intros y Hy. specialize (G y). rewrite Hy in G. apply N.eqb_eq, G. }
    rewrite <- (U c), <- (U c') by assumption. congruence.
Qed.

(** ** The key matcher of the want-key state *)

Ltac forall_bytes_by_computation :=
  repeat (constructor; [vm_compute; reflexivity|]); constructor.

Lemma wire_keys_folded (k : bytes) (f : ffjtEmoji) :
  In (k, f) wire_keys -> Forall (fun c => folded_byte c = true) k.
Proof.
  unfold wire_keys; simpl.
  intros H; repeat (destruct H as [H|H]; [injection H as <- <-|]);
    try contradiction; forall_bytes_by_computation.
Qed.

Lemma wire_keys_functional (k : bytes) (f f' : ffjtEmoji) :
  In (k, f) wire_keys -> In (k, f') wire_keys -> f = f'.
Proof.
  unfold wire_keys; simpl.
  intros H H'.
  repeat (destruct H as [H|H]; [injection H as <- <-|]); try contradiction;
    repeat (destruct H' as [H'|H']; [try discriminate H'|]);
    try contradiction; try (injection H' as <-; reflexivity).
Qed.

Lemma exact_switch_Some (kn : bytes) (f : ffjtEmoji) :
  exact_switch kn = Some f -> In (kn, f) wire_keys.
Proof.
  unfold exact_switch. destruct kn as [|c kn']; [discriminate|].
  repeat match goal with
         | |- context [if byte_eqb ?a ?b then _ else _] =>
           destruct (byte_eqb a b)
         end;
    repeat match goal with
           | |- context [bytes_Equal ?K ?X] =>
             destruct (bytes_Equal K X) eqn:?E
           end;
    intros H; try discriminate H; injection H as <-;
    match goal with
    | E : bytes_Equal ?K _ = true |- _ =>
      apply bytes_Equal_eq in E; rewrite <- E;
      unfold wire_keys; simpl; tauto
    end.
Qed.

Lemma exact_switch_exact (k : bytes) (f : ffjtEmoji) :
  In (k, f) wire_keys -> exact_switch k = Some f.
Proof.
  unfold wire_keys; simpl.
  intros H; repeat (destruct H as [H|H]; [injection H as <- <-|]);
    try contradiction; vm_compute; reflexivity.
Qed.

Lemma exact_switch_None (kn : bytes) :
  exact_switch kn = None <->
  (forall k f, In (k, f) wire_keys -> kn <> k).
Proof.
  split.
  - intros H k f Hin ->. rewrite (exact_switch_exact k f Hin) in H.
    discriminate.
  - intros H. destruct (exact_switch kn) as [f|] eqn:E; [|reflexivity].
    apply exact_switch_Some in E. exfalso. exact (H kn f E eq_refl).
Qed.

(** Each test of the folding chain decides fold-equality with its key. *)
Lemma fold_chain_spec (kn : bytes) :
  match fold_chain kn with
  | ffjtEmojinosuchkey =>
    forall k f, In (k, f) wire_keys -> ~ fold_equal k kn
  | f => exists k, In (k, f) wire_keys /\ fold_equal k kn
  end.
Proof.
  unfold fold_chain.
  repeat match goal with
  | |- context [if fflib_fold.SimpleLetterEqualFold ?K kn then _ else _] =>
    let E := fresh "E" in
    destruct (fflib_fold.SimpleLetterEqualFold K kn) eqn:E;
    [apply SimpleLetterEqualFold_spec in E;
     [exists K; split; [unfold wire_keys; simpl; tauto | exact E]
     | forall_bytes_by_computation]
    | assert (~ fold_equal K kn)
        by (rewrite <- SimpleLetterEqualFold_spec;
            [congruence | forall_bytes_by_computation]); clear E ]
  | |- context [if fflib_fold.EqualFoldRight ?K kn then _ else _] =>
    let E := fresh "E" in
    destruct (fflib_fold.EqualFoldRight K kn) eqn:E;
    [apply EqualFoldRight_spec in E;
     [exists K; split; [unfold wire_keys; simpl; tauto | exact E]
     | forall_bytes_by_computation]
    | assert (~ fold_equal K kn)
        by (rewrite <- EqualFoldRight_spec;
            [congruence | forall_bytes_by_computation]); clear E ]
  end.
  unfold wire_keys; simpl. intros k f Hin.
  repeat (destruct Hin as [Hin|Hin]; [injection Hin as <- <-; assumption|]).
  contradiction.
Qed.

Lemma fold_equal_wire_key (k : bytes) (f : ffjtEmoji) :
  In (k, f) wire_keys -> fold_equal k k.
Proof.
  intros H. apply EqualFoldRight_spec.
  - revert H. unfold wire_keys; simpl.
    intros H; repeat (destruct H as [H|H]; [injection H as <- <-|]);
      try contradiction; forall_bytes_by_computation.
  - revert H. unfold wire_keys; simpl.
    intros H; repeat (destruct H as [H|H]; [injection H as <- <-|]);
      try contradiction; vm_compute; reflexivity.
Qed.

Lemma currentKey_of_fold (kn k : bytes) (f : ffjtEmoji) :
  In (k, f) wire_keys -> fold_equal k kn -> currentKey_of kn = f.
Proof.
  intros Hin Hfold. unfold currentKey_of.
  assert (kn <> []) as Hne.
  { intros ->. inversion Hfold; subst; try congruence.
    revert Hin. unfold wire_keys; simpl. intuition discriminate. }
  destruct kn as [|c kn']; [congruence|]. cbn [List.length Nat.leb].
  set (kn := c :: kn') in *.
  assert (D : forall k' f', In (k', f') wire_keys -> fold_equal k' kn -> f' = f).
  { intros k' f' Hin' Hfold'.
    assert (k' = k) as ->
      by (eapply fold_equal_functional; eauto using wire_keys_folded).
    eapply wire_keys_functional; eauto. }
  destruct (exact_switch kn) as [f'|] eqn:E.
  - apply exact_switch_Some in E. apply (D kn f' E).
    eapply fold_equal_wire_key; eauto.
  - pose proof (fold_chain_spec kn) as C.
    destruct (fold_chain kn);
      try (destruct C as (k' & Hin' & Hfold'); eapply D; eauto; fail).
    exfalso. exact (C k f Hin Hfold).
Qed.

(** C3.  The want-key state resolves an incoming key in three tiers.
    (a) A key equal byte for byte to a wire key is taken by the exact
    comparisons of the first-byte switch, and yields that key's field.
    (b) A key equal to no wire key reaches the folding chain, and every
    wire key it equals up to case folding yields that key's field.
    (c) A key equal to no wire key even up to case folding is the
    unknown key [ffjtEmojinosuchkey], which the want-value state
    skips. *)
Theorem currentKey_of_tiers (kn : bytes) :
  (forall k f, In (k, f) wire_keys -> kn = k ->
     exact_switch kn = Some f /\ currentKey_of kn = f)
  /\ ((forall k f, In (k, f) wire_keys -> kn <> k) ->
      exact_switch kn = None
      /\ forall k f, In (k, f) wire_keys -> fold_equal k kn ->
           currentKey_of kn = f)
  /\ ((forall k f, In (k, f) wire_keys -> ~ fold_equal k kn) ->
      exact_switch kn = None /\ currentKey_of kn = ffjtEmojinosuchkey).
Proof.
  split; [|split].
  - intros k f Hin ->. split.
    + apply exact_switch_exact; assumption.
    + eapply currentKey_of_fold; eauto using fold_equal_wire_key.
  - intros Hne. split.
    + apply exact_switch_None; assumption.
    + intros k f Hin Hfold. eapply currentKey_of_fold; eauto.
  - intros Hno.
    assert (exact_switch kn = None) as E.
    { apply exact_switch_None. intros k f Hin ->.
      exact (Hno k f Hin (fold_equal_wire_key k f Hin)). }
    split; [exact E|].
    unfold currentKey_of. rewrite E.
    destruct (List.length kn <=? 0)%nat; [reflexivity|].
    pose proof (fold_chain_spec kn) as C.
    destruct (fold_chain kn); try reflexivity;
      destruct C as (k & Hin & Hfold); exfalso; exact (Hno k _ Hin Hfold).
Qed.

(** ** The encoder *)

Lemma Buffer_Rewind_last (buf : Buffer) (c : ascii) :
  Buffer_Rewind (buf ++ [c]) 1 = buf.
Proof.
  unfold Buffer_Rewind. rewrite length_app. simpl.
  replace (List.length buf + 1 - 1)%nat with (List.length buf) by lia.
  rewrite firstn_app, firstn_all, Nat.sub_diag. simpl.
  apply app_nil_r.
Qed.

Lemma andThen_ok (a b : writer) (buf buf1 : Buffer) :
  a buf = (buf1, None) -> (a ;; b) buf = b buf1.
Proof. unfold andThen. intros ->. reflexivity. Qed.

Lemma andThen_assoc (a b c : writer) (buf : Buffer) :
  ((a ;; b) ;; c) buf = (a ;; (b ;; c)) buf.
Proof.
  unfold andThen. destruct (a buf) as [buf1 [e|]]; reflexivity.
Qed.

Lemma join_cons (sep x : bytes) (l : list bytes) :
  join sep (x :: l) = x ++ concat (map (app sep) l).
Proof.
  revert x; induction l as [|y l IH]; intros x.
  - simpl. symmetry; apply app_nil_r.
  - change (join sep (x :: y :: l)) with (x ++ sep ++ join sep (y :: l)).
    rewrite IH. cbn [map concat]. rewrite <- app_assoc. reflexivity.
Qed.

Lemma concat_sep_join (sep : bytes) (ms : list bytes) :
  ms <> [] ->
  concat (map (fun m => m ++ sep) ms) = join sep ms ++ sep.
Proof.
  induction ms as [|x ms IH]; [congruence|]. intros _.
  destruct ms as [|y ms].
  - simpl. rewrite app_nil_r. reflexivity.
  - change (join sep (x :: y :: ms)) with (x ++ sep ++ join sep (y :: ms)).
    cbn [map concat] in *. rewrite IH by discriminate.
    repeat rewrite <- app_assoc. reflexivity.
Qed.

Lemma writes_WriteString (s : bytes) : writes (WriteString s) s.
Proof. intros buf. reflexivity. Qed.

Lemma writes_WriteByte (c : ascii) : writes (WriteByte c) [c].
Proof. intros buf. reflexivity. Qed.

Lemma writes_skip : writes skip [].
Proof. intros buf. unfold skip. rewrite app_nil_r. reflexivity. Qed.

Lemma writes_andThen (a b : writer) (x y : bytes) :
  writes a x -> writes b y -> writes (a ;; b) (x ++ y).
Proof.
  intros Ha Hb buf. unfold andThen. rewrite Ha, Hb, app_assoc. reflexivity.
Qed.

Lemma writes_WriteMarshaled (r : bytes * option error) (b : bytes) :
  r = (b, None) -> writes (WriteMarshaled r) b.
Proof. intros -> buf. reflexivity. Qed.

Lemma WriteJson_app (buf s : bytes) : WriteJson buf s = buf ++ WriteJson [] s.
Proof.
  unfold WriteJson, Buffer_WriteByte, Buffer_Write.
  cbn [app]. repeat rewrite <- app_assoc. reflexivity.
Qed.

Lemma writes_WriteJsonString (s : bytes) :
  writes (fun buf => (WriteJsonString buf s, None)) (WriteJsonString [] s).
Proof. intros buf. unfold WriteJsonString. rewrite WriteJson_app. reflexivity. Qed.

Lemma andThen_writes (a : writer) (x : bytes) :
  writes a x -> forall (k : writer) (buf : Buffer), (a ;; k) buf = k (buf ++ x).
Proof. intros H k buf. unfold andThen. rewrite H. reflexivity. Qed.

Lemma write_RoleIDs_tail (l : list N) (rbs : list bytes) :
  marshal_roles l = Some rbs ->
  forall i, i <> O ->
    writes (write_RoleIDs i l) (concat (map (app (B ",")) rbs)).
Proof.
  revert rbs; induction l as [|v l IH]; intros rbs H i Hi.
  - injection H as <-. apply writes_skip.
  - simpl in H.
    destruct (RoleID_MarshalJSON v) as [rb [e|]] eqn:E; [discriminate|].
    simpl in H. destruct (marshal_roles l) as [bs|] eqn:E'; [|discriminate].
    injection H as <-.
    cbn [write_RoleIDs]. destruct (Nat.eqb_spec i 0) as [?|_]; [contradiction|].
    cbn [negb map concat].
    replace ((B "," ++ rb) ++ concat (map (app (B ",")) bs))
      with (B "," ++ rb ++ concat (map (app (B ",")) bs))
      by (rewrite <- app_assoc; reflexivity).
    apply writes_andThen; [apply writes_WriteString|].
    apply writes_andThen; [apply writes_WriteMarshaled; exact E|].
    apply IH; [reflexivity | discriminate].
Qed.

Lemma write_RoleIDs_form (l : list N) (rbs : list bytes) :
  marshal_roles l = Some rbs ->
  writes (write_RoleIDs 0 l) (join (B ",") rbs).
Proof.
  destruct l as [|v l]; intros H.
  - injection H as <-. apply writes_skip.
  - simpl in H.
    destruct (RoleID_MarshalJSON v) as [rb [e|]] eqn:E; [discriminate|].
    simpl in H. destruct (marshal_roles l) as [bs|] eqn:E'; [|discriminate].
    injection H as <-.
    cbn [write_RoleIDs Nat.eqb negb]. rewrite join_cons.
    change (rb ++ concat (map (app (B ",")) bs))
      with ([] ++ rb ++ concat (map (app (B ",")) bs)).
    apply writes_andThen; [apply writes_skip|].
    apply writes_andThen; [apply writes_WriteMarshaled; exact E|].
    apply write_RoleIDs_tail; [exact E' | discriminate].
Qed.

(** The roles block writes the roles member and its comma, or
    nothing. *)
Lemma writes_roles (r : option (list N)) (rbs : list bytes) :
  marshal_roles (match r with Some l => l | None => [] end) = Some rbs ->
  writes
    (if negb (Nat.eqb (len_RoleIDs r) 0)
     then WriteString (quoted (B "roles") ++ B ":") ;;
          match r with
          | Some l =>
            WriteString (B "[") ;; write_RoleIDs 0 l ;; WriteString (B "]")
          | None => WriteString (B "null")
          end ;;
          WriteByte ","
     else skip)
    (concat (map (fun m => m ++ B ",") (roles_member r rbs))).
Proof.
  intros H.
  destruct r as [[|v l]|]; cbn [len_RoleIDs List.length Nat.eqb negb];
    try apply writes_skip.
  cbn [roles_member map concat]. unfold member.
  replace (((quoted (B "roles") ++ B ":" ++ B "[" ++ join (B ",") rbs ++ B "]")
            ++ B ",") ++ [])
    with ((quoted (B "roles") ++ B ":")
          ++ (B "[" ++ join (B ",") rbs ++ B "]") ++ [","%char])
    by (rewrite app_nil_r; repeat rewrite <- app_assoc; reflexivity).
  apply writes_andThen; [apply writes_WriteString|].
  apply writes_andThen; [|apply writes_WriteByte].
  apply writes_andThen; [apply writes_WriteString|].
  apply writes_andThen; [|apply writes_WriteString].
  apply write_RoleIDs_form. exact H.
Qed.

(** A boolean block writes its member and the comma when the field is
    true, and nothing when it is false. *)
Lemma writes_bool (k : bytes) (v : bool) :
  writes
    (if negb (Bool.eqb v false)
     then (if v then WriteString (quoted k ++ B ":true")
           else WriteString (quoted k ++ B ":false")) ;; WriteByte ","
     else skip)
    (concat (map (fun m => m ++ B ",") (bool_member k v))).
Proof.
  destruct v; cbn [Bool.eqb negb bool_member map concat].
  - unfold member. rewrite app_nil_r.
    replace ((quoted k ++ B ":" ++ B "true") ++ B ",")
      with ((quoted k ++ B ":true") ++ [","%char])
      by (repeat rewrite <- app_assoc; reflexivity).
    apply writes_andThen; [apply writes_WriteString | apply writes_WriteByte].
  - apply writes_skip.
Qed.

(** The encoder of a receiver that is not nil writes the members of
    the entity as one object: every member is written with a comma
    after it, and the rewind takes the last comma back. *)
Lemma MarshalJSONBuf_fields_form (j : Emoji) (ib : bytes) (rbs : list bytes)
    (ub : bytes) :
  encodes_parts j ib rbs ub ->
  writes (MarshalJSONBuf_fields j) (json_object (Emoji_members j ib rbs ub)).
Proof.
  intros (Hid & Hr & Hu) buf.
  unfold MarshalJSONBuf_fields.
  rewrite (andThen_writes _ _ (writes_WriteString _)).
  rewrite (andThen_writes _ _ (writes_WriteMarshaled _ _ Hid)).
  rewrite (andThen_writes _ _ (writes_WriteString _)).
  rewrite (andThen_writes _ _ (writes_WriteJsonString _)).
  rewrite (andThen_writes _ _ (writes_WriteByte _)).
  rewrite (andThen_writes _ _ (writes_roles _ _ Hr)).
  rewrite (andThen_writes _ _
             (writes_andThen _ _ _ _ (writes_WriteString _)
                (writes_andThen _ _ _ _ Hu (writes_WriteByte _)))).
  rewrite (andThen_writes _ _ (writes_bool _ _)).
  rewrite (andThen_writes _ _ (writes_bool _ _)).
  rewrite (andThen_writes _ _ (writes_bool _ _)).
  rewrite (andThen_writes _ _ (writes_bool _ _)).
  unfold andThen, Rewind, WriteByte, Buffer_WriteByte.
  set (sep := fun m : list ascii => m ++ B ",").
  match goal with
  | |- (Buffer_Rewind ?X 1 ++ _, _) = _ =>
    replace X with
      ((buf ++ B "{ " ++ join (B ",") (Emoji_members j ib rbs ub)) ++ [","%char])
  end.
  - rewrite Buffer_Rewind_last. unfold json_object.
    repeat rewrite <- app_assoc. reflexivity.
  - change [","%char] with (B ",").
    rewrite <- (app_assoc buf), <- (app_assoc (B "{ ")).
    rewrite <- concat_sep_join by (unfold Emoji_members; discriminate).
    unfold Emoji_members. fold sep.
    repeat rewrite map_app. repeat rewrite concat_app.
    cbn [map concat]. unfold sep, member.
    repeat rewrite <- app_assoc. reflexivity.
Qed.

(** C8.  Encoding a nil pointer writes the four bytes [null] and
    returns no error, whatever the collaborators do: no field is
    written.  Encoding a receiver that is not nil, when the
    collaborators' encoders succeed, writes exactly one JSON object, the
    members of the entity between one opening and one closing
    bracket. *)
Theorem MarshalJSON_nil_or_one_object :
  MarshalJSON None = (Some (B "null"), None)
  /\ writes (MarshalJSONBuf None) (B "null")
  /\ forall j ib rbs ub,
       encodes_parts j ib rbs ub ->
       MarshalJSON (Some j)
       = (Some (json_object (Emoji_members j ib rbs ub)), None)
       /\ writes (MarshalJSONBuf (Some j))
                 (json_object (Emoji_members j ib rbs ub)).
Proof.
  split; [reflexivity|]. split; [intros buf; reflexivity|].
  intros j ib rbs ub H.
  pose proof (MarshalJSONBuf_fields_form j ib rbs ub H) as W.
  split; [|exact W].
  unfold MarshalJSON, MarshalJSONBuf. rewrite W. reflexivity.
Qed.

(** C5.  When the encoders of the collaborators succeed: an Emoji
    whose four booleans are false is written without the
    [require_colons], [managed], [animated] and [available] members,
    and every Emoji is written with the [id], [name] and [user]
    members, in this order, whatever its other fields hold. *)
Theorem MarshalJSON_omits_false_booleans (j : Emoji) (ib : bytes)
    (rbs : list bytes) (ub : bytes) :
  encodes_parts j ib rbs ub ->
  (RequireColons j = false -> Managed j = false ->
   Animated j = false -> Available j = false ->
   MarshalJSON (Some j)
   = (Some (json_object
              ([member (B "id") ib;
                member (B "name") (WriteJsonString [] (Name j))]
               ++ roles_member (RoleIDs j) rbs
               ++ [member (B "user") ub])), None))
  /\ exists roles booleans,
       MarshalJSON (Some j)
       = (Some (json_object
                  ([member (B "id") ib;
                    member (B "name") (WriteJsonString [] (Name j))]
                   ++ roles ++ [member (B "user") ub] ++ booleans)), None).
Proof.
  intros H.
  pose proof (MarshalJSONBuf_fields_form j ib rbs ub H) as W.
  assert (E : MarshalJSON (Some j)
              = (Some (json_object (Emoji_members j ib rbs ub)), None)).
  { unfold MarshalJSON, MarshalJSONBuf. rewrite W. reflexivity. }
  split.
  - intros H1 H2 H3 H4. rewrite E. unfold Emoji_members.
    rewrite H1, H2, H3, H4. cbn [bool_member]. rewrite !app_nil_r.
    reflexivity.
  - eexists _, _. rewrite E. unfold Emoji_members. reflexivity.
Qed.

(** ** The decoder: field handlers *)

Lemma FFTok_eqb_eq (a b : FFTok) : FFTok_eqb a b = true <-> a = b.
Proof. destruct a, b; simpl; split; congruence. Qed.

Lemma FFTok_eqb_refl (a : FFTok) : FFTok_eqb a a = true.
Proof. destruct a; reflexivity. Qed.

Lemma FFTok_eqb_neq (a b : FFTok) : FFTok_eqb a b = false <-> a <> b.
Proof. destruct a, b; simpl; split; congruence. Qed.

(** The want-value state on a scanned token that is not an error:
    the gate on value tokens, then the handler of the current key. *)
Lemma step_want_value (c : config) (tok : FFTok) (fs : FFLexer) :
  c_state c = FFParse_want_value ->
  Scan (c_fs c) = (tok, fs) ->
  tok <> FFTok_error ->
  step c =
  if value_token tok then
    match c_currentKey c with
    | ffjtEmojiID => after_handler c (handle_ID fs (c_j c) tok)
    | ffjtEmojiName => after_handler c (handle_Name fs (c_j c) tok)
    | ffjtEmojiRoleIDs => after_handler c (handle_RoleIDs fs (c_j c) tok)
    | ffjtEmojiUser => after_handler c (handle_User fs (c_j c) tok)
    | ffjtEmojiRequireColons =>
      after_handler c (handle_RequireColons fs (c_j c) tok)
    | ffjtEmojiManaged => after_handler c (handle_Managed fs (c_j c) tok)
    | ffjtEmojiAnimated => after_handler c (handle_Animated fs (c_j c) tok)
    | ffjtEmojiAvailable => after_handler c (handle_Available fs (c_j c) tok)
    | ffjtEmojinosuchkey => after_handler c (handle_nosuchkey fs (c_j c) tok)
    | ffjtEmojibase =>
      Continue (mkConfig fs FFParse_want_value (c_currentKey c) (c_j c))
    end
  else Exit (wantedvalue fs (c_j c) tok).
Proof.
  intros Hs Hscan Htok. unfold step. rewrite Hscan, Hs.
  apply FFTok_eqb_neq in Htok. rewrite Htok. reflexivity.
Qed.

Lemma step_bool_field (c : config) (k : ffjtEmoji)
    (set : Emoji -> bool -> Emoji) (tok : FFTok) (fs : FFLexer) :
  bool_field k = Some set ->
  c_state c = FFParse_want_value ->
  c_currentKey c = k ->
  Scan (c_fs c) = (tok, fs) ->
  tok <> FFTok_error ->
  step c =
  if value_token tok then after_handler c (handle_bool set fs (c_j c) tok)
  else Exit (wantedvalue fs (c_j c) tok).
Proof.
  intros Hk Hs Hc Hscan Htok.
  rewrite (step_want_value c tok fs Hs Hscan Htok), Hc.
  destruct (value_token tok); [|reflexivity].
  destruct k; try discriminate; injection Hk as <-; reflexivity.
Qed.

(** C4, as the code has it.  For each boolean field, in the
    want-value state: a token that is not a value token never reaches
    the handler and ends the call with the structural "wanted value
    token" error; a value token that is neither a boolean nor null ends
    it with the type mismatch "cannot unmarshal ... into Go value for
    bool"; a null token leaves the receiver as it is.  In the handler, a
    boolean token whose captured bytes are neither [true] nor [false]
    ends the call with the malformed-scalar error, and one whose bytes
    are [true] or [false] assigns that value. *)
Theorem bool_field_decoding (c : config) (k : ffjtEmoji)
    (set : Emoji -> bool -> Emoji) (tok : FFTok) (fs : FFLexer) :
  bool_field k = Some set ->
  c_state c = FFParse_want_value ->
  c_currentKey c = k ->
  Scan (c_fs c) = (tok, fs) ->
  tok <> FFTok_error ->
  (value_token tok = false ->
   step c = Exit (c_j c, fs, Return (Some (WrapErr fs (Errorf_wanted_value tok))))
   /\ kind_of (WrapErr fs (Errorf_wanted_value tok)) = structural_token_error)
  /\ (value_token tok = true -> tok <> FFTok_bool -> tok <> FFTok_null ->
      step c = Exit (c_j c, fs,
                     Return (Some (WrapErr fs (Errorf_cannot_unmarshal tok "bool"))))
      /\ kind_of (WrapErr fs (Errorf_cannot_unmarshal tok "bool")) = type_mismatch)
  /\ (tok = FFTok_null ->
      step c = Continue (mkConfig fs FFParse_after_value k (c_j c)))
  /\ (forall fs' j,
        Output fs' <> B "true" -> Output fs' <> B "false" ->
        handle_bool set fs' j FFTok_bool
        = Failed (j, fs', Return (Some (WrapErr fs' errors_New_true_false)))
        /\ kind_of (WrapErr fs' errors_New_true_false) = malformed_scalar)
  /\ (forall fs' j (b : bool),
        Output fs' = (if b then B "true" else B "false") ->
        handle_bool set fs' j FFTok_bool = Handled fs' (set j b)).
Proof.
  intros Hk Hs Hc Hscan Htok.
  pose proof (step_bool_field c k set tok fs Hk Hs Hc Hscan Htok) as S.
  split; [|split; [|split; [|split]]].
  - intros H. rewrite S, H. split; reflexivity.
  - intros H H0 H1. rewrite S, H. unfold handle_bool.
    apply FFTok_eqb_neq in H0, H1. rewrite H0, H1. split; reflexivity.
  - intros ->. rewrite S. unfold handle_bool. cbn. rewrite Hc. reflexivity.
  - intros fs' j H H0. unfold handle_bool. cbn [FFTok_eqb negb andb].
    apply not_eq_sym in H, H0. apply bytes_Equal_neq in H, H0.
    rewrite H, H0. split; reflexivity.
  - intros fs' j b H. unfold handle_bool. cbn [FFTok_eqb negb andb].
    rewrite H. destruct b; reflexivity.
Qed.

(** C6.  The roles slice is omitted when empty and accepts null.
    Encoding an Emoji whose [RoleIDs] has no element (nil, or empty and
    not nil) writes no roles member, when the collaborators' encoders
    succeed.  In the want-value state under the roles key a null token
    is no error: the call goes on with [RoleIDs] set to nil, whatever it
    held before. *)
Theorem roles_omitted_and_null_accepted :
  (forall j ib rbs ub,
     encodes_parts j ib rbs ub ->
     len_RoleIDs (RoleIDs j) = O ->
     MarshalJSON (Some j)
     = (Some (json_object
                ([member (B "id") ib;
                  member (B "name") (WriteJsonString [] (Name j));
                  member (B "user") ub]
                 ++ bool_member (B "require_colons") (RequireColons j)
                 ++ bool_member (B "managed") (Managed j)
                 ++ bool_member (B "animated") (Animated j)
                 ++ bool_member (B "available") (Available j))), None))
  /\ (forall c fs,
        c_state c = FFParse_want_value ->
        c_currentKey c = ffjtEmojiRoleIDs ->
        Scan (c_fs c) = (FFTok_null, fs) ->
        step c = Continue (mkConfig fs FFParse_after_value ffjtEmojiRoleIDs
                                    (set_RoleIDs (c_j c) None))
        /\ RoleIDs (set_RoleIDs (c_j c) None) = None).
Proof.
  split.
  - intros j ib rbs ub H Hlen.
    pose proof (MarshalJSONBuf_fields_form j ib rbs ub H) as W.
    unfold MarshalJSON, MarshalJSONBuf. rewrite W. unfold Emoji_members.
    destruct (RoleIDs j) as [[|v l]|]; try discriminate; reflexivity.
  - intros c fs Hs Hc Hscan. split; [|reflexivity].
    rewrite (step_want_value c FFTok_null fs Hs Hscan) by discriminate.
    rewrite Hc. unfold handle_RoleIDs, after_handler.
    cbn [value_token FFTok_eqb negb andb]. rewrite Hc. reflexivity.
Qed.

(** ** The tokenizer consumes its input *)

Ltac break_scan H :=
  repeat match type of H with
         | context [if ?b then _ else _] => destruct b
         | context [match ?l with [] => _ | _ :: _ => _ end] => destruct l
         | context [match ?o with Some _ => _ | None => _ end] =>
           destruct o
         end.

Lemma lexString_length (n : nat) :
  forall r acc tok out e rest,
    (List.length r <= n)%nat ->
    lexString r acc = (tok, out, e, rest) ->
    (List.length rest <= List.length r)%nat.
Proof.
  induction n as [|n IH]; intros r acc tok out e rest Hn H.
  - destruct r; [|simpl in Hn; lia]. cbn [lexString] in H.
    injection H as <- <- <- <-. simpl; lia.
  - destruct r as [|c r1]; cbn [lexString] in H.
    { injection H as <- <- <- <-. simpl; lia. }
    cbn [List.length] in Hn |- *.
    unfold scan_error in H.
    break_scan H;
      cbn [List.length] in *;
      first [ injection H as <- <- <- <-; cbn [List.length]; lia
            | apply IH in H; cbn [List.length] in *; lia ].
Qed.

Lemma span_digits_length (r : bytes) :
  (List.length (snd (span_digits r)) + List.length (fst (span_digits r))
   = List.length r)%nat.
Proof.
  induction r as [|c r IH]; simpl; [reflexivity|].
  destruct (is_digit c); [|simpl; lia].
  destruct (span_digits r) as [d rest]. simpl in *. lia.
Qed.

Lemma span_digits_le (r d rest : bytes) :
  span_digits r = (d, rest) -> (List.length rest <= List.length r)%nat.
Proof.
  intros H. pose proof (span_digits_length r) as L. rewrite H in L.
  simpl in L. lia.
Qed.

Lemma span_digits_lt (r d rest : bytes) :
  span_digits r = (d, rest) -> d <> [] ->
  (List.length rest < List.length r)%nat.
Proof.
  intros H Hd. pose proof (span_digits_length r) as L. rewrite H in L.
  simpl in L. destruct d; [congruence|]. simpl in L. lia.
Qed.

Lemma span_digits_eq (r d rest : bytes) :
  span_digits r = (d, rest) ->
  (List.length rest + List.length d = List.length r)%nat.
Proof.
  intros H. pose proof (span_digits_length r) as L. rewrite H in L.
  exact L.
Qed.

Lemma lexNumber_length (r : bytes) tok out e rest :
  lexNumber r = (tok, out, e, rest) ->
  (List.length rest <= List.length r)%nat
  /\ (tok <> FFTok_error -> (List.length rest < List.length r)%nat).
Proof.
  unfold lexNumber, scan_error.
  repeat match goal with
         | |- context [span_digits ?x] =>
           let E := fresh "E" in
           destruct (span_digits x) as [? ?] eqn:E;
           apply span_digits_eq in E
         | |- context [match ?l with [] => _ | _ :: _ => _ end] =>
           destruct l
         | |- context [if ?b then _ else _] => destruct b
         end;
    intros H; injection H as <- <- <- <-;
    cbn [List.length] in *; (split; [lia | try congruence; intros _; lia]).
Qed.

Lemma wantBytes_length (want : bytes) :
  forall r acc iftrue tok out e rest,
    wantBytes want r acc iftrue = (tok, out, e, rest) ->
    (List.length rest <= List.length r)%nat.
Proof.
  induction want as [|b want IH]; intros r acc iftrue tok out e rest H.
  - injection H as <- <- <- <-. lia.
  - simpl in H. destruct r as [|c r'].
    + injection H as <- <- <- <-. simpl; lia.
    + destruct (byte_eqb c b).
      * apply IH in H. simpl; lia.
      * injection H as <- <- <- <-. lia.
Qed.

Lemma scan_token_length (r : bytes) :
  forall tok out e rest,
    scan_token r = (tok, out, e, rest) ->
    (List.length rest <= List.length r)%nat
    /\ (tok <> FFTok_eof -> tok <> FFTok_error ->
        (List.length rest < List.length r)%nat).
Proof.
  induction r as [|c r IH]; intros tok out e rest H.
  - injection H as <- <- <- <-. split; [lia | congruence].
  - cbn [scan_token] in H.
    destruct (is_space c).
    { apply IH in H. simpl. destruct H as [H1 H2]. split; [lia|].
      intros A B'. specialize (H2 A B'). lia. }
    destruct (code c =? 34).
    { apply lexString_length with (n := List.length r) in H; [|lia].
      simpl. split; lia. }
    destruct ((code c =? 45) || is_digit c).
    { apply lexNumber_length in H. destruct H as [H1 H2].
      split; [exact H1 | intros _; exact H2]. }
    unfold scan_error in H.
    repeat match type of H with
           | (if ?b then _ else _) = _ => destruct b
           end;
      try (apply wantBytes_length in H; simpl; split; lia);
      injection H as <- <- <- <-; simpl; split; lia.
Qed.

Lemma Scan_length (fs fs1 : FFLexer) (tok : FFTok) :
  Scan fs = (tok, fs1) ->
  (List.length (reader fs1) <= List.length (reader fs))%nat
  /\ (tok <> FFTok_eof -> tok <> FFTok_error ->
      (List.length (reader fs1) < List.length (reader fs))%nat).
Proof.
  unfold Scan. destruct (scan_token (reader fs)) as [[[t o] e] rest] eqn:E.
  intros H. injection H as <- <-. cbn [reader].
  eapply scan_token_length; eauto.
Qed.

(** ** Skipping a value *)

Lemma scans_app (fs fs1 fs2 : FFLexer) (a b : list FFTok) :
  scans fs a fs1 -> scans fs1 b fs2 -> scans fs (a ++ b) fs2.
Proof.
  induction 1 as [|? ? ? ? ? Hs _ IH]; intros Hb; [exact Hb|].
  simpl. econstructor; [exact Hs | apply IH, Hb].
Qed.

Lemma scans_app_inv (a b : list FFTok) :
  forall fs fs2,
    scans fs (a ++ b) fs2 ->
    exists fs1, scans fs a fs1 /\ scans fs1 b fs2.
Proof.
  induction a as [|t a IH]; intros fs fs2 H.
  - exists fs. split; [constructor | exact H].
  - simpl in H. inversion H as [|? fsa ? ? ? Hs Hrest]; subst.
    destruct (IH _ _ Hrest) as (fs1 & H1 & H2).
    exists fs1. split; [econstructor; eauto | exact H2].
Qed.

Lemma scans_length (fs fs1 : FFLexer) (toks : list FFTok) :
  scans fs toks fs1 ->
  Forall (fun t => json_token t = true) toks ->
  (List.length (reader fs1) + List.length toks
   <= List.length (reader fs))%nat.
Proof.
  induction 1 as [|fs fsa fsb tok toks Hs _ IH]; intros F; [simpl; lia|].
  inversion F as [|? ? Ht F']; subst. specialize (IH F').
  apply Scan_length in Hs as [_ L].
  assert ((List.length (reader fsa) < List.length (reader fs))%nat)
    by (apply L; intros ->; discriminate).
  simpl. lia.
Qed.

Lemma excess_app (start end_ : FFTok) (a b : list FFTok) :
  forall e,
    excess start end_ e (a ++ b)
    = match excess start end_ e a with
      | Some e' => excess start end_ e' b
      | None => None
      end.
Proof.
  induction a as [|t a IH]; intros e; [reflexivity|].
  simpl. destruct (FFTok_eqb t end_).
  - destruct e; [reflexivity | apply IH].
  - destruct (FFTok_eqb t start); apply IH.
Qed.

Lemma excess_open (start end_ : FFTok) (e : nat) (toks : list FFTok) :
  start <> end_ ->
  excess start end_ e (start :: toks) = excess start end_ (S e) toks.
Proof.
  intros H. cbn [excess]. apply FFTok_eqb_neq in H.
  rewrite H, FFTok_eqb_refl. reflexivity.
Qed.

Lemma excess_close (start end_ : FFTok) (e : nat) (toks : list FFTok) :
  excess start end_ (S e) (end_ :: toks) = excess start end_ e toks.
Proof. cbn [excess]. rewrite FFTok_eqb_refl. reflexivity. Qed.

Lemma excess_other (start end_ tok : FFTok) (e : nat) (toks : list FFTok) :
  tok <> start -> tok <> end_ ->
  excess start end_ e (tok :: toks) = excess start end_ e toks.
Proof.
  intros H1 H2. cbn [excess]. apply FFTok_eqb_neq in H1, H2.
  rewrite H1, H2. reflexivity.
Qed.

(** A JSON value is balanced in each kind of bracket. *)
Lemma json_value_balanced (start end_ : FFTok) :
  (start = FFTok_left_brace /\ end_ = FFTok_right_brace)
  \/ (start = FFTok_left_bracket /\ end_ = FFTok_right_bracket) ->
  (forall v, json_value v ->
     forall e, excess start end_ e v = Some e)
  /\ (forall es, json_elements es ->
        forall e, excess start end_ e es = Some e)
  /\ (forall ms, json_members ms ->
        forall e, excess start end_ e ms = Some e).
Proof.
  intros P. apply json_mutual_min.
  - intros tok Ht e. rewrite excess_other; [reflexivity| |];
      destruct P as [[-> ->]|[-> ->]]; destruct tok; discriminate.
  - intros e. destruct P as [[-> ->]|[-> ->]].
    + rewrite excess_open, excess_close by discriminate. reflexivity.
    + rewrite !excess_other by discriminate. reflexivity.
  - intros es _ IH e. destruct P as [[-> ->]|[-> ->]].
    + rewrite excess_open by discriminate.
      rewrite excess_app, IH, excess_close. reflexivity.
    + rewrite excess_other by discriminate.
      rewrite excess_app, IH, excess_other by discriminate. reflexivity.
  - intros e. destruct P as [[-> ->]|[-> ->]].
    + rewrite !excess_other by discriminate. reflexivity.
    + rewrite excess_open, excess_close by discriminate. reflexivity.
  - intros ms _ IH e. destruct P as [[-> ->]|[-> ->]].
    + rewrite excess_other by discriminate.
      rewrite excess_app, IH, excess_other by discriminate. reflexivity.
    + rewrite excess_open by discriminate.
      rewrite excess_app, IH, excess_close. reflexivity.
  - intros v _ IH. exact IH.
  - intros v es _ IHv _ IHes e.
    rewrite excess_app, IHv, excess_other; [apply IHes| |];
      destruct P as [[-> ->]|[-> ->]]; discriminate.
  - intros v _ IH e.
    rewrite !excess_other; [apply IH| | | |];
      destruct P as [[-> ->]|[-> ->]]; discriminate.
  - intros v ms _ IHv _ IHms e.
    rewrite !excess_other;
      [| destruct P as [[-> ->]|[-> ->]]; discriminate ..].
    rewrite excess_app, IHv, excess_other; [apply IHms| |];
      destruct P as [[-> ->]|[-> ->]]; discriminate.
Qed.

Lemma json_value_tokens :
  (forall v, json_value v -> Forall (fun t => json_token t = true) v)
  /\ (forall es, json_elements es ->
        Forall (fun t => json_token t = true) es)
  /\ (forall ms, json_members ms ->
        Forall (fun t => json_token t = true) ms).
Proof.
  apply json_mutual_min.
  - intros tok Ht. constructor; [|constructor].
    destruct tok; try discriminate; reflexivity.
  - constructor; [reflexivity|]. constructor; [reflexivity | constructor].
  - intros es _ IH. constructor; [reflexivity|].
    apply Forall_app. split; [exact IH|].
    constructor; [reflexivity | constructor].
  - constructor; [reflexivity|]. constructor; [reflexivity | constructor].
  - intros ms _ IH. constructor; [reflexivity|].
    apply Forall_app. split; [exact IH|].
    constructor; [reflexivity | constructor].
  - intros v _ IH. exact IH.
  - intros v es _ IHv _ IHes. apply Forall_app. split; [exact IHv|].
    constructor; [reflexivity | exact IHes].
  - intros v _ IH. constructor; [reflexivity|].
    constructor; [reflexivity | exact IH].
  - intros v ms _ IHv _ IHms. constructor; [reflexivity|].
    constructor; [reflexivity|]. apply Forall_app. split; [exact IHv|].
    constructor; [reflexivity | exact IHms].
Qed.

(** The loop of [scanField] runs over a balanced run of tokens with
    its depth moving as the excess does. *)
Lemma scanField_loop_excess (start end_ : FFTok) :
  forall fs toks fs',
    scans fs toks fs' ->
    Forall (fun t => json_token t = true) toks ->
    forall e e' d fuel,
      excess start end_ e toks = Some e' ->
      scanField_loop (List.length toks + fuel) fs start end_ (S (d + e))
      = scanField_loop fuel fs' start end_ (S (d + e')).
Proof.
  induction 1 as [|fs fs1 fs2 tok toks Hs _ IH]; intros F e e' d fuel He.
  - simpl in He. injection He as <-. reflexivity.
  - inversion F as [|? ? Ht F']; subst.
    cbn [excess] in He.
    change (List.length (tok :: toks) + fuel)%nat
      with (S (List.length toks + fuel)).
    destruct (FFTok_eqb tok end_) eqn:Eend.
    + destruct e as [|e0]; [discriminate|].
      replace (S (d + S e0)) with (S (S (d + e0))) by lia.
      cbn [scanField_loop]. rewrite Hs, Eend.
      destruct tok; try discriminate Ht; apply (IH F' _ _ _ _ He).
    + destruct (FFTok_eqb tok start) eqn:Estart.
      * cbn [scanField_loop]. rewrite Hs, Eend, Estart.
        replace (S (S (d + e))) with (S (d + S e)) by lia.
        destruct tok; try discriminate Ht; apply (IH F' _ _ _ _ He).
      * cbn [scanField_loop]. rewrite Hs, Eend, Estart.
        destruct tok; try discriminate Ht; apply (IH F' _ _ _ _ He).
Qed.

(** [scanField] over the rest of an array or an object whose opening
    bracket was just scanned. *)
Lemma scanField_nested (start end_ : FFTok)
    (inner : list FFTok) (fs fs' : FFLexer) :
  (start = FFTok_left_brace /\ end_ = FFTok_right_brace)
  \/ (start = FFTok_left_bracket /\ end_ = FFTok_right_bracket) ->
  scans fs (inner ++ [end_]) fs' ->
  Forall (fun t => json_token t = true) inner ->
  excess start end_ O inner = Some O ->
  scanField_loop (S (List.length (reader fs))) fs start end_ 1 = (fs', None).
Proof.
  intros P Hs F He.
  assert (Fall : Forall (fun t => json_token t = true) (inner ++ [end_])).
  { apply Forall_app. split; [exact F|]. repeat constructor.
    destruct P as [[_ ->]|[_ ->]]; reflexivity. }
  pose proof (scans_length _ _ _ Hs Fall) as L. rewrite length_app in L. simpl in L.
  apply scans_app_inv in Hs as (fsm & Hin & Hend).
  inversion Hend as [|? fsa ? ? ? Hscan Hnil]; subst.
  inversion Hnil; subst.
  replace (S (List.length (reader fs)))
    with (List.length inner
          + S (List.length (reader fs) - List.length inner))%nat by lia.
  change 1%nat with (S (O + O)).
  rewrite (scanField_loop_excess start end_ _ _ _ Hin F O O O _ He).
  cbn [scanField_loop Nat.add]. rewrite Hscan.
  destruct P as [[-> ->]|[-> ->]]; reflexivity.
Qed.

(** [SkipField] consumes any JSON value whose first token was just
    scanned, and reports no error. *)
Lemma SkipField_json_value (tok : FFTok) (rest : list FFTok)
    (fs fs' : FFLexer) :
  json_value (tok :: rest) ->
  scans fs rest fs' ->
  SkipField fs tok = (fs', None).
Proof.
  intros Hv Hs.
  assert (N : forall start end_ inner,
             (start = FFTok_left_brace /\ end_ = FFTok_right_brace)
             \/ (start = FFTok_left_bracket /\ end_ = FFTok_right_bracket) ->
             tok = start -> rest = inner ++ [end_] ->
             Forall (fun t => json_token t = true) inner ->
             excess start end_ O inner = Some O ->
             SkipField fs tok = (fs', None)).
  { intros start end_ inner P -> -> F He.
    pose proof (scanField_nested start end_ inner fs fs' P Hs F He) as E.
    unfold SkipField, scanField.
    destruct P as [[-> ->]|[-> ->]]; rewrite E; reflexivity. }
  destruct json_value_tokens as (_ & TE & TM).
  assert (PA : FFTok_left_brace = FFTok_left_brace
               /\ FFTok_right_brace = FFTok_right_brace
               \/ FFTok_left_brace = FFTok_left_bracket
                  /\ FFTok_right_brace = FFTok_right_bracket) by auto.
  assert (PO : FFTok_left_bracket = FFTok_left_brace
               /\ FFTok_right_bracket = FFTok_right_brace
               \/ FFTok_left_bracket = FFTok_left_bracket
                  /\ FFTok_right_bracket = FFTok_right_bracket) by auto.
  destruct (json_value_balanced _ _ PA) as (_ & AE & AM).
  destruct (json_value_balanced _ _ PO) as (_ & OE & OM).
  inversion Hv as [t Ht|  |es Hes| |ms Hms]; subst.
  - inversion Hs; subst. unfold SkipField, scanField.
    destruct tok; try discriminate Ht; reflexivity.
  - apply (N FFTok_left_brace FFTok_right_brace []);
      [exact PA | reflexivity | reflexivity | constructor | reflexivity].
  - apply (N FFTok_left_brace FFTok_right_brace es);
      [exact PA | reflexivity | reflexivity | apply TE, Hes | apply AE, Hes].
  - apply (N FFTok_left_bracket FFTok_right_bracket []);
      [exact PO | reflexivity | reflexivity | constructor | reflexivity].
  - apply (N FFTok_left_bracket FFTok_right_bracket ms);
      [exact PO | reflexivity | reflexivity | apply TM, Hms | apply OM, Hms].
Qed.

(** ** The state machine *)

Lemma mainparse_steps (n : nat) (c c' : config) :
  steps n c c' -> forall fuel, mainparse (n + fuel) c = mainparse fuel c'.
Proof.
  induction 1 as [|n c c1 c2 Hstep _ IH]; intros fuel; [reflexivity|].
  cbn [Nat.add mainparse]. rewrite Hstep. apply IH.
Qed.

Lemma mainparse_mono (fuel : nat) :
  forall c r, mainparse fuel c = Some r ->
    forall fuel', (fuel <= fuel')%nat -> mainparse fuel' c = Some r.
Proof.
  induction fuel as [|fuel IH]; intros c r H fuel' L; [discriminate|].
  destruct fuel' as [|fuel']; [lia|].
  cbn [mainparse] in *. destruct (step c) as [c1|e]; [|exact H].
  apply IH; [exact H | lia].
Qed.

Lemma steps_trans (n m : nat) (c c1 c2 : config) :
  steps n c c1 -> steps m c1 c2 -> steps (n + m) c c2.
Proof.
  induction 1 as [|n c ca cb Hstep _ IH]; intros H2; [exact H2|].
  cbn [Nat.add]. econstructor; [exact Hstep | apply IH, H2].
Qed.

(** A call that ended did so at an iteration reached by iterations
    that all went round again; what it hands back is what that
    iteration ended with. *)
Lemma mainparse_exit (fuel : nat) :
  forall c r, mainparse fuel c = Some r ->
    exists n c', (n < fuel)%nat /\ steps n c c' /\ step c' = Exit r.
Proof.
  induction fuel as [|fuel IH]; intros c r H; [discriminate|].
  cbn [mainparse] in H. destruct (step c) as [c1|e] eqn:E.
  - destruct (IH _ _ H) as (n & c' & L & Hs & He).
    exists (S n), c'. repeat split; [lia | econstructor; eauto | exact He].
  - injection H as <-. exists O, c. repeat split; [lia | constructor | exact E].
Qed.

Lemma step_want_key_string (c : config) (fs1 : FFLexer) :
  c_state c = FFParse_want_key ->
  Scan (c_fs c) = (FFTok_string, fs1) ->
  step c = Continue (mkConfig fs1 FFParse_want_colon
                              (currentKey_of (Output fs1)) (c_j c)).
Proof. intros Hs Hscan. unfold step. rewrite Hscan, Hs. reflexivity. Qed.

Lemma step_want_colon (c : config) (fs1 : FFLexer) :
  c_state c = FFParse_want_colon ->
  Scan (c_fs c) = (FFTok_colon, fs1) ->
  step c = Continue (mkConfig fs1 FFParse_want_value (c_currentKey c) (c_j c)).
Proof. intros Hs Hscan. unfold step. rewrite Hscan, Hs. reflexivity. Qed.

Lemma step_map_start (c : config) (fs1 : FFLexer) :
  c_state c = FFParse_map_start ->
  Scan (c_fs c) = (FFTok_left_bracket, fs1) ->
  step c = Continue (mkConfig fs1 FFParse_want_key (c_currentKey c) (c_j c)).
Proof. intros Hs Hscan. unfold step. rewrite Hscan, Hs. reflexivity. Qed.

Lemma step_after_value_comma (c : config) (fs1 : FFLexer) :
  c_state c = FFParse_after_value ->
  Scan (c_fs c) = (FFTok_comma, fs1) ->
  step c = Continue (mkConfig fs1 FFParse_want_key (c_currentKey c) (c_j c)).
Proof. intros Hs Hscan. unfold step. rewrite Hscan, Hs. reflexivity. Qed.

Lemma step_after_value_done (c : config) (fs1 : FFLexer) :
  c_state c = FFParse_after_value ->
  Scan (c_fs c) = (FFTok_right_bracket, fs1) ->
  step c = Exit (c_j c, fs1, Return None).
Proof. intros Hs Hscan. unfold step. rewrite Hscan, Hs. reflexivity. Qed.

Lemma step_want_key_done (c : config) (fs1 : FFLexer) :
  c_state c = FFParse_want_key ->
  Scan (c_fs c) = (FFTok_right_bracket, fs1) ->
  step c = Exit (c_j c, fs1, Return None).
Proof. intros Hs Hscan. unfold step. rewrite Hscan, Hs. reflexivity. Qed.

(** A member whose key resolves to the unknown key takes three
    iterations, key, colon and value, and leaves the receiver as it
    was. *)
Lemma unknown_member_steps (c : config) (fs1 fs2 fs3 : FFLexer)
    (v : list FFTok) :
  c_state c = FFParse_want_key ->
  Scan (c_fs c) = (FFTok_string, fs1) ->
  currentKey_of (Output fs1) = ffjtEmojinosuchkey ->
  Scan fs1 = (FFTok_colon, fs2) ->
  json_value v ->
  scans fs2 v fs3 ->
  steps 3 c (mkConfig fs3 FFParse_after_value ffjtEmojinosuchkey (c_j c)).
Proof.
  intros Hs Hkey Hno Hcolon Hv Hscans.
  assert (exists tok rest, v = tok :: rest) as (tok & rest & ->).
  { inversion Hv; subst; eauto. }
  inversion Hscans as [|? fsv ? ? ? Hval Hrest]; subst.
  assert (Htok : tok <> FFTok_error)
    by (intros ->; inversion Hv; subst; discriminate).
  assert (Hvt : value_token tok = true).
  { inversion Hv; subst; try reflexivity.
    destruct tok; try discriminate; reflexivity. }
  set (c1 := mkConfig fs1 FFParse_want_colon (currentKey_of (Output fs1))
                      (c_j c)).
  set (c2 := mkConfig fs2 FFParse_want_value (currentKey_of (Output fs1))
                      (c_j c)).
  apply steps_S with (c1 := c1);
    [apply step_want_key_string; assumption|].
  apply steps_S with (c1 := c2);
    [apply (step_want_colon c1 fs2 eq_refl Hcolon)|].
  apply steps_S
    with (c1 := mkConfig fs3 FFParse_after_value ffjtEmojinosuchkey (c_j c));
    [|constructor].
  rewrite (step_want_value c2 tok fsv eq_refl Hval Htok), Hvt.
  unfold c2. cbn [c_currentKey c_j]. rewrite Hno.
  unfold handle_nosuchkey.
  rewrite (SkipField_json_value _ _ _ _ Hv Hrest).
  cbn [after_handler c_currentKey]. reflexivity.
Qed.

(** C2.  In the want-key state, a member whose key matches no field
    of the Emoji (the key resolves to [ffjtEmojinosuchkey]) is consumed
    without error whatever JSON value it holds, a scalar, an array or an
    object, nested to any depth: after three iterations the machine is in
    the after-value state behind the value, the receiver is the one it
    was before the key, and the call goes on from there. *)
Theorem unknown_key_ignored (c : config) (fs1 fs2 fs3 : FFLexer)
    (v : list FFTok) :
  c_state c = FFParse_want_key ->
  Scan (c_fs c) = (FFTok_string, fs1) ->
  currentKey_of (Output fs1) = ffjtEmojinosuchkey ->
  Scan fs1 = (FFTok_colon, fs2) ->
  json_value v ->
  scans fs2 v fs3 ->
  steps 3 c (mkConfig fs3 FFParse_after_value ffjtEmojinosuchkey (c_j c))
  /\ forall fuel,
       mainparse (3 + fuel) c
       = mainparse fuel
           (mkConfig fs3 FFParse_after_value ffjtEmojinosuchkey (c_j c)).
Proof.
  intros Hs Hkey Hno Hcolon Hv Hscans.
  pose proof (unknown_member_steps c fs1 fs2 fs3 v Hs Hkey Hno Hcolon Hv Hscans) as S.
  split; [exact S|]. intros fuel. apply (mainparse_steps _ _ _ S).
Qed.

(** C9.  In the want-key state, a member whose key is the empty string
    takes the length guard, which resolves it to the unknown key
    without any comparison with a wire key; the member is then consumed
    without error whatever JSON value it holds, and the receiver is the
    one it was before. *)
Theorem empty_key_ignored (c : config) (fs1 fs2 fs3 : FFLexer)
    (v : list FFTok) :
  c_state c = FFParse_want_key ->
  Scan (c_fs c) = (FFTok_string, fs1) ->
  Output fs1 = [] ->
  Scan fs1 = (FFTok_colon, fs2) ->
  json_value v ->
  scans fs2 v fs3 ->
  (List.length (Output fs1) <=? 0)%nat = true
  /\ step c = Continue (mkConfig fs1 FFParse_want_colon ffjtEmojinosuchkey
                                 (c_j c))
  /\ forall fuel,
       mainparse (3 + fuel) c
       = mainparse fuel
           (mkConfig fs3 FFParse_after_value ffjtEmojinosuchkey (c_j c)).
Proof.
  intros Hs Hkey Hout Hcolon Hv Hscans.
  assert (Hno : currentKey_of (Output fs1) = ffjtEmojinosuchkey)
    by (rewrite Hout; reflexivity).
  split; [rewrite Hout; reflexivity|]. split.
  - rewrite (step_want_key_string c fs1 Hs Hkey), Hno. reflexivity.
  - intros fuel.
    apply (mainparse_steps _ _ _
             (unknown_member_steps c fs1 fs2 fs3 v Hs Hkey Hno Hcolon Hv
                                   Hscans)).
Qed.

(** ** Decoding what the encoder wrote *)

Lemma lexString_plain (k : bytes) :
  plain_key k ->
  forall acc r,
    lexString (k ++ dq :: r) acc = (FFTok_string, rev acc ++ k, FFErr_e_ok, r).
Proof.
  induction 1 as [|c k (H1 & H2 & H3) _ IH]; intros acc r.
  - cbn [app lexString]. rewrite app_nil_r. reflexivity.
  - cbn [app lexString]. rewrite H1, H2, H3, IH. cbn [rev].
    rewrite <- app_assoc. reflexivity.
Qed.

Lemma scan_token_quoted (k r : bytes) :
  plain_key k ->
  scan_token (quoted k ++ r) = (FFTok_string, k, FFErr_e_ok, r).
Proof.
  intros H. unfold quoted. cbn [app scan_token].
  change (is_space dq) with false. change (code dq =? 34) with true.
  cbv iota. rewrite <- app_assoc. cbn [app].
  rewrite (lexString_plain k H [] r). reflexivity.
Qed.

Lemma Scan_of_scan_token (fs : FFLexer) tok out e rest :
  scan_token (reader fs) = (tok, out, e, rest) ->
  tok <> FFTok_error ->
  Scan fs = (tok, mkFFLexer rest out (Error fs) (BigError fs)).
Proof.
  intros H Ht. unfold Scan. rewrite H.
  destruct tok; try reflexivity. congruence.
Qed.

Lemma delimited_cons (c : ascii) (r : bytes) :
  c = ","%char \/ c = "]"%char \/ c = "}"%char -> delimited (c :: r).
Proof. intros H. exists c, r. auto. Qed.

(** A member written by the encoder takes three iterations from the
    want-key state: its key, the colon and its value. *)
Lemma member_decodes (it : item) (fs : FFLexer) (j j1 : Emoji)
    (ck : ffjtEmoji) (rest : bytes) :
  plain_key (it_key it) ->
  currentKey_of (it_key it) = it_field it ->
  value_decodes (it_field it) (it_val it) j j1 ->
  scan_token (reader fs) = scan_token (render it ++ rest) ->
  delimited rest ->
  exists fs',
    steps 3 (mkConfig fs FFParse_want_key ck j)
          (mkConfig fs' FFParse_after_value (it_field it) j1)
    /\ reader fs' = rest.
Proof.
  intros Hp Hk Hv Hr Hd.
  unfold render, member in Hr. rewrite <- app_assoc in Hr.
  rewrite (scan_token_quoted _ _ Hp) in Hr.
  pose proof (Scan_of_scan_token fs _ _ _ _ Hr) as S1.
  specialize (S1 ltac:(discriminate)).
  set (fs1 := mkFFLexer _ _ _ _) in S1.
  assert (S2 : Scan fs1
               = (FFTok_colon,
                  mkFFLexer (it_val it ++ rest) [] (Error fs1) (BigError fs1))).
  { apply Scan_of_scan_token with (e := FFErr_e_ok); [|discriminate].
    unfold fs1. cbn [reader]. rewrite <- app_assoc. reflexivity. }
  set (fs2 := mkFFLexer (it_val it ++ rest) _ _ _) in S2.
  destruct (Hv fs2 rest eq_refl Hd) as (fs' & Hstep & Hrd).
  exists fs'. split; [|exact Hrd].
  apply steps_S
    with (c1 := mkConfig fs1 FFParse_want_colon (it_field it) j).
  { rewrite (step_want_key_string (mkConfig fs FFParse_want_key ck j) fs1
               eq_refl S1).
    cbn [c_j]. replace (Output fs1) with (it_key it) by reflexivity.
    rewrite Hk. reflexivity. }
  apply steps_S
    with (c1 := mkConfig fs2 FFParse_want_value (it_field it) j).
  { apply (step_want_colon
             (mkConfig fs1 FFParse_want_colon (it_field it) j) fs2
             eq_refl S2). }
  apply steps_S with (c1 := mkConfig fs' FFParse_after_value (it_field it) j1);
    [exact Hstep|].
  constructor.
Qed.

Lemma Scan_comma (fs : FFLexer) (r : bytes) :
  reader fs = ","%char :: r ->
  Scan fs = (FFTok_comma, mkFFLexer r [] (Error fs) (BigError fs)).
Proof.
  intros H. apply Scan_of_scan_token with (e := FFErr_e_ok); [|discriminate].
  rewrite H. reflexivity.
Qed.

Lemma Scan_right_bracket (fs : FFLexer) (r : bytes) :
  reader fs = "}"%char :: r ->
  Scan fs = (FFTok_right_bracket, mkFFLexer r [] (Error fs) (BigError fs)).
Proof.
  intros H. apply Scan_of_scan_token with (e := FFErr_e_ok); [|discriminate].
  rewrite H. reflexivity.
Qed.

(** The members the encoder wrote, up to the closing bracket of the
    object, are decoded one after the other, four iterations each, and
    the call returns nil with every assignment made. *)
Lemma items_decode (items : list item) (j j' : Emoji) :
  decodes j items j' -> items <> [] ->
  forall fs ck tail,
    scan_token (reader fs)
    = scan_token (join (B ",") (map render items) ++ B "}" ++ tail) ->
    exists fs',
      mainparse (4 * List.length items) (mkConfig fs FFParse_want_key ck j)
      = Some (j', fs', Return None).
Proof.
  induction 1 as [|j j1 j2 it items Hp Hk Hv Hrest IH];
    intros Hne fs ck tail Hr; [congruence|]. clear Hne.
  destruct items as [|it2 items].
  - inversion Hrest; subst.
    cbn [map join] in Hr.
    destruct (member_decodes it fs j j2 ck (B "}" ++ tail) Hp Hk Hv Hr)
      as (fs1 & Hsteps & Hrd).
    { apply delimited_cons; auto. }
    pose proof (Scan_right_bracket fs1 tail Hrd) as Hs.
    eexists.
    change (4 * List.length [it])%nat with (3 + 1)%nat.
    rewrite (mainparse_steps _ _ _ Hsteps 1%nat).
    cbn [mainparse].
    rewrite (step_after_value_done
               (mkConfig fs1 FFParse_after_value (it_field it) j2)
               _ eq_refl Hs).
    reflexivity.
  - change (join (B ",") (map render (it :: it2 :: items)))
      with (render it ++ B "," ++ join (B ",") (map render (it2 :: items)))
      in Hr.
    rewrite <- !app_assoc in Hr.
    destruct (member_decodes it fs j j1 ck _ Hp Hk Hv Hr)
      as (fs1 & Hsteps & Hrd).
    { apply delimited_cons; auto. }
    pose proof (Scan_comma fs1 _ Hrd) as Hs.
    set (fs2 := mkFFLexer _ _ _ _) in Hs.
    destruct (IH ltac:(discriminate) fs2 (it_field it) tail eq_refl)
      as (fs' & Hrun).
    exists fs'.
    replace (4 * List.length (it :: it2 :: items))%nat
      with (3 + S (4 * List.length (it2 :: items)))%nat
      by (cbn [List.length]; lia).
    rewrite (mainparse_steps _ _ _ Hsteps).
    cbn [mainparse].
    rewrite (step_after_value_comma
               (mkConfig fs1 FFParse_after_value (it_field it) j1)
               _ eq_refl Hs).
    cbn [c_currentKey c_j]. exact Hrun.
Qed.

Lemma value_decodes_bool_true (k : ffjtEmoji) (set : Emoji -> bool -> Emoji)
    (j : Emoji) :
  bool_field k = Some set ->
  value_decodes k (B "true") j (set j true).
Proof.
  intros Hk fs rest Hr _.
  assert (S : Scan fs = (FFTok_bool,
                         mkFFLexer rest (B "true") (Error fs) (BigError fs))).
  { apply Scan_of_scan_token with (e := FFErr_e_ok); [|discriminate].
    rewrite Hr. reflexivity. }
  match type of S with _ = (_, ?f) => exists f end.
  split; [|reflexivity].
  rewrite (step_bool_field (mkConfig fs FFParse_want_value k j) k set
             FFTok_bool _ Hk eq_refl eq_refl S) by discriminate.
  reflexivity.
Qed.

Lemma value_decodes_name (name : bytes) (j : Emoji) :
  name_round_trip name ->
  value_decodes ffjtEmojiName (WriteJsonString [] name) j (set_Name j name).
Proof.
  intros Hn fs rest Hr _.
  assert (S : Scan fs = (FFTok_string,
                         mkFFLexer rest name (Error fs) (BigError fs))).
  { apply Scan_of_scan_token with (e := FFErr_e_ok); [|discriminate].
    rewrite Hr. apply Hn. }
  match type of S with _ = (_, ?f) => exists f end.
  split; [|reflexivity].
  rewrite (step_want_value (mkConfig fs FFParse_want_value ffjtEmojiName j)
             FFTok_string _ eq_refl S) by discriminate.
  reflexivity.
Qed.

Lemma CaptureField_scalar (fs : FFLexer) (tok : FFTok) :
  scalar_token tok = true ->
  CaptureField fs tok = (fs, captured tok (Output fs), None).
Proof. destruct tok; try discriminate; reflexivity. Qed.

Lemma set_ID_same (j : Emoji) : set_ID j (ID j) = j.
Proof. destruct j; reflexivity. Qed.

Lemma value_decodes_ID (ib : bytes) (v : N) (j : Emoji) :
  identifier_round_trip EmojiID_UnmarshalJSON ib v ->
  ID j = 0 ->
  value_decodes ffjtEmojiID ib j (set_ID j v).
Proof.
  intros (tok & out & Hsc & Hscan & Hcase) Hz fs rest Hr Hd.
  assert (Ht : tok <> FFTok_error) by (intros ->; discriminate).
  assert (S : Scan fs = (tok, mkFFLexer rest out (Error fs) (BigError fs))).
  { apply Scan_of_scan_token with (e := FFErr_e_ok); [|exact Ht].
    rewrite Hr. apply Hscan, Hd. }
  match type of S with _ = (_, ?f) => exists f end.
  split; [|reflexivity].
  rewrite (step_want_value (mkConfig fs FFParse_want_value ffjtEmojiID j)
             tok _ eq_refl S Ht).
  assert (value_token tok = true) as ->
    by (destruct tok; try discriminate; reflexivity).
  cbn [c_currentKey c_j]. unfold handle_ID.
  destruct Hcase as [[-> ->]|[Hnn Hun]].
  - cbn [FFTok_eqb after_handler c_currentKey].
    rewrite <- Hz, set_ID_same. reflexivity.
  - apply FFTok_eqb_neq in Hnn. rewrite Hnn.
    rewrite (CaptureField_scalar _ tok Hsc). cbn [Output].
    rewrite Hz, Hun. reflexivity.
Qed.

Lemma value_decodes_User (u : User) (ub : bytes) (j : Emoji) :
  user_round_trip (User_ j) u ub ->
  value_decodes ffjtEmojiUser ub j (set_User j u).
Proof.
  intros Hu fs rest Hr Hd.
  destruct (Hu fs rest Hr Hd) as (tok & fs1 & fs2 & S & Hv & Hnn & Hdec & Hrd).
  assert (Ht : tok <> FFTok_error) by (intros ->; discriminate).
  exists fs2. split; [|exact Hrd].
  rewrite (step_want_value (mkConfig fs FFParse_want_value ffjtEmojiUser j)
             tok _ eq_refl S Ht), Hv.
  cbn [c_currentKey c_j]. unfold handle_User.
  apply FFTok_eqb_neq in Hnn. rewrite Hnn, Hdec. reflexivity.
Qed.

Lemma set_RoleIDs_twice (j : Emoji) (a b : option (list N)) :
  set_RoleIDs (set_RoleIDs j a) b = set_RoleIDs j b.
Proof. reflexivity. Qed.

Lemma Scan_right_brace (fs : FFLexer) (r : bytes) :
  reader fs = "]"%char :: r ->
  Scan fs = (FFTok_right_brace, mkFFLexer r [] (Error fs) (BigError fs)).
Proof.
  intros H. apply Scan_of_scan_token with (e := FFErr_e_ok); [|discriminate].
  rewrite H. reflexivity.
Qed.

Lemma Scan_left_brace (fs : FFLexer) (r : bytes) :
  reader fs = "["%char :: r ->
  Scan fs = (FFTok_left_brace, mkFFLexer r [] (Error fs) (BigError fs)).
Proof.
  intros H. apply Scan_of_scan_token with (e := FFErr_e_ok); [|discriminate].
  rewrite H. reflexivity.
Qed.

(** One element of the roles array, in the element loop: its token is
    scanned and the identifier is appended. *)
Lemma RoleIDs_loop_element (rb : bytes) (v : N) (fs : FFLexer) (j : Emoji)
    (acc : list N) (fuel : nat) (rest : bytes) (wantVal : bool) :
  identifier_round_trip RoleID_UnmarshalJSON rb v ->
  RoleIDs j = Some acc ->
  reader fs = rb ++ rest -> delimited rest ->
  exists fs1,
    RoleIDs_loop (S fuel) fs j wantVal
    = RoleIDs_loop fuel fs1 (set_RoleIDs j (Some (acc ++ [v]))) false
    /\ reader fs1 = rest
    /\ (List.length (reader fs1) < List.length (reader fs))%nat.
Proof.
  intros (tok & out & Hsc & Hscan & Hcase) Hacc Hr Hd.
  assert (Ht : tok <> FFTok_error) by (intros ->; discriminate).
  assert (S : Scan fs = (tok, mkFFLexer rest out (Error fs) (BigError fs))).
  { apply Scan_of_scan_token with (e := FFErr_e_ok); [|exact Ht].
    rewrite Hr. apply Hscan, Hd. }
  match type of S with _ = (_, ?f) => exists f end.
  split; [|split; [reflexivity|]].
  - cbn [RoleIDs_loop]. rewrite S.
    destruct Hcase as [[-> ->]|[Hnn Hun]].
    + cbn [FFTok_eqb]. rewrite Hacc. reflexivity.
    + rewrite (CaptureField_scalar _ tok Hsc). cbn [Output]. rewrite Hun.
      rewrite Hacc.
      destruct tok; try discriminate Hsc; try reflexivity.
      congruence.
  - apply Scan_length in S as [_ L]. apply L; [|exact Ht].
    intros ->; discriminate.
Qed.

(** The element loop over the elements the encoder wrote, up to the
    closing bracket of the array. *)
Lemma RoleIDs_loop_elements (rbs : list bytes) (l : list N) :
  Forall2 (identifier_round_trip RoleID_UnmarshalJSON) rbs l ->
  l <> [] ->
  forall acc fs j fuel rest wantVal,
    RoleIDs j = Some acc ->
    reader fs = join (B ",") rbs ++ B "]" ++ rest ->
    (List.length (reader fs) < fuel)%nat ->
    exists fs',
      RoleIDs_loop fuel fs j wantVal
      = Handled fs' (set_RoleIDs j (Some (acc ++ l)))
      /\ reader fs' = rest.
Proof.
  induction 1 as [|rb v rbs l Hrt Hall IH]; intros Hne; [congruence|].
  clear Hne. intros acc fs j fuel rest wantVal Hacc Hr Hf.
  destruct fuel as [|fuel]; [lia|].
  destruct Hall as [|rb2 v2 rbs l Hrt2 Hall].
  - cbn [join] in Hr.
    destruct (RoleIDs_loop_element rb v fs j acc fuel (B "]" ++ rest) wantVal
                Hrt Hacc Hr) as (fs1 & E & Hr1 & L1).
    { apply delimited_cons; auto. }
    rewrite E.
    destruct fuel as [|fuel]; [lia|].
    cbn [RoleIDs_loop]. rewrite (Scan_right_brace fs1 rest Hr1).
    cbn [FFTok_eqb]. eexists. split; reflexivity.
  - change (join (B ",") (rb :: rb2 :: rbs))
      with (rb ++ B "," ++ join (B ",") (rb2 :: rbs)) in Hr.
    rewrite <- !app_assoc in Hr.
    destruct (RoleIDs_loop_element rb v fs j acc fuel _ wantVal
                Hrt Hacc Hr) as (fs1 & E & Hr1 & L1).
    { apply delimited_cons; auto. }
    rewrite E.
    destruct fuel as [|fuel]; [lia|].
    cbn [RoleIDs_loop]. rewrite (Scan_comma fs1 _ Hr1).
    cbn [FFTok_eqb Bool.eqb].
    set (fs2 := mkFFLexer _ _ _ _).
    destruct (IH ltac:(discriminate) (acc ++ [v]) fs2
                 (set_RoleIDs j (Some (acc ++ [v]))) fuel rest false
                 eq_refl eq_refl) as (fs' & E' & Hr').
    { unfold fs2. cbn [reader]. rewrite Hr1 in L1.
      change (B "," ++ join (B ",") (rb2 :: rbs) ++ B "]" ++ rest)
        with (","%char :: join (B ",") (rb2 :: rbs) ++ B "]" ++ rest) in L1.
      cbn [List.length] in L1. lia. }
    exists fs'. split; [|exact Hr'].
    rewrite E', set_RoleIDs_twice, <- app_assoc. reflexivity.
Qed.

Lemma value_decodes_RoleIDs (rbs : list bytes) (l : list N) (j : Emoji) :
  Forall2 (identifier_round_trip RoleID_UnmarshalJSON) rbs l ->
  l <> [] ->
  value_decodes ffjtEmojiRoleIDs (B "[" ++ join (B ",") rbs ++ B "]")
                j (set_RoleIDs j (Some l)).
Proof.
  intros Hall Hne fs rest Hr _.
  rewrite <- !app_assoc in Hr.
  pose proof (Scan_left_brace fs _ Hr) as HS.
  set (fs1 := mkFFLexer _ _ _ _) in HS.
  destruct (RoleIDs_loop_elements rbs l Hall Hne [] fs1
              (set_RoleIDs j (Some [])) (S (List.length (reader fs1))) rest
              true eq_refl eq_refl) as (fs' & E & Hr'); [lia|].
  exists fs'. split; [|exact Hr'].
  rewrite (step_want_value (mkConfig fs FFParse_want_value ffjtEmojiRoleIDs j)
             FFTok_left_brace _ eq_refl HS) by discriminate.
  cbn [value_token c_currentKey c_j]. unfold handle_RoleIDs.
  cbn [FFTok_eqb negb andb]. rewrite E. reflexivity.
Qed.

Lemma Emoji_items_render (j : Emoji) (ib : bytes) (rbs : list bytes)
    (ub : bytes) :
  map render (Emoji_items j ib rbs ub) = Emoji_members j ib rbs ub.
Proof.
  unfold Emoji_items, Emoji_members, roles_member, bool_member.
  destruct (RoleIDs j) as [[|v l]|], (RequireColons j), (Managed j),
    (Animated j), (Available j); reflexivity.
Qed.

Ltac plain_key_by_computation :=
  repeat (constructor; [repeat split; reflexivity|]); constructor.

(** The items of an Emoji take a fresh receiver to the Emoji itself,
    its empty role slice read as nil, when every part is read back by
    its own decoder. *)
Lemma Emoji_items_decode (j : Emoji) (u0 : User) (ib : bytes)
    (rbs : list bytes) (ub : bytes) :
  identifier_round_trip EmojiID_UnmarshalJSON ib (ID j) ->
  name_round_trip (Name j) ->
  Forall2 (identifier_round_trip RoleID_UnmarshalJSON) rbs
          (roles_of (RoleIDs j)) ->
  user_round_trip u0 (User_ j) ub ->
  decodes (fresh_Emoji u0) (Emoji_items j ib rbs ub) (omitted_to_zero j).
Proof.
  intros Hid Hname Hroles Huser.
  destruct j as [id name roles u rc mg an av].
  unfold Emoji_items, omitted_to_zero, fresh_Emoji.
  cbn [ID Name RoleIDs User_ RequireColons Managed Animated Available
       roles_of] in *.
  eapply decodes_cons;
    [plain_key_by_computation | reflexivity
    | apply value_decodes_ID; [exact Hid | reflexivity] |].
  eapply decodes_cons;
    [plain_key_by_computation | reflexivity
    | apply value_decodes_name; exact Hname |].
  assert (T : forall j0 : Emoji,
             User_ j0 = u0 ->
             RequireColons j0 = false -> Managed j0 = false ->
             Animated j0 = false -> Available j0 = false ->
             decodes j0
               ([mkItem (B "user") ub ffjtEmojiUser]
                ++ (if rc
                    then [mkItem (B "require_colons") (B "true")
                                 ffjtEmojiRequireColons] else [])
                ++ (if mg
                    then [mkItem (B "managed") (B "true") ffjtEmojiManaged]
                    else [])
                ++ (if an
                    then [mkItem (B "animated") (B "true") ffjtEmojiAnimated]
                    else [])
                ++ (if av
                    then [mkItem (B "available") (B "true")
                                 ffjtEmojiAvailable] else []))
               (mkEmoji (ID j0) (Name j0) (RoleIDs j0) u rc mg an av)).
  { intros j0 Hu H1 H2 H3 H4. destruct j0 as [i0 n0 r0 u1 c1 c2 c3 c4].
    cbn in Hu, H1, H2, H3, H4. subst.
    eapply decodes_cons;
      [plain_key_by_computation | reflexivity
      | apply value_decodes_User; exact Huser |].
    destruct rc, mg, an, av; cbn [app];
      repeat (eapply decodes_cons;
              [plain_key_by_computation | reflexivity
              | eapply value_decodes_bool_true; reflexivity |]);
      apply decodes_nil. }
  destruct roles as [[|v l]|]; cbn [app].
  - exact (T (set_Name (set_ID (mkEmoji 0 [] None u0 false false false false)
                               id) name)
             eq_refl eq_refl eq_refl eq_refl eq_refl).
  - eapply decodes_cons;
      [plain_key_by_computation | reflexivity
      | apply value_decodes_RoleIDs; [exact Hroles | discriminate] |].
    exact (T (set_RoleIDs
                (set_Name (set_ID (mkEmoji 0 [] None u0 false false false
                                           false) id) name)
                (Some (v :: l)))
             eq_refl eq_refl eq_refl eq_refl eq_refl).
  - exact (T (set_Name (set_ID (mkEmoji 0 [] None u0 false false false false)
                               id) name)
             eq_refl eq_refl eq_refl eq_refl eq_refl).
Qed.

Lemma Scan_left_bracket (fs : FFLexer) (r : bytes) :
  reader fs = "{"%char :: r ->
  Scan fs = (FFTok_left_bracket, mkFFLexer r [] (Error fs) (BigError fs)).
Proof.
  intros H. apply Scan_of_scan_token with (e := FFErr_e_ok); [|discriminate].
  rewrite H. reflexivity.
Qed.

Lemma Emoji_items_length (j : Emoji) (ib : bytes) (rbs : list bytes)
    (ub : bytes) :
  (List.length (Emoji_items j ib rbs ub) <= 8)%nat
  /\ Emoji_items j ib rbs ub <> [].
Proof.
  unfold Emoji_items.
  destruct (RoleIDs j) as [[|v l]|], (RequireColons j), (Managed j),
    (Animated j), (Available j); cbn; split; (lia || discriminate).
Qed.


(** * Names in UTF-8 *)

(** ** The bytes of a rune *)

Ltac rune_cases H :=
  repeat match type of H with
         | context [if ?b then _ else _] => destruct b eqn:?
         end.

Ltac rune_facts :=
  repeat match goal with
         | E : negb _ = false |- _ => apply Bool.negb_false_iff in E
         | E : (_ && _)%bool = true |- _ =>
           apply Bool.andb_true_iff in E; destruct E
         | E : (_ <=? _) = true |- _ => apply N.leb_le in E
         | E : (_ <? _) = true |- _ => apply N.ltb_lt in E
         | E : (_ <? _) = false |- _ => apply N.ltb_ge in E
         | E : (_ =? _) = true |- _ => apply N.eqb_eq in E
         | E : (_ =? _) = false |- _ => apply N.eqb_neq in E
         end.

Lemma is_cont_range (b : ascii) :
  utf8.is_cont b = true -> 128 <= code b <= 191.
Proof. unfold utf8.is_cont. intros H. rune_facts. lia. Qed.

Lemma in_range_range (lo hi : N) (b : ascii) :
  utf8.in_range lo hi b = true -> lo <= code b <= hi.
Proof. unfold utf8.in_range. intros H. rune_facts. lia. Qed.

(** A rune that starts at a byte that is not ASCII and is validly
    encoded takes two bytes or more, none of them ASCII. *)
Lemma DecodeRune_wide_bytes (s : bytes) (r : N) (size : nat) :
  utf8.DecodeRune s = (r, size) ->
  (exists c tl, s = c :: tl /\ 128 <= code c) ->
  ~ (r = utf8.RuneError /\ size = 1%nat) ->
  (2 <= size <= List.length s)%nat
  /\ Forall (fun b => 128 <= code b) (firstn size s).
Proof.
  intros H (c & tl0 & -> & Hc) V.
  destruct tl0 as [|p1 [|p2 [|p3 tl]]];
    unfold utf8.DecodeRune in H; cbv zeta in H;
    rune_cases H; injection H as <- <-;
    try (exfalso; apply V; split; reflexivity);
    try (exfalso; rune_facts; lia);
    (split; [cbn [List.length]; lia|]);
    cbn [firstn]; rune_facts;
    repeat match goal with
           | E : utf8.is_cont _ = true |- _ => apply is_cont_range in E
           | E : utf8.in_range _ _ _ = true |- _ => apply in_range_range in E
           end;
    repeat constructor; try lia;
    repeat match goal with
           | E : context [if ?b then _ else _] |- _ => destruct b
           end; lia.
Qed.

(** The tokenizer copies bytes that are not ASCII as they are. *)
Lemma lexString_chunk (chunk : bytes) :
  Forall (fun b => 128 <= code b) chunk ->
  forall r acc, lexString (chunk ++ r) acc = lexString r (rev chunk ++ acc).
Proof.
  induction 1 as [|c chunk Hc _ IH]; intros r acc; [reflexivity|].
  cbn [app lexString].
  destruct (code c =? 34) eqn:E1; [apply N.eqb_eq in E1; lia|].
  destruct (code c =? 92) eqn:E2; [apply N.eqb_eq in E2; lia|].
  destruct (code c <? 32) eqn:E3; [apply N.ltb_lt in E3; lia|].
  rewrite IH. cbn [rev]. rewrite <- app_assoc. reflexivity.
Qed.

(** ** The line and the paragraph separator *)

Lemma forall_below (n : nat) (P : N -> bool) :
  forallb P (map N.of_nat (seq 0 n)) = true ->
  forall x, x < N.of_nat n -> P x = true.
Proof.
  intros H x Hx. rewrite forallb_forall in H. apply H.
  rewrite <- (N2Nat.id x). apply in_map, in_seq. lia.
Qed.

Lemma two_bytes_no_separator :
  forall a b : ascii,
    negb (N.lor (N.shiftl (N.land (code a) 31) 6) (N.land (code b) 63)
          =? 8232)
    && negb (N.lor (N.shiftl (N.land (code a) 31) 6) (N.land (code b) 63)
             =? 8233) = true.
Proof. apply forall_byte2. vm_compute. reflexivity. Qed.

Lemma continuation_pair_small :
  forall a b : ascii,
    (N.lor (N.shiftl (N.land (code a) 63) 6) (N.land (code b) 63) <? 4096)
    = true.
Proof. apply forall_byte2. vm_compute. reflexivity. Qed.

Lemma continuation_pair_separator :
  forall a b : ascii,
    implb (utf8.is_cont a && utf8.is_cont b)
      (implb (N.lor (N.shiftl (N.land (code a) 63) 6) (N.land (code b) 63)
              =? 40)
             ((code a =? 128) && (code b =? 168))
       && implb (N.lor (N.shiftl (N.land (code a) 63) 6) (N.land (code b) 63)
                 =? 41)
                ((code a =? 128) && (code b =? 169))) = true.
Proof. apply forall_byte2. vm_compute. reflexivity. Qed.

Lemma three_bytes_separator (c : ascii) :
  forall g,
    g < 4096 ->
    implb ((224 <=? code c) && (code c <=? 239))
      (implb (N.lor (N.shiftl (N.land (code c) 15) 12) g =? 8232)
             ((code c =? 226) && (g =? 40))
       && implb (N.lor (N.shiftl (N.land (code c) 15) 12) g =? 8233)
                ((code c =? 226) && (g =? 41))) = true.
Proof.
  revert c.
  assert (G : forall c : ascii,
             forallb
               (fun g =>
                  implb ((224 <=? code c) && (code c <=? 239))
                    (implb (N.lor (N.shiftl (N.land (code c) 15) 12) g
                            =? 8232)
                           ((code c =? 226) && (g =? 40))
                     && implb (N.lor (N.shiftl (N.land (code c) 15) 12) g
                               =? 8233)
                              ((code c =? 226) && (g =? 41))))
               (map N.of_nat (seq 0 4096)) = true).
  { apply forall_byte. vm_compute. reflexivity. }
  intros c g Hg.
  exact (forall_below 4096 _ (G c) g Hg).
Qed.

Lemma four_bytes_high :
  forall c : ascii,
    implb ((241 <=? code c) && (code c <=? 244))
          (65536 <=? N.shiftl (N.land (code c) 7) 18)
    && implb (utf8.in_range 144 191 c)
             (65536 <=? N.shiftl (N.land (code c) 63) 12) = true.
Proof. apply forall_byte. vm_compute. reflexivity. Qed.

Ltac not_a_separator H Hr :=
  injection H as <- <-; destruct Hr as [Hr|Hr]; discriminate Hr.

(** The two separators are encoded in one way only. *)
Lemma DecodeRune_separator (s : bytes) (r : N) (size : nat) :
  utf8.DecodeRune s = (r, size) ->
  r = 8232 \/ r = 8233 ->
  firstn size s = EncodeRune r.
Proof.
  intros H Hr.
  destruct s as [|p0 tl]; [not_a_separator H Hr|].
  unfold utf8.DecodeRune in H. cbv zeta in H.
  destruct (code p0 <? 128) eqn:A0.
  { exfalso. apply N.ltb_lt in A0. injection H as <- _.
    destruct Hr as [Hr|Hr]; rewrite Hr in A0; lia. }
  destruct ((194 <=? code p0) && (code p0 <=? 223)) eqn:A1.
  { destruct tl as [|b1 tl]; [not_a_separator H Hr|].
    destruct (utf8.is_cont b1); [|not_a_separator H Hr].
    exfalso. injection H as <- _.
    pose proof (two_bytes_no_separator p0 b1) as T.
    apply Bool.andb_true_iff in T. destruct T as [T1 T2].
    apply Bool.negb_true_iff in T1, T2. apply N.eqb_neq in T1, T2.
    destruct Hr as [Hr|Hr]; [exact (T1 Hr) | exact (T2 Hr)]. }
  destruct ((224 <=? code p0) && (code p0 <=? 239)) eqn:A2.
  { destruct tl as [|b1 [|b2 tl]];
      [not_a_separator H Hr | not_a_separator H Hr |].
    destruct (utf8.in_range _ _ b1) eqn:R1; cbn [negb] in H;
      [|not_a_separator H Hr].
    destruct (utf8.is_cont b2) eqn:R2; cbn [negb] in H;
      [|not_a_separator H Hr].
    injection H as <- <-. cbn [firstn].
    assert (C1 : utf8.is_cont b1 = true).
    { apply in_range_range in R1. unfold utf8.is_cont.
      apply Bool.andb_true_iff. split; apply N.leb_le;
        destruct (code p0 =? 224), (code p0 =? 237); lia. }
    pose proof (continuation_pair_small b1 b2) as Sm. apply N.ltb_lt in Sm.
    pose proof (three_bytes_separator p0 _ Sm) as T3.
    pose proof (continuation_pair_separator b1 b2) as T2.
    rewrite A2 in T3. rewrite C1, R2 in T2. cbn [implb andb] in T2, T3.
    apply Bool.andb_true_iff in T2, T3.
    destruct T2 as [T2a T2b]. destruct T3 as [T3a T3b].
    destruct Hr as [Hr|Hr]; rewrite Hr in *.
    - cbn [N.eqb Pos.eqb implb] in T3a.
      apply Bool.andb_true_iff in T3a. destruct T3a as [B0 B1].
      rewrite B1 in T2a. cbn [implb] in T2a.
      apply Bool.andb_true_iff in T2a. destruct T2a as [B2 B3].
      apply N.eqb_eq in B0, B2, B3.
      rewrite (code_inj p0 (ascii_of_N 226) B0),
        (code_inj b1 (ascii_of_N 128) B2), (code_inj b2 (ascii_of_N 168) B3).
      reflexivity.
    - cbn [N.eqb Pos.eqb implb] in T3b.
      apply Bool.andb_true_iff in T3b. destruct T3b as [B0 B1].
      rewrite B1 in T2b. cbn [implb] in T2b.
      apply Bool.andb_true_iff in T2b. destruct T2b as [B2 B3].
      apply N.eqb_eq in B0, B2, B3.
      rewrite (code_inj p0 (ascii_of_N 226) B0),
        (code_inj b1 (ascii_of_N 128) B2), (code_inj b2 (ascii_of_N 169) B3).
      reflexivity. }
  destruct ((240 <=? code p0) && (code p0 <=? 244)) eqn:A3;
    [|not_a_separator H Hr].
  destruct tl as [|b1 [|b2 [|b3 tl]]];
    [not_a_separator H Hr | not_a_separator H Hr | not_a_separator H Hr |].
  destruct (utf8.in_range _ _ b1) eqn:R1; cbn [negb] in H;
    [|not_a_separator H Hr].
  destruct (utf8.is_cont b2); cbn [negb] in H; [|not_a_separator H Hr].
  destruct (utf8.is_cont b3); cbn [negb] in H; [|not_a_separator H Hr].
  exfalso. injection H as <- _.
  pose proof (four_bytes_high p0) as F0.
  pose proof (four_bytes_high b1) as F1.
  apply Bool.andb_true_iff in F0, F1.
  destruct F0 as [F0 _]. destruct F1 as [_ F1].
  apply Bool.andb_true_iff in A3. destruct A3 as [A3 A4].
  apply N.leb_le in A3, A4.
  match type of Hr with
  | N.lor ?A (N.lor ?B ?Y) = _ \/ _ =>
    pose proof (N_le_lor A (N.lor B Y)) as L1;
    pose proof (N_le_lor_r A (N.lor B Y)) as L2;
    pose proof (N_le_lor B Y) as L3
  end.
  destruct (code p0 =? 240) eqn:E0.
  - assert (R : utf8.in_range 144 191 b1 = true).
    { destruct (code p0 =? 244) eqn:E4; [|exact R1].
      apply N.eqb_eq in E0, E4. lia. }
    rewrite R in F1. cbn [implb] in F1. apply N.leb_le in F1.
    destruct Hr as [Hr|Hr]; rewrite Hr in *; lia.
  - apply N.eqb_neq in E0.
    assert (R : (241 <=? code p0) && (code p0 <=? 244) = true)
      by (apply Bool.andb_true_iff; split; apply N.leb_le; lia).
    rewrite R in F0. cbn [implb] in F0. apply N.leb_le in F0.
    destruct Hr as [Hr|Hr]; rewrite Hr in *; lia.
Qed.

(** ** The string writer and the tokenizer on valid UTF-8 *)

Lemma lexString_written_byte (b : ascii) :
  code b < 128 ->
  forall r acc,
    lexString ((if json_plain b then [b] else json_escape b) ++ r) acc
    = lexString r (b :: acc).
Proof.
  intros H r acc.
  destruct b as [b0 b1 b2 b3 b4 b5 b6 b7].
  destruct b7.
  { exfalso. destruct b0, b1, b2, b3, b4, b5, b6;
      vm_compute in H; discriminate H. }
  clear H. destruct b0, b1, b2, b3, b4, b5, b6; reflexivity.
Qed.

Lemma lexString_written_valid (name : bytes) :
  valid_utf8 name ->
  forall fuel r acc,
    (List.length name <= fuel)%nat ->
    lexString (WriteJson_loop fuel name ++ dq :: r) acc
    = (FFTok_string, rev acc ++ name, FFErr_e_ok, r).
Proof.
  induction 1 as [|s c size Hne D V _ IH]; intros fuel r acc Hf.
  - destruct fuel; cbn [WriteJson_loop app lexString];
      rewrite app_nil_r; reflexivity.
  - destruct s as [|b s']; [contradiction|].
    destruct fuel as [|fuel]; [cbn [List.length] in Hf; lia|].
    cbn [WriteJson_loop]. unfold utf8.RuneSelf.
    destruct (code b <? 128) eqn:A.
    + apply N.ltb_lt in A.
      rewrite (DecodeRune_ascii b s' A) in D. injection D as <- <-.
      cbn [skipn] in IH.
      rewrite <- app_assoc, (lexString_written_byte b A).
      rewrite IH by (cbn [List.length] in Hf; lia).
      cbn [rev]. rewrite <- app_assoc. reflexivity.
    + apply N.ltb_ge in A. rewrite D.
      destruct (DecodeRune_wide_bytes _ _ _ D
                  (ex_intro _ b (ex_intro _ s' (conj eq_refl A))) V)
        as [[S2 Sl] Hw].
      assert (Hl : (List.length (skipn size (b :: s')) <= fuel)%nat).
      { rewrite length_skipn. cbn [List.length] in Hf |- *. lia. }
      assert (E1 : (c =? utf8.RuneError) && Nat.eqb size 1 = false).
      { apply Bool.andb_false_iff. right. apply Nat.eqb_neq. lia. }
      rewrite E1.
      destruct ((c =? 8232) || (c =? 8233)) eqn:E2.
      * assert (Hc : c = 8232 \/ c = 8233).
        { apply Bool.orb_true_iff in E2.
          destruct E2 as [E2|E2]; apply N.eqb_eq in E2; auto. }
        pose proof (DecodeRune_separator _ _ _ D Hc) as Es.
        rewrite <- (firstn_skipn size (b :: s')) at 2. rewrite Es.
        rewrite <- !app_assoc.
        destruct Hc as [-> | ->]; cbn [app lexString];
          [ change (lexString (WriteJson_loop fuel (skipn size (b :: s'))
                               ++ dq :: r)
                              (rev (EncodeRune 8232) ++ acc)
                    = (FFTok_string,
                       rev acc ++ EncodeRune 8232 ++ skipn size (b :: s'),
                       FFErr_e_ok, r))
          | change (lexString (WriteJson_loop fuel (skipn size (b :: s'))
                               ++ dq :: r)
                              (rev (EncodeRune 8233) ++ acc)
                    = (FFTok_string,
                       rev acc ++ EncodeRune 8233 ++ skipn size (b :: s'),
                       FFErr_e_ok, r)) ];
          rewrite (IH fuel r _ Hl), rev_app_distr, rev_involutive,
            <- app_assoc; reflexivity.
      * rewrite <- app_assoc, (lexString_chunk _ Hw).
        rewrite (IH fuel r _ Hl), rev_app_distr, rev_involutive,
          <- app_assoc, firstn_skipn.
        reflexivity.
Qed.

(** A name that is valid UTF-8 is read back from the string literal
    written for it. *)
Lemma valid_utf8_name_round_trip (name : bytes) :
  valid_utf8 name -> name_round_trip name.
Proof.
  intros H rest.
  unfold WriteJsonString, WriteJson, Buffer_WriteByte, Buffer_Write.
  cbn [app]. rewrite <- !app_assoc. cbn [app scan_token].
  change (is_space dq) with false. change (code dq =? 34) with true.
  cbv iota. exact (lexString_written_valid name H _ rest [] (Nat.le_refl _)).
Qed.

Lemma ascii_valid_utf8 (name : bytes) :
  Forall (fun c => code c < 128) name -> valid_utf8 name.
Proof.
  induction 1 as [|c name Hc _ IH]; [constructor|].
  apply (valid_utf8_rune (c :: name) (code c) 1);
    [discriminate | exact (DecodeRune_ascii c name Hc) | | exact IH].
  intros [E _]. unfold utf8.RuneError in E. lia.
Qed.

(** * The round trip *)

(** C1, as the code has it.  For an Emoji whose name is valid UTF-8 and
    whose other parts are written without error by the collaborators'
    encoders and read back by the collaborators' decoders (the
    identifier and each role identifier by the identifier codec, the
    user by the user codec), encoding succeeds, and decoding the bytes
    into a fresh receiver returns nil and yields the Emoji itself: every
    field that was written has the value it had, and the role slice,
    which is omitted when it has no element, is nil then. *)
Theorem MarshalJSON_UnmarshalJSON_round_trip (j : Emoji) (u0 : User)
    (ib : bytes) (rbs : list bytes) (ub : bytes) :
  encodes_parts j ib rbs ub ->
  identifier_round_trip EmojiID_UnmarshalJSON ib (ID j) ->
  valid_utf8 (Name j) ->
  Forall2 (identifier_round_trip RoleID_UnmarshalJSON) rbs
          (roles_of (RoleIDs j)) ->
  user_round_trip u0 (User_ j) ub ->
  exists out,
    MarshalJSON (Some j) = (Some out, None)
    /\ forall fuel, (33 <= fuel)%nat ->
         UnmarshalJSON fuel (fresh_Emoji u0) out
         = Some (omitted_to_zero j, Return None).
Proof.
  intros Henc Hid Hvalid Hroles Huser.
  pose proof (valid_utf8_name_round_trip (Name j) Hvalid) as Hname.
  exists (json_object (Emoji_members j ib rbs ub)). split.
  - pose proof (MarshalJSONBuf_fields_form j ib rbs ub Henc) as W.
    unfold MarshalJSON, MarshalJSONBuf. rewrite W. reflexivity.
  - intros fuel Hfuel.
    pose proof (Emoji_items_decode j u0 ib rbs ub Hid Hname Hroles Huser)
      as Hdec.
    destruct (Emoji_items_length j ib rbs ub) as [Hlen Hne].
    set (fs0 := NewFFLexer (json_object (Emoji_members j ib rbs ub))).
    pose proof (Scan_left_bracket fs0
                  (" "%char :: join (B ",") (Emoji_members j ib rbs ub)
                   ++ B "}") eq_refl) as S0.
    set (fs1 := mkFFLexer _ _ _ _) in S0.
    destruct (items_decode _ _ _ Hdec Hne fs1 ffjtEmojibase [])
      as (fs' & Hrun).
    { unfold fs1. cbn [reader scan_token]. change (is_space " ") with true.
      cbv iota. rewrite Emoji_items_render. reflexivity. }
    unfold UnmarshalJSON, UnmarshalJSONFFLexer. fold fs0.
    rewrite (mainparse_mono (S (4 * List.length (Emoji_items j ib rbs ub)))
               _ (omitted_to_zero j, fs', Return None)); [reflexivity| |lia].
    cbn [mainparse].
    rewrite (step_map_start
               (mkConfig fs0 FFParse_map_start ffjtEmojibase (fresh_Emoji u0))
               fs1 eq_refl S0).
    exact Hrun.
Qed.

(** * Further properties of the Emoji codec *)

(** ** What the decoder accepts as a whole *)

(** X4. [UnmarshalJSON] wants an object: when the first token of the
    input is anything but the opening bracket, the call fails at once
    with the wanted-token error and the receiver is as it was.  The
    literal null, which is what [MarshalJSON] writes for a nil receiver,
    and the empty input are such inputs. *)
Theorem UnmarshalJSON_wants_an_object (j : Emoji) (fuel : nat) :
  (forall input tok fs1,
      Scan (NewFFLexer input) = (tok, fs1) ->
      tok <> FFTok_error -> tok <> FFTok_left_bracket ->
      UnmarshalJSON (S fuel) j input
      = Some (j, Return (Some (WrapErr fs1
                                 (Errorf_wanted_token FFTok_left_bracket tok
                                                      (Output fs1))))))
  /\ (forall out,
        MarshalJSON None = (Some out, None) ->
        UnmarshalJSON (S fuel) j out
        = Some (j, Return (Some (LexerError
                                   (Errorf_wanted_token FFTok_left_bracket
                                                        FFTok_null (B "null"))))))
  /\ UnmarshalJSON (S fuel) j []
     = Some (j, Return (Some (LexerError
                                (Errorf_wanted_token FFTok_left_bracket
                                                     FFTok_eof [])))).
Proof.
  assert (G : forall input tok fs1,
             Scan (NewFFLexer input) = (tok, fs1) ->
             tok <> FFTok_error -> tok <> FFTok_left_bracket ->
             UnmarshalJSON (S fuel) j input
             = Some (j, Return (Some (WrapErr fs1
                                        (Errorf_wanted_token
                                           FFTok_left_bracket tok
                                           (Output fs1)))))).
  { intros input tok fs1 HS He Hb.
    unfold UnmarshalJSON, UnmarshalJSONFFLexer. cbn [mainparse].
    unfold step. cbn [c_fs c_state c_j]. rewrite HS.
    apply FFTok_eqb_neq in He, Hb. rewrite He, Hb. reflexivity. }
  split; [exact G|]. split.
  - intros out H. injection H as <-.
    exact (G (B "null") FFTok_null _ eq_refl ltac:(discriminate)
             ltac:(discriminate)).
  - exact (G [] FFTok_eof _ eq_refl ltac:(discriminate) ltac:(discriminate)).
Qed.

(** ** The error token carries an error code *)

Lemma lexString_error_code (n : nat) :
  forall r acc tok out e rest,
    (List.length r <= n)%nat ->
    lexString r acc = (tok, out, e, rest) ->
    tok = FFTok_error -> e <> FFErr_e_ok.
Proof.
  induction n as [|n IH]; intros r acc tok out e rest Hn H Ht.
  - destruct r; [|simpl in Hn; lia]. cbn [lexString] in H.
    injection H as <- <- <- <-. discriminate.
  - destruct r as [|c r1]; cbn [lexString] in H.
    { injection H as <- <- <- <-. discriminate. }
    cbn [List.length] in Hn.
    unfold scan_error in H.
    break_scan H;
      cbn [List.length] in *;
      first [ injection H as <- <- <- <-; first [discriminate Ht | discriminate]
            | refine (IH _ _ _ _ _ _ _ H Ht); cbn [List.length] in *; lia ].
Qed.

Lemma lexNumber_error_code (r : bytes) tok out e rest :
  lexNumber r = (tok, out, e, rest) -> tok = FFTok_error -> e <> FFErr_e_ok.
Proof.
  unfold lexNumber, scan_error.
  repeat match goal with
         | |- context [span_digits ?x] =>
           destruct (span_digits x) as [? ?]
         | |- context [match ?l with [] => _ | _ :: _ => _ end] =>
           destruct l
         | |- context [if ?b then _ else _] => destruct b
         end;
    intros H Ht; injection H as <- <- <- <-;
    first [discriminate Ht | discriminate].
Qed.

Lemma wantBytes_error_code (want : bytes) :
  forall r acc iftrue tok out e rest,
    wantBytes want r acc iftrue = (tok, out, e, rest) ->
    iftrue <> FFTok_error ->
    tok = FFTok_error -> e <> FFErr_e_ok.
Proof.
  induction want as [|b want IH]; intros r acc iftrue tok out e rest H Hi Ht.
  - injection H as <- <- <- <-. contradiction.
  - simpl in H. destruct r as [|c r'].
    + injection H as <- <- <- <-. discriminate.
    + destruct (byte_eqb c b).
      * exact (IH _ _ _ _ _ _ _ H Hi Ht).
      * injection H as <- <- <- <-. discriminate.
Qed.

Lemma scan_token_error_code (r : bytes) :
  forall tok out e rest,
    scan_token r = (tok, out, e, rest) ->
    tok = FFTok_error -> e <> FFErr_e_ok.
Proof.
  induction r as [|c r IH]; intros tok out e rest H Ht.
  - injection H as <- <- <- <-. discriminate Ht.
  - cbn [scan_token] in H.
    destruct (is_space c); [exact (IH _ _ _ _ H Ht)|].
    destruct (code c =? 34).
    { exact (lexString_error_code (List.length r) _ _ _ _ _ _
               (Nat.le_refl _) H Ht). }
    destruct ((code c =? 45) || is_digit c).
    { exact (lexNumber_error_code _ _ _ _ _ H Ht). }
    unfold scan_error in H.
    repeat match type of H with
           | (if ?b then _ else _) = _ => destruct b
           end;
      try (refine (wantBytes_error_code _ _ _ _ _ _ _ _ H _ Ht); discriminate);
      injection H as <- <- <- <-; first [discriminate Ht | discriminate].
Qed.

(** After a scan that gave the error token, [tokerror] returns an
    error: its panic is not reached. *)
Lemma tokerror_after_Scan (fs fs1 : FFLexer) (j : Emoji) :
  Scan fs = (FFTok_error, fs1) ->
  exists err, tokerror fs1 j = (j, fs1, Return (Some err)).
Proof.
  unfold Scan. destruct (scan_token (reader fs)) as [[[t o] e] rest] eqn:E.
  intros H. injection H as -> <-.
  pose proof (scan_token_error_code _ _ _ _ _ E eq_refl) as He.
  unfold tokerror, return_wrapped. cbn [BigError Error].
  destruct (BigError fs); [eexists; reflexivity|].
  destruct e; try contradiction; eexists; reflexivity.
Qed.

(** ** The handlers consume input and fail with an error *)

Lemma scanField_loop_length (fuel : nat) :
  forall fs start end_ d fs' err,
    scanField_loop fuel fs start end_ d = (fs', err) ->
    (List.length (reader fs') <= List.length (reader fs))%nat.
Proof.
  induction fuel as [|fuel IH]; intros fs start end_ d fs' err H;
    cbn [scanField_loop] in H.
  - injection H as <- _. lia.
  - destruct (Scan fs) as [tok fs1] eqn:S1.
    pose proof (proj1 (Scan_length fs fs1 tok S1)) as L.
    assert (R : forall d', scanField_loop fuel fs1 start end_ d' = (fs', err) ->
                           (List.length (reader fs') <= List.length (reader fs))%nat).
    { intros d' H'. apply IH in H'. lia. }
    destruct tok;
      try (injection H as <- _; exact L);
      try (destruct (BigError fs1); injection H as <- _; exact L);
      (destruct (FFTok_eqb _ end_);
       [ destruct d as [|[|d]];
         [injection H as <- _; exact L | injection H as <- _; exact L
         | exact (R _ H)]
       | destruct (FFTok_eqb _ start); exact (R _ H) ]).
Qed.

Lemma scanField_length (fs : FFLexer) (start : FFTok) (capture : bool)
    (fs' : FFLexer) (out : bytes) (err : option error) :
  scanField fs start capture = (fs', out, err) ->
  (List.length (reader fs') <= List.length (reader fs))%nat.
Proof.
  unfold scanField. intros H.
  destruct start;
    try (destruct capture; injection H as <- _ _; lia);
    try (injection H as <- _ _; lia);
    (destruct (scanField_loop _ fs _ _ 1) as [fs1 e] eqn:L;
     apply scanField_loop_length in L;
     destruct e; [|destruct capture]; injection H as <- _ _; exact L).
Qed.

Lemma RoleIDs_loop_length (fuel : nat) :
  forall fs j wantVal fs' j',
    RoleIDs_loop fuel fs j wantVal = Handled fs' j' ->
    (List.length (reader fs') <= List.length (reader fs))%nat.
Proof.
  induction fuel as [|fuel IH]; intros fs j wantVal fs' j' H;
    cbn [RoleIDs_loop] in H; [discriminate H|].
  destruct (Scan fs) as [tok fs1] eqn:S1.
  pose proof (proj1 (Scan_length fs fs1 tok S1)) as L.
  destruct (FFTok_eqb tok FFTok_error); [discriminate H|].
  destruct (FFTok_eqb tok FFTok_right_brace).
  { injection H as <- _. exact L. }
  destruct (FFTok_eqb tok FFTok_comma).
  { destruct (Bool.eqb wantVal true); [discriminate H|].
    apply IH in H. lia. }
  destruct (FFTok_eqb tok FFTok_null).
  { apply IH in H. lia. }
  destruct (CaptureField fs1 tok) as [[fs2 tbuf] err] eqn:C.
  apply scanField_length in C.
  destruct err; [discriminate H|].
  destruct (RoleID_UnmarshalJSON 0 tbuf) as [v err].
  destruct err; [discriminate H|].
  apply IH in H. lia.
Qed.

(** With fuel above the length of the input, the element loop does not
    run out of it: when it fails, it has an error to return. *)
Lemma RoleIDs_loop_Failed (fuel : nat) :
  forall fs j wantVal e,
    (List.length (reader fs) < fuel)%nat ->
    RoleIDs_loop fuel fs j wantVal = Failed e ->
    exists err, snd e = Return (Some err).
Proof.
  induction fuel as [|fuel IH]; intros fs j wantVal e Hf H; [lia|].
  cbn [RoleIDs_loop] in H.
  destruct (Scan fs) as [tok fs1] eqn:S1.
  destruct (Scan_length fs fs1 tok S1) as [L Ls].
  destruct (FFTok_eqb tok FFTok_error) eqn:E1.
  { apply FFTok_eqb_eq in E1. subst tok.
    destruct (tokerror_after_Scan fs fs1 j S1) as (err & T).
    rewrite T in H. injection H as <-. exists err. reflexivity. }
  apply FFTok_eqb_neq in E1.
  destruct (FFTok_eqb tok FFTok_right_brace); [discriminate H|].
  destruct (FFTok_eqb tok FFTok_comma) eqn:E2.
  { apply FFTok_eqb_eq in E2. subst tok.
    destruct (Bool.eqb wantVal true).
    - injection H as <-. eexists; reflexivity.
    - apply IH in H; [exact H|].
      specialize (Ls ltac:(discriminate) ltac:(discriminate)). lia. }
  destruct (FFTok_eqb tok FFTok_null) eqn:E3.
  { apply FFTok_eqb_eq in E3. subst tok.
    apply IH in H; [exact H|].
    specialize (Ls ltac:(discriminate) ltac:(discriminate)). lia. }
  destruct (CaptureField fs1 tok) as [[fs2 tbuf] err] eqn:C.
  destruct err as [e0|].
  { injection H as <-. eexists; reflexivity. }
  destruct (RoleID_UnmarshalJSON 0 tbuf) as [v err].
  destruct err as [e0|].
  { injection H as <-. eexists; reflexivity. }
  assert (Hne : tok <> FFTok_eof).
  { intros ->. unfold CaptureField, scanField in C. discriminate C. }
  apply scanField_length in C.
  apply IH in H; [exact H|].
  specialize (Ls Hne E1). lia.
Qed.

Lemma handle_ID_length (fs : FFLexer) (j : Emoji) (tok : FFTok)
    (fs' : FFLexer) (j' : Emoji) :
  handle_ID fs j tok = Handled fs' j' ->
  (List.length (reader fs') <= List.length (reader fs))%nat.
Proof.
  unfold handle_ID. destruct (FFTok_eqb tok FFTok_null).
  { intros H. injection H as <- _. lia. }
  destruct (CaptureField fs tok) as [[fs1 tbuf] err] eqn:C.
  apply scanField_length in C.
  destruct err; [discriminate|].
  destruct (EmojiID_UnmarshalJSON (ID j) tbuf) as [id err].
  destruct err; [discriminate|].
  intros H. injection H as <- _. exact C.
Qed.

Lemma handle_Name_length (fs : FFLexer) (j : Emoji) (tok : FFTok)
    (fs' : FFLexer) (j' : Emoji) :
  handle_Name fs j tok = Handled fs' j' -> fs' = fs.
Proof.
  unfold handle_Name.
  destruct (negb (FFTok_eqb tok FFTok_string) && negb (FFTok_eqb tok FFTok_null));
    [discriminate|].
  destruct (FFTok_eqb tok FFTok_null); intros H; injection H as <- _;
    reflexivity.
Qed.

Lemma handle_RoleIDs_length (fs : FFLexer) (j : Emoji) (tok : FFTok)
    (fs' : FFLexer) (j' : Emoji) :
  handle_RoleIDs fs j tok = Handled fs' j' ->
  (List.length (reader fs') <= List.length (reader fs))%nat.
Proof.
  unfold handle_RoleIDs.
  destruct (negb (FFTok_eqb tok FFTok_left_brace)
            && negb (FFTok_eqb tok FFTok_null)); [discriminate|].
  destruct (FFTok_eqb tok FFTok_null).
  { intros H. injection H as <- _. lia. }
  apply RoleIDs_loop_length.
Qed.

Lemma handle_User_length (fs : FFLexer) (j : Emoji) (tok : FFTok)
    (fs' : FFLexer) (j' : Emoji) :
  User_decoder_consumes ->
  handle_User fs j tok = Handled fs' j' ->
  (List.length (reader fs') <= List.length (reader fs))%nat.
Proof.
  intros HU. unfold handle_User. destruct (FFTok_eqb tok FFTok_null).
  { intros H. injection H as <- _. lia. }
  destruct (User_UnmarshalJSONFFLexer (User_ j) fs FFParse_want_key)
    as [[u fs1] err] eqn:D.
  apply HU in D. destruct err; [discriminate|].
  intros H. injection H as <- _. exact D.
Qed.

Lemma handle_bool_length (set : Emoji -> bool -> Emoji) (fs : FFLexer)
    (j : Emoji) (tok : FFTok) (fs' : FFLexer) (j' : Emoji) :
  handle_bool set fs j tok = Handled fs' j' -> fs' = fs.
Proof.
  unfold handle_bool.
  destruct (negb (FFTok_eqb tok FFTok_bool) && negb (FFTok_eqb tok FFTok_null));
    [discriminate|].
  destruct (FFTok_eqb tok FFTok_null).
  { intros H. injection H as <- _. reflexivity. }
  destruct (bytes_Equal (B "true") (Output fs)).
  { intros H. injection H as <- _. reflexivity. }
  destruct (bytes_Equal (B "false") (Output fs)); [|discriminate].
  intros H. injection H as <- _. reflexivity.
Qed.

Lemma handle_nosuchkey_length (fs : FFLexer) (j : Emoji) (tok : FFTok)
    (fs' : FFLexer) (j' : Emoji) :
  handle_nosuchkey fs j tok = Handled fs' j' ->
  (List.length (reader fs') <= List.length (reader fs))%nat
  /\ j' = j.
Proof.
  unfold handle_nosuchkey, SkipField.
  destruct (scanField fs tok false) as [[fs1 out] err] eqn:C.
  apply scanField_length in C.
  destruct err; [discriminate|].
  intros H. injection H as <- <-. split; [exact C | reflexivity].
Qed.

(** A handler that ends the call ends it with an error. *)
Lemma handlers_fail_with_error (fs : FFLexer) (j : Emoji) (tok : FFTok)
    (e : ended) :
  handle_ID fs j tok = Failed e
  \/ handle_Name fs j tok = Failed e
  \/ handle_RoleIDs fs j tok = Failed e
  \/ handle_User fs j tok = Failed e
  \/ (exists set, handle_bool set fs j tok = Failed e)
  \/ handle_nosuchkey fs j tok = Failed e ->
  exists err, snd e = Return (Some err).
Proof.
  intros [H|[H|[H|[H|[[set H]|H]]]]].
  - unfold handle_ID in H. destruct (FFTok_eqb tok FFTok_null); [discriminate|].
    destruct (CaptureField fs tok) as [[fs1 tbuf] err].
    destruct err; [injection H as <-; eexists; reflexivity|].
    destruct (EmojiID_UnmarshalJSON (ID j) tbuf) as [id err].
    destruct err; [injection H as <-; eexists; reflexivity | discriminate].
  - unfold handle_Name in H.
    destruct (negb (FFTok_eqb tok FFTok_string)
              && negb (FFTok_eqb tok FFTok_null));
      [injection H as <-; eexists; reflexivity|].
    destruct (FFTok_eqb tok FFTok_null); discriminate.
  - unfold handle_RoleIDs in H.
    destruct (negb (FFTok_eqb tok FFTok_left_brace)
              && negb (FFTok_eqb tok FFTok_null));
      [injection H as <-; eexists; reflexivity|].
    destruct (FFTok_eqb tok FFTok_null); [discriminate|].
    exact (RoleIDs_loop_Failed _ _ _ _ _ (Nat.lt_succ_diag_r _) H).
  - unfold handle_User in H. destruct (FFTok_eqb tok FFTok_null); [discriminate|].
    destruct (User_UnmarshalJSONFFLexer (User_ j) fs FFParse_want_key)
      as [[u fs1] err].
    destruct err; [injection H as <-; eexists; reflexivity | discriminate].
  - unfold handle_bool in H.
    destruct (negb (FFTok_eqb tok FFTok_bool)
              && negb (FFTok_eqb tok FFTok_null));
      [injection H as <-; eexists; reflexivity|].
    destruct (FFTok_eqb tok FFTok_null); [discriminate|].
    destruct (bytes_Equal (B "true") (Output fs)); [discriminate|].
    destruct (bytes_Equal (B "false") (Output fs)); [discriminate|].
    injection H as <-. eexists; reflexivity.
  - unfold handle_nosuchkey in H.
    destruct (SkipField fs tok) as [fs1 err].
    destruct err; [injection H as <-; eexists; reflexivity | discriminate].
Qed.

Lemma value_token_not_end (tok : FFTok) :
  value_token tok = true -> tok <> FFTok_eof /\ tok <> FFTok_error.
Proof. destruct tok; intros H; try discriminate H; split; discriminate. Qed.

(** ** One iteration *)

(** An iteration that does not end the call has consumed input. *)
Lemma step_Continue_consumes (c c' : config) :
  User_decoder_consumes ->
  step c = Continue c' ->
  (List.length (reader (c_fs c')) < List.length (reader (c_fs c)))%nat.
Proof.
  intros HU H. unfold step in H.
  destruct (Scan (c_fs c)) as [tok fs] eqn:S1.
  destruct (Scan_length _ _ _ S1) as [L Ls].
  destruct (FFTok_eqb tok FFTok_error) eqn:E; [discriminate H|].
  apply FFTok_eqb_neq in E.
  destruct (c_state c).
  - destruct (FFTok_eqb tok FFTok_left_bracket) eqn:E1; cbn [negb] in H;
      [|discriminate H].
    apply FFTok_eqb_eq in E1. subst tok. injection H as <-. cbn [c_fs].
    apply Ls; discriminate.
  - destruct (FFTok_eqb tok FFTok_comma) eqn:E1.
    + apply FFTok_eqb_eq in E1. subst tok. injection H as <-. cbn [c_fs].
      apply Ls; discriminate.
    + destruct (FFTok_eqb tok FFTok_right_bracket); discriminate H.
  - destruct (FFTok_eqb tok FFTok_right_bracket); [discriminate H|].
    destruct (FFTok_eqb tok FFTok_string) eqn:E1; cbn [negb] in H;
      [|discriminate H].
    apply FFTok_eqb_eq in E1. subst tok. injection H as <-. cbn [c_fs].
    apply Ls; discriminate.
  - destruct (FFTok_eqb tok FFTok_colon) eqn:E1; cbn [negb] in H;
      [|discriminate H].
    apply FFTok_eqb_eq in E1. subst tok. injection H as <-. cbn [c_fs].
    apply Ls; discriminate.
  - destruct (value_token tok) eqn:V; [|discriminate H].
    destruct (value_token_not_end tok V) as [N1 N2].
    specialize (Ls N1 N2).
    unfold after_handler, handle_RequireColons, handle_Managed,
      handle_Animated, handle_Available in H.
    destruct (c_currentKey c);
      try (injection H as <-; cbn [c_fs]; exact Ls);
      match type of H with
      | match ?h with Handled _ _ => _ | Failed _ => _ end = _ =>
        destruct h as [fs0 j0|e0] eqn:Hh; [|discriminate H]
      end;
      injection H as <-; cbn [c_fs].
    + apply handle_nosuchkey_length in Hh. lia.
    + apply handle_ID_length in Hh. lia.
    + apply handle_Name_length in Hh. subst. lia.
    + apply handle_RoleIDs_length in Hh. lia.
    + apply (handle_User_length _ _ _ _ _ HU) in Hh. lia.
    + apply handle_bool_length in Hh. subst. lia.
    + apply handle_bool_length in Hh. subst. lia.
    + apply handle_bool_length in Hh. subst. lia.
    + apply handle_bool_length in Hh. subst. lia.
Qed.

(** How an iteration ends the call: through [done], at a closing
    bracket where a member may end, or with an error. *)
Lemma step_Exit_shape (c : config) (j' : Emoji) (fs' : FFLexer) (x : exit) :
  step c = Exit (j', fs', x) ->
  (x = Return None
   /\ Scan (c_fs c) = (FFTok_right_bracket, fs')
   /\ j' = c_j c
   /\ (c_state c = FFParse_after_value \/ c_state c = FFParse_want_key))
  \/ exists err, x = Return (Some err).
Proof.
  intros H. unfold step in H.
  destruct (Scan (c_fs c)) as [tok fs] eqn:S1.
  destruct (FFTok_eqb tok FFTok_error) eqn:E.
  { apply FFTok_eqb_eq in E. subst tok.
    destruct (tokerror_after_Scan _ _ (c_j c) S1) as (err & T).
    rewrite T in H. injection H as _ _ <-. right. exists err. reflexivity. }
  unfold wrongtokenerror, wantedvalue, return_wrapped in H.
  destruct (c_state c) eqn:St.
  - destruct (negb (FFTok_eqb tok FFTok_left_bracket)); [|discriminate H].
    injection H as _ _ <-. right. eexists; reflexivity.
  - destruct (FFTok_eqb tok FFTok_comma); [discriminate H|].
    destruct (FFTok_eqb tok FFTok_right_bracket) eqn:E1.
    + apply FFTok_eqb_eq in E1. subst tok. injection H as <- <- <-.
      left. auto.
    + injection H as _ _ <-. right. eexists; reflexivity.
  - destruct (FFTok_eqb tok FFTok_right_bracket) eqn:E1.
    + apply FFTok_eqb_eq in E1. subst tok. injection H as <- <- <-.
      left. auto.
    + destruct (negb (FFTok_eqb tok FFTok_string)); [|discriminate H].
      injection H as _ _ <-. right. eexists; reflexivity.
  - destruct (negb (FFTok_eqb tok FFTok_colon)); [|discriminate H].
    injection H as _ _ <-. right. eexists; reflexivity.
  - destruct (value_token tok).
    2: { injection H as _ _ <-. right. eexists; reflexivity. }
    right.
    unfold after_handler, handle_RequireColons, handle_Managed,
      handle_Animated, handle_Available in H.
    destruct (c_currentKey c); try discriminate H;
      match type of H with
      | match ?h with Handled _ _ => _ | Failed _ => _ end = _ =>
        destruct h as [fs0 j0|e0] eqn:Hh; [discriminate H|]
      end;
      injection H as ->;
      refine (handlers_fail_with_error fs (c_j c) tok (j', fs', x) _);
      eauto 10.
Qed.

(** ** The call as a whole *)

Lemma mainparse_total (fuel : nat) :
  User_decoder_consumes ->
  forall c,
    (List.length (reader (c_fs c)) < fuel)%nat ->
    exists r, mainparse fuel c = Some r.
Proof.
  intros HU. induction fuel as [|fuel IH]; intros c Hf; [lia|].
  cbn [mainparse]. destruct (step c) as [c'|e] eqn:S1.
  - apply IH. pose proof (step_Continue_consumes c c' HU S1). lia.
  - exists e. reflexivity.
Qed.

(** X5. [UnmarshalJSON] returns on every input: every iteration of
    [mainparse] that does not end the call consumes input, so the call
    ends within as many iterations as the input has bytes, and one more.
    The user's decoder, which is not under src/, is asked to hand back
    no more input than it got. *)
Theorem UnmarshalJSON_terminates (j : Emoji) (input : bytes) :
  User_decoder_consumes ->
  exists j' e,
    forall fuel, (List.length input < fuel)%nat ->
      UnmarshalJSON fuel j input = Some (j', e).
Proof.
  intros HU.
  destruct (mainparse_total (S (List.length input)) HU
              (mkConfig (NewFFLexer input) FFParse_map_start ffjtEmojibase j)
              (Nat.lt_succ_diag_r _)) as ([[j' fs'] e] & R).
  exists j', e. intros fuel Hf.
  unfold UnmarshalJSON, UnmarshalJSONFFLexer.
  rewrite (mainparse_mono _ _ _ R fuel) by lia. reflexivity.
Qed.

(** X6. How a call of [UnmarshalJSON] ends: it returns nil only through
    [done], that is when the token scanned is a closing bracket and a
    member could end there, and the receiver is then what the iterations
    before made of it; in every other case it returns an error.  The
    panic after [tokerror] is not reached: the tokenizer has set its
    error code when it gives the error token. *)
Theorem UnmarshalJSON_ends (fuel : nat) (j j' : Emoji) (input : bytes)
    (e : exit) :
  UnmarshalJSON fuel j input = Some (j', e) ->
  (e = Return None
   /\ exists n c' fs',
       steps n (mkConfig (NewFFLexer input) FFParse_map_start ffjtEmojibase j)
             c'
       /\ Scan (c_fs c') = (FFTok_right_bracket, fs')
       /\ j' = c_j c'
       /\ (c_state c' = FFParse_after_value \/ c_state c' = FFParse_want_key))
  \/ exists err, e = Return (Some err).
Proof.
  unfold UnmarshalJSON, UnmarshalJSONFFLexer. intros H.
  destruct (mainparse fuel _) as [[[j1 fs1] e1]|] eqn:R; [|discriminate H].
  injection H as -> ->.
  destruct (mainparse_exit _ _ _ R) as (n & c' & _ & Hs & Hx).
  destruct (step_Exit_shape _ _ _ _ Hx) as [(-> & HS & -> & St)|(err & ->)].
  - left. split; [reflexivity|]. exists n, c', fs1. auto.
  - right. exists err. reflexivity.
Qed.

(** ** The key a value is read under *)

Lemma currentKey_of_not_base (kn : bytes) : currentKey_of kn <> ffjtEmojibase.
Proof.
  unfold currentKey_of, exact_switch, fold_chain.
  repeat match goal with
         | |- context [if ?b then _ else _] => destruct b
         | |- context [match ?l with [] => _ | _ :: _ => _ end] => destruct l
         end; discriminate.
Qed.

(** X7. A value is always read under a key: from the start of an object
    (or from the want-key state, where a nested call starts), every
    iteration in the want-value state has [currentKey] set by a key read
    before, so the value is handled by a field's handler or skipped, and
    the [switch currentKey] never falls through without a case. *)
Theorem value_read_under_a_key (n : nat) (c c' : config) :
  steps n c c' ->
  c_state c = FFParse_map_start \/ c_state c = FFParse_want_key ->
  c_state c' = FFParse_want_value ->
  c_currentKey c' <> ffjtEmojibase.
Proof.
  intros Hs Hstart.
  assert (Inv : c_state c = FFParse_want_colon
                \/ c_state c = FFParse_want_value ->
                c_currentKey c <> ffjtEmojibase).
  { intros [E|E]; destruct Hstart as [E'|E']; congruence. }
  clear Hstart. induction Hs as [c|n c c1 c2 S1 _ IH]; intros St.
  - apply Inv. right. exact St.
  - apply IH; [|exact St]. clear IH St.
    intros St1. unfold step in S1.
    destruct (Scan (c_fs c)) as [tok fs].
    destruct (FFTok_eqb tok FFTok_error); [discriminate S1|].
    destruct (c_state c) eqn:St.
    + destruct (negb (FFTok_eqb tok FFTok_left_bracket)); [discriminate S1|].
      injection S1 as <-. cbn [c_state] in St1.
      destruct St1; discriminate.
    + destruct (FFTok_eqb tok FFTok_comma).
      * injection S1 as <-. cbn [c_state] in St1. destruct St1; discriminate.
      * destruct (FFTok_eqb tok FFTok_right_bracket); discriminate S1.
    + destruct (FFTok_eqb tok FFTok_right_bracket); [discriminate S1|].
      destruct (negb (FFTok_eqb tok FFTok_string)); [discriminate S1|].
      injection S1 as <-. cbn [c_currentKey].
      apply currentKey_of_not_base.
    + destruct (negb (FFTok_eqb tok FFTok_colon)); [discriminate S1|].
      injection S1 as <-. cbn [c_currentKey]. apply Inv. left. reflexivity.
    + assert (K : c_currentKey c <> ffjtEmojibase)
        by (apply Inv; right; reflexivity).
      destruct (value_token tok); [|discriminate S1].
      unfold after_handler in S1.
      destruct (c_currentKey c); try contradiction;
        match type of S1 with
        | match ?h with Handled _ _ => _ | Failed _ => _ end = _ =>
          destruct h; [|discriminate S1]
        end;
        injection S1 as <-; cbn [c_state] in St1; destruct St1; discriminate.
Qed.

(** ** A member changes its own field only *)

Ltac frame_done :=
  unfold same_except;
  cbn [ID Name RoleIDs User_ RequireColons Managed Animated Available
       set_ID set_Name set_RoleIDs set_User set_RequireColons set_Managed
       set_Animated set_Available];
  repeat split; first [left; reflexivity | right; reflexivity].

Lemma same_except_refl (k : ffjtEmoji) (j : Emoji) : same_except k j j.
Proof. unfold same_except. repeat split; right; reflexivity. Qed.

Lemma same_except_trans (k : ffjtEmoji) (j1 j2 j3 : Emoji) :
  same_except k j1 j2 -> same_except k j2 j3 -> same_except k j1 j3.
Proof.
  unfold same_except. intros H1 H2.
  repeat match goal with
         | H : _ /\ _ |- _ => destruct H
         end.
  repeat split;
    match goal with
    | A : ?k = ?x \/ ?f j2 = ?f j1, A' : ?k = ?x \/ ?f j3 = ?f j2
      |- ?k = ?x \/ ?f j3 = ?f j1 =>
      destruct A as [A|A]; [left; exact A|];
      destruct A' as [A'|A']; [left; exact A' | right; congruence]
    end.
Qed.

Lemma tokerror_receiver (fs : FFLexer) (j : Emoji) :
  receiver_of (Failed (tokerror fs j)) = j.
Proof.
  unfold tokerror, return_wrapped.
  destruct (BigError fs); [reflexivity|].
  destruct (ToError (Error fs)); reflexivity.
Qed.

Lemma RoleIDs_loop_frame (fuel : nat) :
  forall fs j wantVal,
    same_except ffjtEmojiRoleIDs j
                (receiver_of (RoleIDs_loop fuel fs j wantVal)).
Proof.
  induction fuel as [|fuel IH]; intros fs j wantVal; cbn [RoleIDs_loop].
  - rewrite tokerror_receiver. apply same_except_refl.
  - destruct (Scan fs) as [tok fs1].
    destruct (FFTok_eqb tok FFTok_error).
    { rewrite tokerror_receiver. apply same_except_refl. }
    destruct (FFTok_eqb tok FFTok_right_brace); [apply same_except_refl|].
    destruct (FFTok_eqb tok FFTok_comma).
    { destruct (Bool.eqb wantVal true); [apply same_except_refl | apply IH]. }
    destruct (FFTok_eqb tok FFTok_null).
    { eapply same_except_trans; [|apply IH]. frame_done. }
    destruct (CaptureField fs1 tok) as [[fs2 tbuf] err].
    destruct err; [apply same_except_refl|].
    destruct (RoleID_UnmarshalJSON 0 tbuf) as [v err].
    destruct err; [apply same_except_refl|].
    eapply same_except_trans; [|apply IH]. frame_done.
Qed.

(** X8. A member changes its own field only: whatever an iteration in
    the want-value state does under the key of a field, going on or
    ending the call with an error, the other fields of the receiver are
    as before; under a key that stands for no field, and in every other
    state, the receiver is as before. *)
Theorem member_changes_its_field_only (c : config) :
  (c_state c = FFParse_want_value ->
   same_except (c_currentKey c) (c_j c) (receiver_after (step c)))
  /\ (c_state c <> FFParse_want_value \/
      c_currentKey c = ffjtEmojinosuchkey \/ c_currentKey c = ffjtEmojibase ->
      receiver_after (step c) = c_j c).
Proof.
  assert (A : forall h, receiver_after (after_handler c h) = receiver_of h).
  { intros [fs j|[[j fs] x]]; reflexivity. }
  assert (T : forall fs, receiver_after (Exit (tokerror fs (c_j c))) = c_j c).
  { intros fs. exact (tokerror_receiver fs (c_j c)). }
  assert (Hb : forall set fs tok,
             receiver_of (handle_bool set fs (c_j c) tok) = c_j c
             \/ exists b, receiver_of (handle_bool set fs (c_j c) tok)
                          = set (c_j c) b).
  { intros set fs tok. unfold handle_bool.
    destruct (negb (FFTok_eqb tok FFTok_bool) && negb (FFTok_eqb tok FFTok_null));
      [left; reflexivity|].
    destruct (FFTok_eqb tok FFTok_null); [left; reflexivity|].
    destruct (bytes_Equal (B "true") (Output fs));
      [right; exists true; reflexivity|].
    destruct (bytes_Equal (B "false") (Output fs));
      [right; exists false; reflexivity | left; reflexivity]. }
  assert (Hn : forall fs tok,
             receiver_of (handle_nosuchkey fs (c_j c) tok) = c_j c).
  { intros fs tok. unfold handle_nosuchkey.
    destruct (SkipField fs tok) as [fs1 err]. destruct err; reflexivity. }
  unfold step.
  destruct (Scan (c_fs c)) as [tok fs].
  destruct (FFTok_eqb tok FFTok_error).
  { rewrite T. split; intros _; [apply same_except_refl | reflexivity]. }
  destruct (c_state c) eqn:St.
  1-4: split; [discriminate|]; intros _;
    repeat match goal with
           | |- context [if ?b then _ else _] => destruct b
           end; reflexivity.
  destruct (value_token tok).
  2: { split; intros _; [apply same_except_refl | reflexivity]. }
  split.
  - intros _.
    destruct (c_currentKey c); rewrite ?A, ?Hn;
      try apply same_except_refl;
      unfold handle_RequireColons, handle_Managed, handle_Animated,
        handle_Available;
      try (match goal with
           | |- context [handle_bool ?set ?fs ?j ?tok] =>
             destruct (Hb set fs tok) as [E|[b E]]; rewrite E;
             [apply same_except_refl | frame_done]
           end).
    + unfold handle_ID. destruct (FFTok_eqb tok FFTok_null);
        [apply same_except_refl|].
      destruct (CaptureField fs tok) as [[fs1 tbuf] err].
      destruct err; [apply same_except_refl|].
      destruct (EmojiID_UnmarshalJSON (ID (c_j c)) tbuf) as [id err].
      destruct err; frame_done.
    + unfold handle_Name.
      destruct (negb (FFTok_eqb tok FFTok_string)
                && negb (FFTok_eqb tok FFTok_null));
        [apply same_except_refl|].
      destruct (FFTok_eqb tok FFTok_null);
        [apply same_except_refl | frame_done].
    + unfold handle_RoleIDs.
      destruct (negb (FFTok_eqb tok FFTok_left_brace)
                && negb (FFTok_eqb tok FFTok_null));
        [apply same_except_refl|].
      destruct (FFTok_eqb tok FFTok_null); [frame_done|].
      eapply same_except_trans; [|apply RoleIDs_loop_frame]. frame_done.
    + unfold handle_User. destruct (FFTok_eqb tok FFTok_null);
        [apply same_except_refl|].
      destruct (User_UnmarshalJSONFFLexer (User_ (c_j c)) fs FFParse_want_key)
        as [[u fs1] err].
      destruct err; frame_done.
  - intros [H|[H|H]]; [contradiction | |]; rewrite H;
      [rewrite A; apply Hn | reflexivity].
Qed.

(** ** The encoder returns the first error *)

Lemma fails_andThen_l (a b : writer) (e : error) :
  fails a e -> fails (a ;; b) e.
Proof.
  intros H buf. destruct (H buf) as (buf1 & E).
  exists buf1. unfold andThen. rewrite E. reflexivity.
Qed.

Lemma fails_andThen_r (a b : writer) (x : bytes) (e : error) :
  writes a x -> fails b e -> fails (a ;; b) e.
Proof.
  intros Ha Hb buf. destruct (Hb (buf ++ x)) as (buf1 & E).
  exists buf1. rewrite (andThen_writes a x Ha). exact E.
Qed.

Lemma fails_WriteMarshaled (r : bytes * option error) (e : error) :
  snd r = Some e -> fails (WriteMarshaled r) e.
Proof.
  intros H buf. exists buf. unfold WriteMarshaled. rewrite H. reflexivity.
Qed.

Lemma writes_separator (i : nat) :
  writes (if negb (Nat.eqb i 0) then WriteString (B ",") else skip)
         (if negb (Nat.eqb i 0) then B "," else []).
Proof.
  destruct (negb (Nat.eqb i 0)); [apply writes_WriteString | apply writes_skip].
Qed.

Lemma write_RoleIDs_fails (pre post : list N) (v : N) (b : bytes) (e : error) :
  forall rbs,
    marshal_roles pre = Some rbs ->
    RoleID_MarshalJSON v = (b, Some e) ->
    forall i, fails (write_RoleIDs i (pre ++ v :: post)) e.
Proof.
  induction pre as [|p pre IH]; intros rbs Hm Hv i; cbn [app write_RoleIDs].
  - eapply fails_andThen_r; [apply writes_separator|].
    apply fails_andThen_l, fails_WriteMarshaled. rewrite Hv. reflexivity.
  - cbn [marshal_roles] in Hm.
    destruct (RoleID_MarshalJSON p) as [pb [pe|]] eqn:Ep;
      cbn [fst snd] in Hm; [discriminate Hm|].
    destruct (marshal_roles pre) as [bs|]; [|discriminate Hm].
    eapply fails_andThen_r; [apply writes_separator|].
    eapply fails_andThen_r;
      [apply (writes_WriteMarshaled _ pb); reflexivity|].
    exact (IH bs eq_refl Hv (S i)).
Qed.

Lemma MarshalJSON_fails (j : Emoji) (e : error) :
  fails (MarshalJSONBuf_fields j) e -> MarshalJSON (Some j) = (None, Some e).
Proof.
  intros H. unfold MarshalJSON, MarshalJSONBuf.
  destruct (H []) as (buf1 & E). rewrite E. reflexivity.
Qed.

(** X9. [MarshalJSON] returns the first error of a collaborator's
    encoder, and nil for the bytes: the error of the identifier's
    encoder; else the error of the first role identifier whose encoder
    fails; else the error of the user's encoder. *)
Theorem MarshalJSON_first_error (j : Emoji) :
  (forall b e,
      EmojiID_MarshalJSON (ID j) = (b, Some e) ->
      MarshalJSON (Some j) = (None, Some e))
  /\ (forall ib pre v post rbs b e,
        EmojiID_MarshalJSON (ID j) = (ib, None) ->
        RoleIDs j = Some (pre ++ v :: post) ->
        marshal_roles pre = Some rbs ->
        RoleID_MarshalJSON v = (b, Some e) ->
        MarshalJSON (Some j) = (None, Some e))
  /\ (forall ib rbs e,
        EmojiID_MarshalJSON (ID j) = (ib, None) ->
        marshal_roles (roles_of (RoleIDs j)) = Some rbs ->
        fails (User_MarshalJSONBuf (User_ j)) e ->
        MarshalJSON (Some j) = (None, Some e)).
Proof.
  split; [|split].
  - intros b e Hid. apply MarshalJSON_fails. unfold MarshalJSONBuf_fields.
    eapply fails_andThen_r; [apply writes_WriteString|].
    apply fails_andThen_l, fails_WriteMarshaled. rewrite Hid. reflexivity.
  - intros ib pre v post rbs b e Hid Hr Hm Hv.
    apply MarshalJSON_fails. unfold MarshalJSONBuf_fields.
    eapply fails_andThen_r; [apply writes_WriteString|].
    eapply fails_andThen_r; [apply (writes_WriteMarshaled _ ib); exact Hid|].
    eapply fails_andThen_r; [apply writes_WriteString|].
    eapply fails_andThen_r; [apply writes_WriteJsonString|].
    eapply fails_andThen_r; [apply writes_WriteByte|].
    apply fails_andThen_l. rewrite Hr.
    assert (L : negb (Nat.eqb (len_RoleIDs (Some (pre ++ v :: post))) 0) = true).
    { cbn [len_RoleIDs]. rewrite length_app. cbn [List.length].
      rewrite Nat.add_succ_r. reflexivity. }
    rewrite L.
    eapply fails_andThen_r; [apply writes_WriteString|].
    apply fails_andThen_l.
    eapply fails_andThen_r; [apply writes_WriteString|].
    apply fails_andThen_l.
    exact (write_RoleIDs_fails pre post v b e rbs Hm Hv 0).
  - intros ib rbs e Hid Hr Hu.
    apply MarshalJSON_fails. unfold MarshalJSONBuf_fields.
    eapply fails_andThen_r; [apply writes_WriteString|].
    eapply fails_andThen_r; [apply (writes_WriteMarshaled _ ib); exact Hid|].
    eapply fails_andThen_r; [apply writes_WriteString|].
    eapply fails_andThen_r; [apply writes_WriteJsonString|].
    eapply fails_andThen_r; [apply writes_WriteByte|].
    eapply fails_andThen_r; [apply (writes_roles _ rbs); exact Hr|].
    apply fails_andThen_l.
    eapply fails_andThen_r; [apply writes_WriteString|].
    apply fails_andThen_l. exact Hu.
Qed.

(** ** Commas in the roles array *)

Lemma RoleIDs_loop_elements_then (rbs : list bytes) (l : list N) :
  Forall2 (identifier_round_trip RoleID_UnmarshalJSON) rbs l ->
  l <> [] ->
  forall acc fs j fuel rest wantVal,
    RoleIDs j = Some acc ->
    reader fs = join (B ",") rbs ++ rest ->
    delimited rest ->
    (List.length (reader fs) < fuel)%nat ->
    exists fs' fuel',
      RoleIDs_loop fuel fs j wantVal
      = RoleIDs_loop fuel' fs' (set_RoleIDs j (Some (acc ++ l))) false
      /\ reader fs' = rest
      /\ (List.length (reader fs') < fuel')%nat.
Proof.
  induction 1 as [|rb v rbs l Hrt Hall IH]; intros Hne; [congruence|].
  clear Hne. intros acc fs j fuel rest wantVal Hacc Hr Hd Hf.
  destruct fuel as [|fuel]; [lia|].
  destruct Hall as [|rb2 v2 rbs l Hrt2 Hall].
  - cbn [join] in Hr.
    destruct (RoleIDs_loop_element rb v fs j acc fuel rest wantVal
                Hrt Hacc Hr Hd) as (fs1 & E & Hr1 & L1).
    exists fs1, fuel. split; [exact E|]. split; [exact Hr1 | lia].
  - change (join (B ",") (rb :: rb2 :: rbs))
      with (rb ++ B "," ++ join (B ",") (rb2 :: rbs)) in Hr.
    rewrite <- !app_assoc in Hr.
    destruct (RoleIDs_loop_element rb v fs j acc fuel _ wantVal
                Hrt Hacc Hr) as (fs1 & E & Hr1 & L1).
    { apply delimited_cons; auto. }
    rewrite E.
    destruct fuel as [|fuel]; [lia|].
    cbn [RoleIDs_loop]. rewrite (Scan_comma fs1 _ Hr1).
    cbn [FFTok_eqb Bool.eqb].
    set (fs2 := mkFFLexer _ _ _ _).
    destruct (IH ltac:(discriminate) (acc ++ [v]) fs2
                 (set_RoleIDs j (Some (acc ++ [v]))) fuel rest false
                 eq_refl eq_refl Hd) as (fs' & fuel' & E' & Hr' & L').
    { unfold fs2. cbn [reader]. rewrite Hr1 in L1.
      change (B "," ++ join (B ",") (rb2 :: rbs) ++ rest)
        with (","%char :: join (B ",") (rb2 :: rbs) ++ rest) in L1.
      cbn [List.length] in L1. lia. }
    exists fs', fuel'. split; [|split; [exact Hr' | exact L']].
    rewrite E', set_RoleIDs_twice, <- app_assoc. reflexivity.
Qed.

Lemma RoleIDs_loop_commas (n : nat) :
  forall fs j fuel rest,
    reader fs = repeat ","%char n ++ rest ->
    (List.length (reader fs) < fuel)%nat ->
    exists fs' fuel',
      RoleIDs_loop fuel fs j false = RoleIDs_loop fuel' fs' j false
      /\ reader fs' = rest
      /\ (List.length (reader fs') < fuel')%nat.
Proof.
  induction n as [|n IH]; intros fs j fuel rest Hr Hf.
  - exists fs, fuel. split; [reflexivity|]. split; [exact Hr | exact Hf].
  - destruct fuel as [|fuel]; [lia|].
    cbn [repeat app] in Hr.
    cbn [RoleIDs_loop]. rewrite (Scan_comma fs _ Hr).
    cbn [FFTok_eqb Bool.eqb].
    apply IH; [reflexivity|].
    cbn [reader]. rewrite Hr in Hf. cbn [List.length] in Hf. lia.
Qed.

(** X10. Commas in the roles array: an array that starts with a comma
    is refused with the wanted-value error, the receiver's roles by then
    replaced by the empty slice; after the elements, any number of
    commas before the closing bracket is accepted, and the roles are the
    elements read, whatever roles the receiver held. *)
Theorem roles_array_commas (j : Emoji) :
  (forall fs fs1,
      Scan fs = (FFTok_comma, fs1) ->
      handle_RoleIDs fs j FFTok_left_brace
      = Failed (set_RoleIDs j (Some []), fs1,
                Return (Some (WrapErr fs1 (Errorf_wanted_value FFTok_comma)))))
  /\ (forall rbs l n fs rest,
        Forall2 (identifier_round_trip RoleID_UnmarshalJSON) rbs l ->
        l <> [] ->
        reader fs = join (B ",") rbs ++ repeat ","%char n ++ B "]" ++ rest ->
        exists fs',
          handle_RoleIDs fs j FFTok_left_brace
          = Handled fs' (set_RoleIDs j (Some l))
          /\ reader fs' = rest).
Proof.
  split.
  - intros fs fs1 HS. unfold handle_RoleIDs. cbn [FFTok_eqb negb andb].
    cbn [RoleIDs_loop]. rewrite HS. reflexivity.
  - intros rbs l n fs rest Hall Hne Hr.
    unfold handle_RoleIDs. cbn [FFTok_eqb negb andb].
    destruct (RoleIDs_loop_elements_then rbs l Hall Hne [] fs
                (set_RoleIDs j (Some [])) (S (List.length (reader fs)))
                (repeat ","%char n ++ B "]" ++ rest) true eq_refl Hr)
      as (fs1 & fuel1 & E1 & Hr1 & L1); [|lia|].
    { destruct n; cbn [repeat app]; apply delimited_cons; auto. }
    rewrite E1, set_RoleIDs_twice. cbn [app].
    destruct (RoleIDs_loop_commas n fs1 (set_RoleIDs j (Some l)) fuel1
                (B "]" ++ rest) Hr1 L1) as (fs2 & fuel2 & E2 & Hr2 & L2).
    rewrite E2. destruct fuel2 as [|fuel2]; [lia|].
    cbn [RoleIDs_loop]. rewrite (Scan_right_brace fs2 rest Hr2).
    cbn [FFTok_eqb]. eexists. split; reflexivity.
Qed.

(** ** Keys in any case *)

Lemma ascii_lower_folds :
  forall c : ascii,
    implb (folded_byte (ascii_lower c))
          ((code c <? 128)
           && (fold_rune (code c) =? fold_rune (code (ascii_lower c)))) = true.
Proof. apply forall_byte. vm_compute. reflexivity. Qed.

Lemma fold_equal_lower (kn : bytes) :
  Forall (fun c => folded_byte c = true) (map ascii_lower kn) ->
  fold_equal (map ascii_lower kn) kn.
Proof.
  induction kn as [|c kn IH]; intros F; cbn [map] in *; [constructor|].
  inversion F as [|? ? Hc Ft]; subst.
  pose proof (ascii_lower_folds c) as G. rewrite Hc in G. cbn [implb] in G.
  apply Bool.andb_true_iff in G. destruct G as [G1 G2].
  apply N.ltb_lt in G1. apply N.eqb_eq in G2.
  constructor; rewrite ?(DecodeRune_ascii c kn G1); cbn [fst snd skipn].
  - discriminate.
  - exact G2.
  - exact (IH Ft).
Qed.

(** X11. Keys are matched in any case: incoming key bytes whose
    lower-case form (ASCII letters lowered, every other byte as it is)
    is the wire key of a field resolve to that field. *)
Theorem currentKey_of_ignores_case (k kn : bytes) (f : ffjtEmoji) :
  In (k, f) wire_keys ->
  map ascii_lower kn = k ->
  currentKey_of kn = f.
Proof.
  intros Hin <-.
  apply (currentKey_of_fold kn (map ascii_lower kn) f Hin).
  apply fold_equal_lower. exact (wire_keys_folded _ _ Hin).
Qed.

(** ** Decoding over a receiver that is not fresh *)




(** ** ASCII names *)

Lemma lexString_written (name : bytes) :
  Forall (fun c => code c < 128) name ->
  forall fuel r acc,
    (List.length name <= fuel)%nat ->
    lexString (WriteJson_loop fuel name ++ dq :: r) acc
    = (FFTok_string, rev acc ++ name, FFErr_e_ok, r).
Proof.
  induction 1 as [|b name Hb _ IH]; intros fuel r acc Hf.
  - destruct fuel; cbn [WriteJson_loop app lexString];
      rewrite app_nil_r; reflexivity.
  - destruct fuel as [|fuel]; [cbn [List.length] in Hf; lia|].
    cbn [WriteJson_loop]. unfold utf8.RuneSelf.
    pose proof Hb as Hb'. apply N.ltb_lt in Hb'. rewrite Hb'.
    rewrite <- app_assoc, (lexString_written_byte b Hb).
    rewrite IH by (cbn [List.length] in Hf; lia).
    cbn [rev]. rewrite <- app_assoc. reflexivity.
Qed.

(** X13. ASCII names survive the round trip: the string literal the
    encoder writes for a name of ASCII bytes, with its quotes,
    backslashes, control characters and the characters it escapes for
    HTML, is read back by the want-value state under the name key as the
    same bytes. *)
Theorem ascii_name_round_trip (name : bytes) (j : Emoji) :
  Forall (fun c => code c < 128) name ->
  name_round_trip name
  /\ value_decodes ffjtEmojiName (WriteJsonString [] name) j
                   (set_Name j name).
Proof.
  intros H.
  assert (R : name_round_trip name).
  { intros rest. unfold WriteJsonString, WriteJson, Buffer_WriteByte,
      Buffer_Write.
    cbn [app]. rewrite <- !app_assoc. cbn [app scan_token].
    change (is_space dq) with false. change (code dq =? 34) with true.
    cbv iota. exact (lexString_written name H _ rest [] (Nat.le_refl _)). }
  split; [exact R | exact (value_decodes_name name j R)].
Qed.

(** X15. Only its own key sets a field: when the key bytes resolve to a
    field, they are the wire key of that field up to simple case
    folding, rune by rune; no other key reaches a field's handler. *)
Theorem currentKey_of_sound (kn : bytes) (f : ffjtEmoji) :
  currentKey_of kn = f ->
  f <> ffjtEmojinosuchkey ->
  exists k, In (k, f) wire_keys /\ fold_equal k kn.
Proof.
  unfold currentKey_of.
  destruct (List.length kn <=? 0)%nat; [congruence|].
  destruct (exact_switch kn) as [k'|] eqn:E.
  - intros <- _. apply exact_switch_Some in E. exists kn.
    split; [exact E | exact (fold_equal_wire_key kn k' E)].
  - intros <- Hn. pose proof (fold_chain_spec kn) as S.
    destruct (fold_chain kn); try exact S. congruence.
Qed.

(** ** What follows the object *)

(** X16. What follows the object is not read: the encoding of an Emoji
    followed by any bytes whatever decodes, into a fresh receiver, to
    the same Emoji and without an error; [UnmarshalJSON] returns at the
    closing bracket and does not ask for the end of the input. *)
Theorem UnmarshalJSON_ignores_what_follows (j : Emoji) (u0 : User)
    (ib : bytes) (rbs : list bytes) (ub : bytes) (tail : bytes) :
  encodes_parts j ib rbs ub ->
  identifier_round_trip EmojiID_UnmarshalJSON ib (ID j) ->
  name_round_trip (Name j) ->
  Forall2 (identifier_round_trip RoleID_UnmarshalJSON) rbs
          (roles_of (RoleIDs j)) ->
  user_round_trip u0 (User_ j) ub ->
  exists out,
    MarshalJSON (Some j) = (Some out, None)
    /\ forall fuel, (33 <= fuel)%nat ->
         UnmarshalJSON fuel (fresh_Emoji u0) (out ++ tail)
         = Some (omitted_to_zero j, Return None).
Proof.
  intros Henc Hid Hname Hroles Huser.
  exists (json_object (Emoji_members j ib rbs ub)). split.
  - pose proof (MarshalJSONBuf_fields_form j ib rbs ub Henc) as W.
    unfold MarshalJSON, MarshalJSONBuf. rewrite W. reflexivity.
  - intros fuel Hfuel.
    pose proof (Emoji_items_decode j u0 ib rbs ub Hid Hname Hroles Huser)
      as Hdec.
    destruct (Emoji_items_length j ib rbs ub) as [Hlen Hne].
    set (fs0 := NewFFLexer (json_object (Emoji_members j ib rbs ub) ++ tail)).
    pose proof (Scan_left_bracket fs0
                  (" "%char :: (join (B ",") (Emoji_members j ib rbs ub)
                                ++ B "}") ++ tail) eq_refl) as S0.
    set (fs1 := mkFFLexer _ _ _ _) in S0.
    destruct (items_decode _ _ _ Hdec Hne fs1 ffjtEmojibase tail)
      as (fs' & Hrun).
    { unfold fs1. cbn [reader scan_token]. change (is_space " ") with true.
      cbv iota. rewrite Emoji_items_render, <- app_assoc. reflexivity. }
    unfold UnmarshalJSON, UnmarshalJSONFFLexer. fold fs0.
    rewrite (mainparse_mono (S (4 * List.length (Emoji_items j ib rbs ub)))
               _ (omitted_to_zero j, fs', Return None)); [reflexivity| |lia].
    cbn [mainparse].
    rewrite (step_map_start
               (mkConfig fs0 FFParse_map_start ffjtEmojibase (fresh_Emoji u0))
               fs1 eq_refl S0).
    exact Hrun.
Qed.

(** ** A call that fails *)

Lemma handle_ID_frame (fs : FFLexer) (j : Emoji) (tok : FFTok) :
  same_except ffjtEmojiID j (receiver_of (handle_ID fs j tok)).
Proof.
  unfold handle_ID. destruct (FFTok_eqb tok FFTok_null);
    [apply same_except_refl|].
  destruct (CaptureField fs tok) as [[fs1 tbuf] err].
  destruct err; [apply same_except_refl|].
  destruct (EmojiID_UnmarshalJSON (ID j) tbuf) as [id err].
  destruct err; frame_done.
Qed.

Lemma handle_Name_frame (fs : FFLexer) (j : Emoji) (tok : FFTok) :
  same_except ffjtEmojiName j (receiver_of (handle_Name fs j tok)).
Proof.
  unfold handle_Name.
  destruct (negb (FFTok_eqb tok FFTok_string) && negb (FFTok_eqb tok FFTok_null));
    [apply same_except_refl|].
  destruct (FFTok_eqb tok FFTok_null); [apply same_except_refl | frame_done].
Qed.

Lemma handle_RoleIDs_frame (fs : FFLexer) (j : Emoji) (tok : FFTok) :
  same_except ffjtEmojiRoleIDs j (receiver_of (handle_RoleIDs fs j tok)).
Proof.
  unfold handle_RoleIDs.
  destruct (negb (FFTok_eqb tok FFTok_left_brace)
            && negb (FFTok_eqb tok FFTok_null));
    [apply same_except_refl|].
  destruct (FFTok_eqb tok FFTok_null); [frame_done|].
  eapply same_except_trans; [|apply RoleIDs_loop_frame]. frame_done.
Qed.

Lemma handle_User_frame (fs : FFLexer) (j : Emoji) (tok : FFTok) :
  same_except ffjtEmojiUser j (receiver_of (handle_User fs j tok)).
Proof.
  unfold handle_User. destruct (FFTok_eqb tok FFTok_null);
    [apply same_except_refl|].
  destruct (User_UnmarshalJSONFFLexer (User_ j) fs FFParse_want_key)
    as [[u fs1] err].
  destruct err; frame_done.
Qed.

Lemma handle_bool_frame (k : ffjtEmoji) (set : Emoji -> bool -> Emoji)
    (fs : FFLexer) (j : Emoji) (tok : FFTok) :
  bool_field k = Some set ->
  same_except k j (receiver_of (handle_bool set fs j tok)).
Proof.
  intros Hk. unfold handle_bool.
  destruct (negb (FFTok_eqb tok FFTok_bool) && negb (FFTok_eqb tok FFTok_null));
    [apply same_except_refl|].
  destruct (FFTok_eqb tok FFTok_null); [apply same_except_refl|].
  destruct k; try discriminate Hk; injection Hk as <-;
    destruct (bytes_Equal (B "true") (Output fs)); try frame_done;
    destruct (bytes_Equal (B "false") (Output fs)); frame_done.
Qed.

Lemma handle_nosuchkey_frame (fs : FFLexer) (j : Emoji) (tok : FFTok) :
  receiver_of (handle_nosuchkey fs j tok) = j.
Proof.
  unfold handle_nosuchkey.
  destruct (SkipField fs tok) as [fs1 err]. destruct err; reflexivity.
Qed.

(** The receiver an iteration ends the call with: what the iterations
    before left, but for the field of the member it was reading. *)
Lemma step_Exit_frame (c : config) (j' : Emoji) (fs' : FFLexer) (x : exit) :
  step c = Exit (j', fs', x) ->
  (c_state c = FFParse_want_value ->
   same_except (c_currentKey c) (c_j c) j')
  /\ (c_state c <> FFParse_want_value -> j' = c_j c).
Proof.
  intros H. unfold step in H.
  destruct (Scan (c_fs c)) as [tok fs].
  destruct (FFTok_eqb tok FFTok_error).
  { pose proof (tokerror_receiver fs (c_j c)) as T.
    injection H as H. rewrite H in T. cbn [receiver_of] in T. subst j'.
    split; intros _; [apply same_except_refl | reflexivity]. }
  unfold wrongtokenerror, wantedvalue, return_wrapped in H.
  destruct (c_state c) eqn:St.
  1-4: split; [discriminate|]; intros _;
    repeat match type of H with
           | context [if ?b then _ else _] => destruct b
           end;
    try discriminate H; injection H as <- _ _; reflexivity.
  split; [intros _ | intros N; contradiction].
  destruct (value_token tok).
  2: { injection H as <- _ _. apply same_except_refl. }
  assert (A : forall h, after_handler c h = Exit (j', fs', x) ->
                        receiver_of h = j').
  { intros [fs0 j0|[[j0 fs0] x0]] E; cbn [after_handler] in E;
      [discriminate E | injection E as <- _ _; reflexivity]. }
  destruct (c_currentKey c); try discriminate H; apply A in H; rewrite <- H.
  - rewrite handle_nosuchkey_frame. apply same_except_refl.
  - apply handle_ID_frame.
  - apply handle_Name_frame.
  - apply handle_RoleIDs_frame.
  - apply handle_User_frame.
  - apply handle_bool_frame. reflexivity.
  - apply handle_bool_frame. reflexivity.
  - apply handle_bool_frame. reflexivity.
  - apply handle_bool_frame. reflexivity.
Qed.

(** C7, as the code has it.  A call that fails ends at the failing
    iteration and returns the error made there, unchanged.  The
    receiver is mutated in place and nothing is rolled back: after the
    failure the caller's Emoji is what the iterations before the
    failing one made of it, with every field they assigned, and only
    the field of the member that failed may have been changed further. *)
Theorem decode_error_aborts (fuel : nat) (j j' : Emoji) (input : bytes)
    (err : error) :
  UnmarshalJSON fuel j input = Some (j', Return (Some err)) ->
  exists n c' fs',
    (n < fuel)%nat
    /\ steps n (mkConfig (NewFFLexer input) FFParse_map_start ffjtEmojibase j)
             c'
    /\ step c' = Exit (j', fs', Return (Some err))
    /\ (c_state c' = FFParse_want_value ->
        same_except (c_currentKey c') (c_j c') j')
    /\ (c_state c' <> FFParse_want_value -> j' = c_j c').
Proof.
  unfold UnmarshalJSON, UnmarshalJSONFFLexer. intros H.
  destruct (mainparse fuel _) as [[[j1 fs1] e1]|] eqn:E; [|discriminate].
  injection H as -> ->.
  destruct (mainparse_exit _ _ _ E) as (n & c' & L & Hs & He).
  destruct (step_Exit_frame c' j' fs1 _ He) as [F1 F2].
  exists n, c', fs1. auto.
Qed.
End EmojiCodec.

(** * The codec on the stand-in collaborators

    The statements above at concrete inputs: the identifier codec is
    [Snowflake_MarshalJSON] / [Snowflake_UnmarshalJSON] and the user is
    the entity without fields. *)

Definition decode (fuel : nat) (j : Emoji NoUser) (input : bytes)
  : option (Emoji NoUser * exit) :=
  UnmarshalJSON NoUser Snowflake_UnmarshalJSON Snowflake_UnmarshalJSON
                NoUser_UnmarshalJSONFFLexer fuel j input.

Definition encode (j : option (Emoji NoUser)) : option bytes * option error :=
  MarshalJSON NoUser Snowflake_MarshalJSON Snowflake_MarshalJSON
              NoUser_MarshalJSONBuf j.

Definition step1 (c : config NoUser) : step_result NoUser :=
  step NoUser Snowflake_UnmarshalJSON Snowflake_UnmarshalJSON
       NoUser_UnmarshalJSONFFLexer c.

Definition run (fuel : nat) (c : config NoUser) : option (ended NoUser) :=
  mainparse NoUser Snowflake_UnmarshalJSON Snowflake_UnmarshalJSON
            NoUser_UnmarshalJSONFFLexer fuel c.

(** The receiver of a fresh decode: every field at its zero value. *)
Definition zero_Emoji : Emoji NoUser :=
  mkEmoji NoUser 0 [] None tt false false false false.

(** The emoji of the specification's scenario, with two roles. *)
Definition sample_Emoji : Emoji NoUser :=
  mkEmoji NoUser 41771983429993937 (B "test") (Some [1; 2]) tt
          true false true false.

(** The same with every boolean false and an empty role slice that is
    not nil. *)
Definition plain_Emoji : Emoji NoUser :=
  mkEmoji NoUser 41771983429993937 (B "test") (Some []) tt
          false false false false.

Lemma sample_encodes_parts :
  encodes_parts NoUser Snowflake_MarshalJSON Snowflake_MarshalJSON
    NoUser_MarshalJSONBuf sample_Emoji
    (quoted (B "41771983429993937")) [quoted (B "1"); quoted (B "2")] (B "{}").
Proof. repeat split. Qed.

Lemma plain_encodes_parts :
  encodes_parts NoUser Snowflake_MarshalJSON Snowflake_MarshalJSON
    NoUser_MarshalJSONBuf plain_Emoji
    (quoted (B "41771983429993937")) [] (B "{}").
Proof. repeat split. Qed.

Example currentKey_of_examples :
  currentKey_of (B "id") = ffjtEmojiID
  /\ currentKey_of (B "ID") = ffjtEmojiID
  /\ currentKey_of (B "Require_Colons") = ffjtEmojiRequireColons
  /\ currentKey_of ["u"%char; ascii_of_N 197; ascii_of_N 191; "e"%char;
                    "r"%char] = ffjtEmojiUser
  /\ currentKey_of (B "i_d") = ffjtEmojinosuchkey
  /\ currentKey_of [] = ffjtEmojinosuchkey.
Proof. repeat split. Qed.

Lemma MarshalJSON_nil_or_one_object_witness :
  encode (Some sample_Emoji)
  = (Some (json_object
             (Emoji_members NoUser sample_Emoji
                (quoted (B "41771983429993937"))
                [quoted (B "1"); quoted (B "2")] (B "{}"))), None).
Proof.
  exact (proj1 (proj2 (proj2 (MarshalJSON_nil_or_one_object NoUser
           Snowflake_MarshalJSON Snowflake_MarshalJSON NoUser_MarshalJSONBuf))
           sample_Emoji _ _ _ sample_encodes_parts)).
Defined.

Lemma MarshalJSON_omits_false_booleans_witness :
  encode (Some plain_Emoji)
  = (Some (json_object
             [member (B "id") (quoted (B "41771983429993937"));
              member (B "name") (quoted (B "test"));
              member (B "user") (B "{}")]), None).
Proof.
  exact (proj1 (MarshalJSON_omits_false_booleans NoUser
           Snowflake_MarshalJSON Snowflake_MarshalJSON NoUser_MarshalJSONBuf
           plain_Emoji _ _ _ plain_encodes_parts)
           eq_refl eq_refl eq_refl eq_refl).
Defined.

(** The want-value state under the roles key, before [null}]. *)
Definition at_roles_null : config NoUser :=
  mkConfig NoUser (NewFFLexer (B "null}")) FFParse_want_value
           ffjtEmojiRoleIDs sample_Emoji.

Lemma roles_omitted_and_null_accepted_witness :
  encode (Some plain_Emoji)
  = (Some (json_object
             [member (B "id") (quoted (B "41771983429993937"));
              member (B "name") (quoted (B "test"));
              member (B "user") (B "{}")]), None)
  /\ step1 at_roles_null
     = Continue NoUser
         (mkConfig NoUser (mkFFLexer (B "}") (B "null") FFErr_e_ok None)
                   FFParse_after_value ffjtEmojiRoleIDs
                   (set_RoleIDs NoUser sample_Emoji None)).
Proof.
  pose proof (roles_omitted_and_null_accepted NoUser
                Snowflake_MarshalJSON Snowflake_UnmarshalJSON
                Snowflake_MarshalJSON Snowflake_UnmarshalJSON
                NoUser_MarshalJSONBuf NoUser_UnmarshalJSONFFLexer) as [E D].
  split.
  - exact (E plain_Emoji _ _ _ plain_encodes_parts eq_refl).
  - exact (proj1 (D at_roles_null _ eq_refl eq_refl eq_refl)).
Defined.

(** The want-value state under the managed key, before [1}], a value
    token that is no boolean. *)
Definition at_managed_integer : config NoUser :=
  mkConfig NoUser (NewFFLexer (B "1}")) FFParse_want_value
           ffjtEmojiManaged zero_Emoji.

Lemma bool_field_decoding_witness :
  step1 at_managed_integer
  = Exit NoUser
      (zero_Emoji, mkFFLexer (B "}") (B "1") FFErr_e_ok None,
       Return (Some (LexerError
                       (Errorf_cannot_unmarshal FFTok_integer "bool")))).
Proof.
  refine (proj1 (proj1 (proj2 (bool_field_decoding NoUser
            Snowflake_UnmarshalJSON Snowflake_UnmarshalJSON
            NoUser_UnmarshalJSONFFLexer
            at_managed_integer ffjtEmojiManaged (set_Managed NoUser)
            FFTok_integer (mkFFLexer (B "}") (B "1") FFErr_e_ok None)
            eq_refl eq_refl eq_refl eq_refl _)) eq_refl _ _));
    discriminate.
Defined.

(** C4 as stated fails here: under the managed key the closing bracket,
    a token that is neither a boolean nor null, ends the call with the
    "wanted value token" error of the state machine, which is
    structural, and not with the type mismatch of the handler. *)
Lemma bool_field_structural_error :
  decode 10 zero_Emoji ("{"%char :: quoted (B "managed") ++ B ":}")
  = Some (zero_Emoji,
          Return (Some (LexerError (Errorf_wanted_value FFTok_right_bracket))))
  /\ FFTok_right_bracket <> FFTok_bool
  /\ FFTok_right_bracket <> FFTok_null
  /\ kind_of (LexerError (Errorf_wanted_value FFTok_right_bracket))
     <> type_mismatch.
Proof. repeat split; discriminate. Qed.

(** The want-key state before a member with a key no field has and a
    nested value. *)
Definition unknown_member_value : bytes :=
  B "[1,{" ++ quoted (B "a") ++ B ":[]}]".

Definition at_unknown_member : config NoUser :=
  mkConfig NoUser
    (NewFFLexer (quoted (B "zzz") ++ B ":" ++ unknown_member_value ++ B "}"))
    FFParse_want_key ffjtEmojibase sample_Emoji.

Definition unknown_member_tokens : list FFTok :=
  [FFTok_left_brace; FFTok_integer; FFTok_comma;
   FFTok_left_bracket; FFTok_string; FFTok_colon;
   FFTok_left_brace; FFTok_right_brace;
   FFTok_right_bracket; FFTok_right_brace].

Lemma unknown_member_tokens_value : json_value unknown_member_tokens.
Proof.
  apply (jv_array
           ([FFTok_integer] ++ FFTok_comma ::
            [FFTok_left_bracket; FFTok_string; FFTok_colon;
             FFTok_left_brace; FFTok_right_brace; FFTok_right_bracket])).
  apply je_more; [apply jv_scalar; reflexivity|].
  apply je_one.
  apply (jv_object [FFTok_string; FFTok_colon;
                    FFTok_left_brace; FFTok_right_brace]).
  apply jm_one. apply jv_array_empty.
Qed.

Lemma unknown_key_ignored_witness :
  run (3 + 1) at_unknown_member
  = run 1
      (mkConfig NoUser (mkFFLexer (B "}") [] FFErr_e_ok None)
                FFParse_after_value ffjtEmojinosuchkey sample_Emoji).
Proof.
  refine (proj2 (unknown_key_ignored NoUser
            Snowflake_UnmarshalJSON Snowflake_UnmarshalJSON
            NoUser_UnmarshalJSONFFLexer
            at_unknown_member
            (mkFFLexer (B ":" ++ unknown_member_value ++ B "}") (B "zzz")
                       FFErr_e_ok None)
            (mkFFLexer (unknown_member_value ++ B "}") [] FFErr_e_ok None)
            (mkFFLexer (B "}") [] FFErr_e_ok None)
            unknown_member_tokens
            eq_refl eq_refl eq_refl eq_refl unknown_member_tokens_value _)
            1%nat).
  unfold unknown_member_tokens.
  repeat (eapply scans_cons; [vm_compute; reflexivity|]).
  apply scans_nil.
Defined.

(** The want-key state before a member whose key is the empty
    string. *)
Definition at_empty_key : config NoUser :=
  mkConfig NoUser (NewFFLexer (quoted [] ++ B ":true}"))
           FFParse_want_key ffjtEmojibase sample_Emoji.

Lemma empty_key_ignored_witness :
  run (3 + 1) at_empty_key
  = run 1
      (mkConfig NoUser (mkFFLexer (B "}") (B "true") FFErr_e_ok None)
                FFParse_after_value ffjtEmojinosuchkey sample_Emoji).
Proof.
  refine (proj2 (proj2 (empty_key_ignored NoUser
            Snowflake_UnmarshalJSON Snowflake_UnmarshalJSON
            NoUser_UnmarshalJSONFFLexer
            at_empty_key
            (mkFFLexer (B ":true}") [] FFErr_e_ok None)
            (mkFFLexer (B "true}") [] FFErr_e_ok None)
            (mkFFLexer (B "}") (B "true") FFErr_e_ok None)
            [FFTok_bool]
            eq_refl eq_refl eq_refl eq_refl
            (jv_scalar FFTok_bool eq_refl) _)) 1%nat).
  eapply scans_cons; [vm_compute; reflexivity | apply scans_nil].
Defined.

(** An object whose name is read before a value of the wrong type for
    the managed field. *)
Definition name_then_bad_managed : bytes :=
  "{"%char :: quoted (B "name") ++ B ":" ++ quoted (B "x") ++ B ","
  ++ quoted (B "managed") ++ B ":1}".

(** C7 as stated fails here: the call fails at the managed member, and
    the receiver the caller passed holds the name read before it. *)
Lemma decode_failure_keeps_assigned_fields :
  decode 20 zero_Emoji name_then_bad_managed
  = Some (set_Name NoUser zero_Emoji (B "x"),
          Return (Some (LexerError
                          (Errorf_cannot_unmarshal FFTok_integer "bool"))))
  /\ Name NoUser (set_Name NoUser zero_Emoji (B "x")) <> Name NoUser zero_Emoji.
Proof. split; [vm_compute; reflexivity | discriminate]. Qed.

Lemma decode_error_aborts_witness :
  exists n c' fs',
    (n < 20)%nat
    /\ steps NoUser Snowflake_UnmarshalJSON Snowflake_UnmarshalJSON
             NoUser_UnmarshalJSONFFLexer n
             (mkConfig NoUser (NewFFLexer name_then_bad_managed)
                       FFParse_map_start ffjtEmojibase zero_Emoji) c'
    /\ step1 c'
       = Exit NoUser
           (set_Name NoUser zero_Emoji (B "x"), fs',
            Return (Some (LexerError
                            (Errorf_cannot_unmarshal FFTok_integer "bool"))))
    /\ (c_state NoUser c' = FFParse_want_value ->
        same_except NoUser (c_currentKey NoUser c') (c_j NoUser c')
                    (set_Name NoUser zero_Emoji (B "x")))
    /\ (c_state NoUser c' <> FFParse_want_value ->
        set_Name NoUser zero_Emoji (B "x") = c_j NoUser c').
Proof.
  apply (decode_error_aborts NoUser
           Snowflake_UnmarshalJSON Snowflake_UnmarshalJSON
           NoUser_UnmarshalJSONFFLexer 20 zero_Emoji
           (set_Name NoUser zero_Emoji (B "x")) name_then_bad_managed
           (LexerError (Errorf_cannot_unmarshal FFTok_integer "bool"))).
  vm_compute. reflexivity.
Defined.

Ltac plain_bytes :=
  repeat (constructor; [repeat split; reflexivity|]); constructor.

(** The stand-in collaborators read back what they write. *)
Lemma Snowflake_round_trip_1 :
  identifier_round_trip Snowflake_UnmarshalJSON (quoted (B "1")) 1.
Proof.
  exists FFTok_string, (B "1"). split; [reflexivity|]. split.
  - intros rest _. apply scan_token_quoted. plain_bytes.
  - right. split; [discriminate | reflexivity].
Qed.

Lemma Snowflake_round_trip_2 :
  identifier_round_trip Snowflake_UnmarshalJSON (quoted (B "2")) 2.
Proof.
  exists FFTok_string, (B "2"). split; [reflexivity|]. split.
  - intros rest _. apply scan_token_quoted. plain_bytes.
  - right. split; [discriminate | reflexivity].
Qed.

Lemma Snowflake_round_trip_sample :
  identifier_round_trip Snowflake_UnmarshalJSON
    (quoted (B "41771983429993937")) 41771983429993937.
Proof.
  exists FFTok_string, (B "41771983429993937"). split; [reflexivity|]. split.
  - intros rest _. apply scan_token_quoted. plain_bytes.
  - right. split; [discriminate | vm_compute; reflexivity].
Qed.

Lemma name_round_trip_test : name_round_trip (B "test").
Proof.
  intros rest. apply (scan_token_quoted (B "test") rest).
  plain_bytes.
Qed.

Lemma test_valid_utf8 : valid_utf8 (B "test").
Proof. apply ascii_valid_utf8. repeat constructor. Qed.

(** Names beyond ASCII are valid UTF-8 too: two, three and four bytes,
    the line separator among them. *)
Example valid_utf8_examples :
  valid_utf8 [ascii_of_N 195; ascii_of_N 169]
  /\ valid_utf8 [ascii_of_N 226; ascii_of_N 128; ascii_of_N 168]
  /\ valid_utf8 [ascii_of_N 240; ascii_of_N 159; ascii_of_N 152;
                 ascii_of_N 128].
Proof.
  repeat split;
    (eapply valid_utf8_rune;
     [discriminate | vm_compute; reflexivity
     | intros [_ E]; discriminate E | apply valid_utf8_nil]).
Qed.

Lemma NoUser_round_trip :
  user_round_trip NoUser NoUser_UnmarshalJSONFFLexer tt tt (B "{}").
Proof.
  intros fs rest Hr _.
  pose proof (Scan_left_bracket fs ("}"%char :: rest) Hr) as S1.
  set (fs1 := mkFFLexer _ _ _ _) in S1.
  pose proof (Scan_right_bracket fs1 rest eq_refl) as S2.
  exists FFTok_left_bracket, fs1. eexists.
  split; [exact S1|]. split; [reflexivity|]. split; [discriminate|].
  split.
  - unfold NoUser_UnmarshalJSONFFLexer. rewrite S2. reflexivity.
  - reflexivity.
Qed.

Lemma MarshalJSON_UnmarshalJSON_round_trip_witness :
  exists out,
    encode (Some sample_Emoji) = (Some out, None)
    /\ forall fuel, (33 <= fuel)%nat ->
         decode fuel zero_Emoji out = Some (sample_Emoji, Return None).
Proof.
  exact (MarshalJSON_UnmarshalJSON_round_trip NoUser
           Snowflake_MarshalJSON Snowflake_UnmarshalJSON
           Snowflake_MarshalJSON Snowflake_UnmarshalJSON
           NoUser_MarshalJSONBuf NoUser_UnmarshalJSONFFLexer
           sample_Emoji tt
           (quoted (B "41771983429993937"))
           [quoted (B "1"); quoted (B "2")] (B "{}")
           sample_encodes_parts Snowflake_round_trip_sample
           test_valid_utf8
           (Forall2_cons _ _ Snowflake_round_trip_1
              (Forall2_cons _ _ Snowflake_round_trip_2 (Forall2_nil _)))
           NoUser_round_trip).
Defined.

(** A name that is not valid UTF-8: the single byte 0xFF. *)
Definition invalid_name : bytes := [ascii_of_N 255].

Definition invalid_name_Emoji : Emoji NoUser :=
  mkEmoji NoUser 41771983429993937 invalid_name None tt
          false false false false.

(** The name the decoder gives back for it: U+FFFD in UTF-8. *)
Definition replaced_name : bytes :=
  [ascii_of_N 239; ascii_of_N 191; ascii_of_N 189].

(** C1 as stated fails here.  The decoder itself produces an Emoji
    whose name is the byte 0xFF, since the lexer takes the bytes of a
    string as they are; the identifier and the user of
    [invalid_name_Emoji] are round-tripped by their codecs; the encoder
    writes the name as the escape of U+FFFD, and decoding its output
    into a fresh Emoji gives a name of three other bytes. *)
Lemma invalid_name_not_preserved :
  decode 20 zero_Emoji
    ("{"%char :: quoted (B "name") ++ B ":" ++ quoted invalid_name ++ B "}")
  = Some (set_Name NoUser zero_Emoji invalid_name, Return None)
  /\ encodes_parts NoUser Snowflake_MarshalJSON Snowflake_MarshalJSON
       NoUser_MarshalJSONBuf invalid_name_Emoji
       (quoted (B "41771983429993937")) [] (B "{}")
  /\ identifier_round_trip Snowflake_UnmarshalJSON
       (quoted (B "41771983429993937")) (ID NoUser invalid_name_Emoji)
  /\ user_round_trip NoUser NoUser_UnmarshalJSONFFLexer tt
       (User_ NoUser invalid_name_Emoji) (B "{}")
  /\ ~ valid_utf8 (Name NoUser invalid_name_Emoji)
  /\ exists out,
       encode (Some invalid_name_Emoji) = (Some out, None)
       /\ decode 33 zero_Emoji out
          = Some (set_Name NoUser invalid_name_Emoji replaced_name,
                  Return None)
       /\ Name NoUser (set_Name NoUser invalid_name_Emoji replaced_name)
          <> Name NoUser invalid_name_Emoji.
Proof.
  split; [vm_compute; reflexivity|].
  split; [repeat split|].
  split; [exact Snowflake_round_trip_sample|].
  split; [exact NoUser_round_trip|].
  split.
  - intros V. inversion V as [|s r size Hs Hd Hn Hr]; subst.
    apply Hn. vm_compute in Hd. injection Hd as <- <-. split; reflexivity.
  - eexists. split; [vm_compute; reflexivity|].
    split; [vm_compute; reflexivity | discriminate].
Qed.

(** * Sticker.TagList *)

(** ** strings.Split *)

Lemma IndexByte_None (s : bytes) (sep : ascii) :
  strings.IndexByte s sep = None -> ~ In sep s.
Proof.
  induction s as [|c s IH]; simpl; [tauto|].
  destruct (byte_eqb c sep) eqn:E; [discriminate|].
  destruct (strings.IndexByte s sep); [discriminate|].
  intros _ [H|H]; [|exact (IH eq_refl H)].
  subst. rewrite byte_eqb_refl in E. discriminate.
Qed.

Lemma IndexByte_Some (s : bytes) (sep : ascii) :
  forall m,
    strings.IndexByte s sep = Some m ->
    s = firstn m s ++ sep :: skipn (m + 1) s /\ ~ In sep (firstn m s).
Proof.
  induction s as [|c s IH]; intros m; simpl; [discriminate|].
  destruct (byte_eqb c sep) eqn:E.
  - intros H. injection H as <-. apply byte_eqb_eq in E. subst.
    simpl. split; [reflexivity | tauto].
  - destruct (strings.IndexByte s sep) as [m'|]; [|discriminate].
    intros H. injection H as <-. destruct (IH m' eq_refl) as [H1 H2].
    simpl. split; [f_equal; exact H1|].
    intros [H|H]; [|exact (H2 H)].
    subst. rewrite byte_eqb_refl in E. discriminate.
Qed.

Lemma Count_app (a b : bytes) (sep : ascii) :
  strings.Count (a ++ b) sep = (strings.Count a sep + strings.Count b sep)%nat.
Proof. unfold strings.Count. rewrite filter_app, length_app. reflexivity. Qed.

Lemma Count_absent (a : bytes) (sep : ascii) :
  ~ In sep a -> strings.Count a sep = O.
Proof.
  unfold strings.Count. induction a as [|c a IH]; intros H; [reflexivity|].
  simpl. destruct (byte_eqb sep c) eqn:E.
  - apply byte_eqb_eq in E. subst. exfalso. apply H. left. reflexivity.
  - apply IH. intros H'. apply H. right. exact H'.
Qed.

Lemma Count_present (s : bytes) (sep : ascii) :
  strings.IndexByte s sep = None -> strings.Count s sep = O.
Proof. intros H. apply Count_absent, IndexByte_None, H. Qed.

(** The cuts of [genSplit] when their number is the number of
    separators: joining the pieces gives the string back, no piece holds
    a separator, and there is one piece more than separators. *)
Lemma genSplit_loop_spec (sep : ascii) (n : nat) :
  forall s,
    strings.Count s sep = n ->
    join [sep] (strings.genSplit_loop n s sep) = s
    /\ Forall (fun seg => ~ In sep seg) (strings.genSplit_loop n s sep)
    /\ List.length (strings.genSplit_loop n s sep) = S n.
Proof.
  induction n as [|n IH]; intros s Hc.
  - cbn [strings.genSplit_loop]. split; [|split]; [reflexivity| |reflexivity].
    constructor; [|constructor].
    intros H. unfold strings.Count in Hc.
    induction s as [|c s IHs]; [exact H|].
    simpl in Hc. destruct (byte_eqb sep c) eqn:E; [discriminate|].
    destruct H as [H|H]; [|exact (IHs Hc H)].
    subst. rewrite byte_eqb_refl in E. discriminate.
  - cbn [strings.genSplit_loop].
    destruct (strings.IndexByte s sep) as [m|] eqn:E.
    + destruct (IndexByte_Some s sep m E) as [Hs Hno].
      assert (Hc' : strings.Count (skipn (m + 1) s) sep = n).
      { rewrite Hs in Hc.
        change (sep :: skipn (m + 1) s) with ([sep] ++ skipn (m + 1) s) in Hc.
        rewrite !Count_app, (Count_absent _ _ Hno) in Hc.
        unfold strings.Count at 1 in Hc. simpl in Hc.
        rewrite byte_eqb_refl in Hc. simpl in Hc. lia. }
      destruct (IH _ Hc') as (J & F & L).
      split; [|split].
      * destruct (strings.genSplit_loop n (skipn (m + 1) s) sep) as [|x l]
          eqn:G; [discriminate L|].
        change (join [sep] (firstn m s :: x :: l))
          with (firstn m s ++ [sep] ++ join [sep] (x :: l)).
        rewrite J. symmetry. exact Hs.
      * constructor; assumption.
      * simpl. rewrite L. reflexivity.
    + rewrite (Count_present s sep E) in Hc. discriminate.
Qed.

Theorem Split_pieces (s : bytes) (sep : ascii) :
  join [sep] (strings.Split s sep) = s
  /\ Forall (fun seg => ~ In sep seg) (strings.Split s sep)
  /\ List.length (strings.Split s sep) = S (strings.Count s sep).
Proof. apply genSplit_loop_spec. reflexivity. Qed.

(** ** utf8.DecodeRune *)

Ltac decode_cases H :=
  repeat match type of H with
         | context [if ?b then _ else _] => destruct b eqn:?
         end.

Ltac decode_goal :=
  repeat match goal with
         | E : ?b = _ |- context [if ?b then _ else _] => rewrite E
         end.

Lemma IsSpace_RuneError : unicode.IsSpace utf8.RuneError = false.
Proof. reflexivity. Qed.

(** A decoding that succeeded reads only the bytes of its width. *)
Lemma DecodeRune_firstn (p : bytes) (r : N) (n : nat) :
  utf8.DecodeRune p = (r, n) ->
  r <> utf8.RuneError \/ (2 <= n)%nat ->
  (1 <= n)%nat /\ (n <= List.length p)%nat
  /\ utf8.DecodeRune (firstn n p) = (r, n).
Proof.
  intros H V.
  destruct p as [|p0 [|p1 [|p2 [|p3 tl]]]];
    unfold utf8.DecodeRune in H |- *; cbv zeta in H |- *;
    decode_cases H; injection H as <- <-;
    try (exfalso; destruct V as [V|V]; [apply V; reflexivity | lia]);
    cbn [firstn List.length]; decode_goal;
    (split; [lia | split; [lia | reflexivity]]).
Qed.

(** A decoding that succeeded on the whole of [a] is not changed by
    bytes after [a]. *)
Lemma DecodeRune_app (a b : bytes) (r : N) :
  utf8.DecodeRune a = (r, List.length a) ->
  r <> utf8.RuneError \/ (2 <= List.length a)%nat ->
  utf8.DecodeRune (a ++ b) = (r, List.length a).
Proof.
  intros H V.
  destruct a as [|p0 [|p1 [|p2 [|p3 tl]]]];
    unfold utf8.DecodeRune in H |- *; cbv zeta in H |- *;
    cbn [List.length app] in H, V |- *;
    decode_cases H; injection H; intros; try discriminate; subst r;
    try (exfalso; destruct V as [V|V]; [apply V; reflexivity | lia]);
    decode_goal; try reflexivity; assumption.
Qed.

(** The first rune of a prefix is the first rune of the string, or the
    prefix cuts it and its first rune is the error rune. *)
Lemma DecodeRune_prefix (t : bytes) (k : nat) :
  utf8.DecodeRune (firstn k t) = utf8.DecodeRune t
  \/ fst (utf8.DecodeRune (firstn k t)) = utf8.RuneError.
Proof.
  destruct k as [|[|[|[|k]]]];
    destruct t as [|p0 [|p1 [|p2 [|p3 tl]]]];
    cbn [firstn]; try (left; reflexivity); try (right; reflexivity);
    unfold utf8.DecodeRune; cbv zeta;
    repeat match goal with
           | |- context [if ?b then _ else _] => destruct b eqn:?
           end;
    try (left; reflexivity); try (right; reflexivity).
Qed.

Lemma DecodeRune_prefix_not_space (t : bytes) (k : nat) :
  unicode.IsSpace (fst (utf8.DecodeRune t)) = false ->
  unicode.IsSpace (fst (utf8.DecodeRune (firstn k t))) = false.
Proof.
  intros H. destruct (DecodeRune_prefix t k) as [E|E]; rewrite E;
    [exact H | reflexivity].
Qed.

(** A byte that is not ASCII, followed by nothing or by a byte that
    continues no rune, decodes with width 1. *)
Lemma DecodeRune_lone (b : ascii) (rest : bytes) :
  match rest with [] => True | c :: _ => utf8.is_cont c = false end ->
  snd (utf8.DecodeRune (b :: rest)) = 1%nat.
Proof.
  intros Hc.
  assert (R : forall lo hi c,
             utf8.is_cont c = false -> 128 <= lo -> hi <= 191 ->
             utf8.in_range lo hi c = false).
  { intros lo hi c E Hlo Hhi. unfold utf8.is_cont in E. unfold utf8.in_range.
    apply Bool.andb_false_iff in E. apply Bool.andb_false_iff.
    destruct E as [E|E]; [left|right];
      apply N.leb_gt in E; apply N.leb_gt; lia. }
  destruct rest as [|p1 [|p2 [|p3 tl]]];
    unfold utf8.DecodeRune; cbv zeta;
    try rewrite Hc;
    repeat rewrite (R _ _ _ Hc) by (destruct (code b =? _); lia);
    cbn [negb];
    repeat match goal with
           | |- context [if ?b then _ else _] => destruct b eqn:?
           end;
    reflexivity.
Qed.

Lemma DecodeRune_single (c : ascii) :
  128 <= code c -> utf8.DecodeRune [c] = (utf8.RuneError, 1%nat).
Proof.
  intros H. unfold utf8.DecodeRune. cbv zeta.
  destruct (code c <? 128) eqn:E; [apply N.ltb_lt in E; lia|].
  repeat match goal with
         | |- context [if ?b then _ else _] => destruct b
         end; reflexivity.
Qed.

(** A decoding of width two or more starts at a byte that is not
    ASCII. *)
Lemma DecodeRune_wide_head (p : bytes) (r : N) (n : nat) :
  utf8.DecodeRune p = (r, n) -> (2 <= n)%nat ->
  exists c tl, p = c :: tl /\ 128 <= code c.
Proof.
  intros H Hn. destruct p as [|c tl].
  - injection H as _ <-. lia.
  - exists c, tl. split; [reflexivity|].
    destruct (code c <? 128) eqn:E; [|apply N.ltb_ge in E; exact E].
    apply N.ltb_lt in E. rewrite (DecodeRune_ascii c tl E) in H.
    injection H as _ <-. lia.
Qed.

(** ** White space runs *)

Lemma space_run_app (a b : bytes) :
  space_run a -> space_run b -> space_run (a ++ b).
Proof.
  intros Ha Hb. induction Ha as [|enc rest r Hne Hd Hs Hr IH]; [exact Hb|].
  rewrite <- app_assoc. exact (space_run_cons enc _ r Hne Hd Hs IH).
Qed.

Lemma space_run_one (enc : bytes) (r : N) :
  enc <> [] -> utf8.DecodeRune enc = (r, List.length enc) ->
  unicode.IsSpace r = true -> space_run enc.
Proof.
  intros Hne Hd Hs. rewrite <- (app_nil_r enc).
  exact (space_run_cons enc [] r Hne Hd Hs space_run_nil).
Qed.

Lemma space_run_byte (c : ascii) :
  code c < 128 -> strings.asciiSpace c = true -> space_run [c].
Proof.
  intros H A. apply (space_run_one [c] (code c)); [discriminate| |].
  - exact (DecodeRune_ascii c [] H).
  - revert H A. generalize c.
    assert (G : forall c0, (negb (code c0 <? 128) || negb (strings.asciiSpace c0)
                            || unicode.IsSpace (code c0)) = true)
      by (apply forall_byte; vm_compute; reflexivity).
    intros c0 H A. specialize (G c0). apply N.ltb_lt in H.
    rewrite H, A in G. exact G.
Qed.

Lemma ascii_not_space (c : ascii) :
  code c < 128 -> strings.asciiSpace c = false ->
  unicode.IsSpace (code c) = false.
Proof.
  assert (G : forall c0, (negb (code c0 <? 128) || strings.asciiSpace c0
                          || negb (unicode.IsSpace (code c0))) = true)
    by (apply forall_byte; vm_compute; reflexivity).
  intros H A. specialize (G c). apply N.ltb_lt in H.
  rewrite H, A in G. simpl in G. apply Bool.negb_true_iff. exact G.
Qed.

(** A white space run starts with no continuation byte. *)
Lemma space_run_head (rest : bytes) :
  space_run rest ->
  match rest with [] => True | c :: _ => utf8.is_cont c = false end.
Proof.
  intros H. destruct H as [|enc rest r Hne Hd Hs Hr]; [exact I|].
  destruct enc as [|c enc]; [contradiction|].
  cbn [app]. destruct (utf8.is_cont c) eqn:E; [|reflexivity].
  exfalso. unfold utf8.is_cont in E. apply Bool.andb_true_iff in E.
  destruct E as [E1 E2]. apply N.leb_le in E1, E2.
  unfold utf8.DecodeRune in Hd. cbv zeta in Hd.
  destruct (code c <? 128) eqn:A; [apply N.ltb_lt in A; lia|].
  destruct (194 <=? code c) eqn:A1; [apply N.leb_le in A1; lia|].
  destruct (224 <=? code c) eqn:A2; [apply N.leb_le in A2; lia|].
  destruct (240 <=? code c) eqn:A3; [apply N.leb_le in A3; lia|].
  cbn [andb] in Hd. injection Hd as <- _. discriminate Hs.
Qed.

(** ** utf8.DecodeLastRuneInString *)

Lemma back_search_le (fuel : nat) (p : bytes) (lim : Z) :
  forall start, (strings.back_search fuel p start lim <= start)%Z.
Proof.
  induction fuel as [|fuel IH]; intros start; cbn [strings.back_search]; [lia|].
  destruct (lim <=? start)%Z; [|lia].
  destruct (strings.RuneStart _); [lia|].
  specialize (IH (start - 1)%Z). lia.
Qed.

(** What the last rune of [q ++ [c]] is: the byte [c] when it is ASCII;
    else a rune of two bytes or more that decodes from where it starts
    to the end of the string; else the error rune with width 1. *)
Lemma DecodeLastRune_cases (q : bytes) (c : ascii) (r : N) (size : nat) :
  strings.DecodeLastRune (q ++ [c]) = (r, size) ->
  (code c < 128 /\ r = code c /\ size = 1%nat)
  \/ (128 <= code c /\ r = utf8.RuneError /\ size = 1%nat)
  \/ (128 <= code c /\ (2 <= size <= S (List.length q))%nat
      /\ utf8.DecodeRune (skipn (S (List.length q) - size) (q ++ [c]))
         = (r, size)).
Proof.
  unfold strings.DecodeLastRune.
  rewrite length_app. cbn [List.length].
  replace (Z.of_nat (List.length q + 1)) with (Z.of_nat (List.length q) + 1)%Z
    by lia.
  destruct (Z.of_nat (List.length q) + 1 =? 0)%Z eqn:E0; [lia|]. clear E0.
  replace (Z.to_nat (Z.of_nat (List.length q) + 1 - 1)) with (List.length q)
    by lia.
  rewrite nth_middle.
  unfold utf8.RuneSelf.
  destruct (code c <? 128) eqn:A.
  { intros H. injection H as <- <-. left. apply N.ltb_lt in A. auto. }
  apply N.ltb_ge in A.
  set (lim := (if (Z.of_nat (List.length q) + 1 - 4 <? 0)%Z then 0%Z
               else (Z.of_nat (List.length q) + 1 - 4)%Z)).
  pose proof (back_search_le (List.length q + 1) (q ++ [c]) lim
                (Z.of_nat (List.length q) + 1 - 1 - 1)%Z) as Hle.
  set (st := strings.back_search (List.length q + 1) (q ++ [c])
               (Z.of_nat (List.length q) + 1 - 1 - 1)%Z lim) in *.
  set (start := (if (st <? 0)%Z then 0%Z else st)).
  assert (Hs : (0 <= start <= Z.of_nat (List.length q))%Z).
  { unfold start. destruct (st <? 0)%Z eqn:E; [lia|].
    apply Z.ltb_ge in E. lia. }
  clearbody start. clear Hle st lim.
  destruct (utf8.DecodeRune (skipn (Z.to_nat start) (q ++ [c])))
    as [r' size'] eqn:D.
  destruct (start + Z.of_nat size' =? Z.of_nat (List.length q) + 1)%Z eqn:E;
    cbn [negb]; intros H; injection H as <- <-.
  2: { right. left. auto. }
  apply Z.eqb_eq in E.
  assert (Es : Z.to_nat start = (S (List.length q) - size')%nat) by lia.
  rewrite Es in D.
  destruct (Nat.le_gt_cases 2 size') as [G|G].
  - right. right. split; [exact A|]. split; [lia|]. exact D.
  - assert (size' = 1%nat) by lia. subst size'.
    replace (S (List.length q) - 1)%nat with (List.length q + 0)%nat in D by lia.
    rewrite skipn_app, Nat.add_comm, skipn_all2 in D by lia.
    replace (0 + List.length q - List.length q)%nat with O in D by lia.
    cbn [skipn app] in D. rewrite (DecodeRune_single c A) in D.
    injection D as <-. right. left. auto.
Qed.

(** A white space rune found last in [p] is encoded by the last [size]
    bytes of [p]. *)
Lemma DecodeLastRune_space (p : bytes) (r : N) (size : nat) :
  p <> [] ->
  strings.DecodeLastRune p = (r, size) ->
  unicode.IsSpace r = true ->
  (1 <= size <= List.length p)%nat
  /\ utf8.DecodeRune (skipn (List.length p - size) p) = (r, size).
Proof.
  intros Hne H Hs.
  destruct (exists_last Hne) as (q & c & ->).
  rewrite length_app. cbn [List.length].
  replace (List.length q + 1)%nat with (S (List.length q)) by lia.
  destruct (DecodeLastRune_cases q c r size H)
    as [(A & -> & ->) | [(A & -> & ->) | (A & B & D)]].
  - split; [lia|].
    replace (S (List.length q) - 1)%nat with (List.length q + 0)%nat by lia.
    rewrite skipn_app, Nat.add_comm, skipn_all2 by lia.
    replace (0 + List.length q - List.length q)%nat with O by lia.
    cbn [skipn app]. exact (DecodeRune_ascii c [] A).
  - discriminate Hs.
  - split; [lia | exact D].
Qed.

Lemma skipn_before (s : bytes) (i size : nat) :
  (size <= i <= List.length s)%nat ->
  skipn (i - size) s = skipn (i - size) (firstn i s) ++ skipn i s.
Proof.
  intros H. rewrite <- (firstn_skipn i s) at 1.
  rewrite skipn_app, length_firstn.
  replace (i - size - Nat.min i (List.length s))%nat with O by lia.
  reflexivity.
Qed.

Lemma skipn_length_app (q l : bytes) : skipn (List.length q) (q ++ l) = l.
Proof. induction q as [|x q IH]; [reflexivity | exact IH]. Qed.

Lemma nth_skipn_head (n : nat) :
  forall (s : bytes) (c : ascii) (tl : bytes),
    skipn n s = c :: tl -> nth n s zero = c.
Proof.
  induction n as [|n IH]; intros s c tl H; destruct s as [|x s];
    try discriminate H.
  - injection H as -> _. reflexivity.
  - exact (IH s c tl H).
Qed.

(** ** TrimRightFunc *)

Lemma lastIndexNotSpace_spec (s : bytes) (fuel : nat) :
  forall i,
    (i <= List.length s)%nat -> (i < fuel)%nat ->
    space_run (skipn i s) ->
    match strings.lastIndexNotSpace fuel s i with
    | Some i' =>
      exists k r size,
        (0 < k <= List.length s)%nat
        /\ space_run (skipn k s)
        /\ strings.DecodeLastRune (firstn k s) = (r, size)
        /\ unicode.IsSpace r = false
        /\ i' = (k - size)%nat
    | None => space_run s
    end.
Proof.
  induction fuel as [|fuel IH]; intros i Hi Hf Hr; [lia|].
  cbn [strings.lastIndexNotSpace].
  destruct (0 <? i)%nat eqn:E0.
  2: { apply Nat.ltb_ge in E0. assert (i = O) by lia. subst i. exact Hr. }
  apply Nat.ltb_lt in E0.
  destruct (strings.DecodeLastRune (firstn i s)) as [r size] eqn:D.
  destruct (unicode.IsSpace r) eqn:Sp; cbn [negb].
  2: { exists i, r, size. repeat split; try assumption; lia. }
  assert (Hne : firstn i s <> []).
  { intros N. apply (f_equal (@List.length ascii)) in N.
    rewrite length_firstn in N. cbn [List.length] in N. lia. }
  destruct (DecodeLastRune_space (firstn i s) r size Hne D Sp) as [B Dr].
  rewrite length_firstn in B, Dr.
  replace (Nat.min i (List.length s)) with i in B, Dr by lia.
  apply IH; [lia | lia |].
  rewrite (skipn_before s i size) by lia.
  apply (space_run_cons _ _ r); [| |exact Sp|exact Hr].
  - intros N. rewrite N in Dr. injection Dr as _ Dr. lia.
  - rewrite Dr. f_equal. rewrite length_skipn, length_firstn. lia.
Qed.

(** The last step of [TrimRightFunc]: from the index where the last
    rune that is no white space starts, it finds the end of that rune
    again. *)
Lemma TrimRight_cut (s : bytes) (k : nat) (r : N) (size : nat) :
  (0 < k <= List.length s)%nat ->
  space_run (skipn k s) ->
  strings.DecodeLastRune (firstn k s) = (r, size) ->
  (if utf8.RuneSelf <=? code (nth (k - size) s zero)
   then firstn (k - size + snd (utf8.DecodeRune (skipn (k - size) s))) s
   else firstn (S (k - size)) s) = firstn k s.
Proof.
  intros Hk Hr D.
  assert (Hne : firstn k s <> []).
  { intros N. apply (f_equal (@List.length ascii)) in N.
    rewrite length_firstn in N. cbn [List.length] in N. lia. }
  destruct (exists_last Hne) as (q & c & Eq).
  assert (Lq : S (List.length q) = k).
  { apply (f_equal (@List.length ascii)) in Eq.
    rewrite length_firstn, length_app in Eq. cbn [List.length] in Eq. lia. }
  assert (Es : s = q ++ c :: skipn k s).
  { rewrite <- (firstn_skipn k s) at 1. rewrite Eq, <- app_assoc.
    reflexivity. }
  rewrite Eq in D.
  destruct (DecodeLastRune_cases q c r size D)
    as [(A & -> & ->) | [(A & -> & ->) | (A & B & Dr)]].
  - replace (k - 1)%nat with (List.length q) by lia.
    rewrite Es at 1. rewrite nth_middle.
    unfold utf8.RuneSelf. apply N.leb_gt in A. rewrite A.
    rewrite Lq. reflexivity.
  - replace (k - 1)%nat with (List.length q) by lia.
    rewrite Es at 1. rewrite nth_middle.
    unfold utf8.RuneSelf. apply N.leb_le in A. rewrite A.
    replace (skipn (List.length q) s) with (c :: skipn k s).
    2: { rewrite Es at 2. rewrite skipn_length_app. reflexivity. }
    rewrite (DecodeRune_lone c (skipn k s) (space_run_head _ Hr)).
    f_equal. lia.
  - rewrite Lq, <- Eq in Dr.
    assert (Le : List.length (skipn (k - size) (firstn k s)) = size)
      by (rewrite length_skipn, length_firstn; lia).
    destruct (DecodeRune_wide_head _ r size Dr (proj1 B))
      as (c0 & tl0 & E0 & A0).
    assert (Sk : skipn (k - size) s = (c0 :: tl0) ++ skipn k s)
      by (rewrite <- E0; apply skipn_before; lia).
    assert (N0 : nth (k - size) s zero = c0).
    { exact (nth_skipn_head _ s c0 _ Sk). }
    rewrite N0. unfold utf8.RuneSelf. apply N.leb_le in A0. rewrite A0.
    rewrite Sk, <- E0.
    rewrite <- Le in Dr at 2.
    rewrite (DecodeRune_app _ (skipn k s) r Dr) by (right; lia).
    cbn [snd]. f_equal. lia.
Qed.

(** [TrimRightFunc(s, unicode.IsSpace)] cuts a white space run from the
    end of [s], and what it leaves is empty or ends with a rune that is
    no white space. *)
Lemma TrimRightSpace_spec (s : bytes) :
  exists k,
    strings.TrimRightSpace s = firstn k s
    /\ space_run (skipn k s)
    /\ (strings.TrimRightSpace s = []
        \/ unicode.IsSpace (fst (strings.DecodeLastRune (strings.TrimRightSpace s)))
           = false).
Proof.
  unfold strings.TrimRightSpace.
  pose proof (lastIndexNotSpace_spec s (S (List.length s)) (List.length s)
                (Nat.le_refl _) (Nat.lt_succ_diag_r _)) as L.
  rewrite skipn_all in L. specialize (L space_run_nil).
  destruct (strings.lastIndexNotSpace (S (List.length s)) s (List.length s))
    as [i'|].
  2: { exists O. cbn [firstn skipn]. auto. }
  destruct L as (k & r & size & Hk & Hr & D & Sp & ->).
  pose proof (TrimRight_cut s k r size Hk Hr D) as G.
  exists k. split; [exact G|]. split; [exact Hr|]. right.
  refine (eq_ind_r
            (fun x => unicode.IsSpace (fst (strings.DecodeLastRune x)) = false)
            _ G).
  rewrite D. exact Sp.
Qed.

(** A string that ends with a rune that is no white space is left as it
    is. *)
Lemma TrimRightSpace_fixed (s : bytes) :
  s <> [] ->
  unicode.IsSpace (fst (strings.DecodeLastRune s)) = false ->
  strings.TrimRightSpace s = s.
Proof.
  intros Hne Sp. unfold strings.TrimRightSpace.
  cbn [strings.lastIndexNotSpace].
  assert (Hl : (0 < List.length s)%nat) by (destruct s; [contradiction | cbn; lia]).
  apply Nat.ltb_lt in Hl. rewrite Hl. apply Nat.ltb_lt in Hl.
  rewrite firstn_all.
  destruct (strings.DecodeLastRune s) as [r size] eqn:D.
  cbn [fst] in Sp. rewrite Sp. cbn [negb].
  etransitivity; [|apply firstn_all].
  apply (TrimRight_cut s (List.length s) r size); [lia| |].
  - rewrite skipn_all. exact space_run_nil.
  - rewrite firstn_all. exact D.
Qed.

(** ** TrimLeftFunc *)

Lemma TrimLeftSpace_loop_spec (fuel : nat) :
  forall s,
    (List.length s <= fuel)%nat ->
    exists l,
      s = l ++ strings.TrimLeftSpace_loop fuel s
      /\ space_run l
      /\ (strings.TrimLeftSpace_loop fuel s = []
          \/ unicode.IsSpace
               (fst (utf8.DecodeRune (strings.TrimLeftSpace_loop fuel s)))
             = false).
Proof.
  induction fuel as [|fuel IH]; intros s Hl.
  - destruct s; [|cbn [List.length] in Hl; lia].
    exists []. cbn. auto using space_run_nil.
  - cbn [strings.TrimLeftSpace_loop].
    destruct s as [|c s'].
    { exists []. cbn. auto using space_run_nil. }
    destruct (utf8.DecodeRune (c :: s')) as [r size] eqn:D.
    destruct (unicode.IsSpace r) eqn:Sp.
    2: { exists []. split; [reflexivity|]. split; [exact space_run_nil|].
         right. rewrite D. exact Sp. }
    assert (V : r <> utf8.RuneError \/ (2 <= size)%nat).
    { left. intros ->. discriminate Sp. }
    destruct (DecodeRune_firstn _ r size D V) as (B1 & B2 & Df).
    destruct (IH (skipn size (c :: s'))) as (l & El & Rl & Tl).
    { rewrite length_skipn. cbn [List.length] in Hl |- *. lia. }
    exists (firstn size (c :: s') ++ l). split; [|split].
    + rewrite <- app_assoc, <- El. symmetry. apply firstn_skipn.
    + apply (space_run_cons _ _ r); [| |exact Sp|exact Rl].
      * intros N. apply (f_equal (@List.length ascii)) in N.
        rewrite length_firstn in N. cbn [List.length] in N, B2. lia.
      * rewrite Df. f_equal. rewrite length_firstn. lia.
    + exact Tl.
Qed.

Lemma TrimLeftSpace_spec (s : bytes) :
  exists l,
    s = l ++ strings.TrimLeftSpace s
    /\ space_run l
    /\ (strings.TrimLeftSpace s = []
        \/ unicode.IsSpace (fst (utf8.DecodeRune (strings.TrimLeftSpace s)))
           = false).
Proof. apply TrimLeftSpace_loop_spec. apply Nat.le_refl. Qed.

(** ** strings.TrimSpace *)

Lemma TrimSpace_start_spec (s : bytes) :
  exists l,
    s = l ++ fst (strings.TrimSpace_start s)
    /\ space_run l
    /\ (snd (strings.TrimSpace_start s) = false ->
        fst (strings.TrimSpace_start s) = []
        \/ unicode.IsSpace
             (fst (utf8.DecodeRune (fst (strings.TrimSpace_start s))))
           = false).
Proof.
  induction s as [|c s IH].
  - exists []. cbn. auto using space_run_nil.
  - cbn [strings.TrimSpace_start]. unfold utf8.RuneSelf.
    destruct (128 <=? code c) eqn:A.
    { exists []. cbn [fst snd app]. split; [reflexivity|].
      split; [exact space_run_nil | discriminate]. }
    apply N.leb_gt in A.
    destruct (strings.asciiSpace c) eqn:Sp.
    + destruct IH as (l & El & Rl & Tl).
      exists ([c] ++ l). split; [|split].
      * cbn [app]. f_equal. exact El.
      * apply space_run_app; [exact (space_run_byte c A Sp) | exact Rl].
      * exact Tl.
    + exists []. cbn [fst snd app]. split; [reflexivity|].
      split; [exact space_run_nil|]. intros _. right.
      rewrite (DecodeRune_ascii c s A). exact (ascii_not_space c A Sp).
Qed.

Lemma DecodeLastRune_ascii_byte (q : bytes) (c : ascii) :
  code c < 128 -> strings.DecodeLastRune (q ++ [c]) = (code c, 1%nat).
Proof.
  intros A.
  destruct (strings.DecodeLastRune (q ++ [c])) as [r size] eqn:D.
  destruct (DecodeLastRune_cases q c r size D)
    as [(_ & -> & ->) | [(A' & _) | (A' & _)]]; [reflexivity | lia | lia].
Qed.

Lemma TrimSpace_stop_spec (rs : bytes) :
  exists k,
    strings.TrimSpace_stop rs = firstn k (rev rs)
    /\ space_run (skipn k (rev rs))
    /\ (strings.TrimSpace_stop rs = []
        \/ unicode.IsSpace
             (fst (strings.DecodeLastRune (strings.TrimSpace_stop rs)))
           = false).
Proof.
  induction rs as [|c rs IH].
  - exists O. cbn. auto using space_run_nil.
  - cbn [strings.TrimSpace_stop]. unfold utf8.RuneSelf.
    destruct (128 <=? code c) eqn:A.
    { apply TrimRightSpace_spec. }
    apply N.leb_gt in A.
    destruct (strings.asciiSpace c) eqn:Sp.
    + destruct IH as (k & Ek & Rk & Tk).
      assert (Hk : (k <= List.length (rev rs))%nat \/
                   (List.length (rev rs) < k)%nat) by lia.
      destruct Hk as [Hk|Hk].
      * exists k. cbn [rev]. split; [|split].
        -- rewrite firstn_app.
           replace (k - List.length (rev rs))%nat with O by lia.
           cbn [firstn]. rewrite app_nil_r. exact Ek.
        -- rewrite skipn_app.
           replace (k - List.length (rev rs))%nat with O by lia.
           cbn [skipn]. apply space_run_app;
             [exact Rk | exact (space_run_byte c A Sp)].
        -- exact Tk.
      * exists (List.length (rev rs)). cbn [rev]. split; [|split].
        -- rewrite firstn_app, Nat.sub_diag. cbn [firstn].
           rewrite app_nil_r, firstn_all.
           rewrite Ek. apply firstn_all2. lia.
        -- rewrite skipn_length_app. exact (space_run_byte c A Sp).
        -- exact Tk.
    + exists (List.length (rev (c :: rs))). rewrite firstn_all, skipn_all.
      split; [reflexivity|]. split; [exact space_run_nil|].
      right. cbn [rev]. rewrite (DecodeLastRune_ascii_byte (rev rs) c A).
      exact (ascii_not_space c A Sp).
Qed.

(** [strings.TrimSpace] removes a white space run from each end, and
    what it returns has no white space rune at either end. *)
Theorem TrimSpace_spec (s : bytes) :
  exists l r,
    s = l ++ strings.TrimSpace s ++ r
    /\ space_run l /\ space_run r
    /\ trimmed (strings.TrimSpace s).
Proof.
  unfold strings.TrimSpace.
  destruct (TrimSpace_start_spec s) as (l & El & Rl & Tl).
  destruct (strings.TrimSpace_start s) as [s1 nonascii].
  cbn [fst snd] in El, Tl.
  assert (G : forall t l0 T k,
             s = l0 ++ t -> space_run l0 ->
             (t = [] \/ unicode.IsSpace (fst (utf8.DecodeRune t)) = false) ->
             T = firstn k t -> space_run (skipn k t) ->
             (T = [] \/ unicode.IsSpace (fst (strings.DecodeLastRune T)) = false) ->
             exists l r, s = l ++ T ++ r /\ space_run l /\ space_run r
                         /\ trimmed T).
  { intros t l0 T k E R0 Ht ET Rk HT.
    exists l0, (skipn k t). split; [|split; [exact R0 | split; [exact Rk|]]].
    - rewrite ET, firstn_skipn. exact E.
    - destruct HT as [HT|HT]; [left; exact HT|].
      destruct Ht as [Ht|Ht].
      + left. rewrite ET, Ht. apply firstn_nil.
      + right. split; [|exact HT].
        rewrite ET. apply DecodeRune_prefix_not_space. exact Ht. }
  destruct nonascii.
  - destruct (TrimLeftSpace_spec s1) as (l2 & E2 & R2 & T2).
    destruct (TrimRightSpace_spec (strings.TrimLeftSpace s1))
      as (k & Ek & Rk & Tk).
    apply (G (strings.TrimLeftSpace s1) (l ++ l2) _ k); try assumption.
    + rewrite <- app_assoc, <- E2. exact El.
    + apply space_run_app; assumption.
  - destruct (TrimSpace_stop_spec (rev s1)) as (k & Ek & Rk & Tk).
    rewrite rev_involutive in Ek, Rk.
    apply (G s1 l _ k); auto.
Qed.

(** ** Sticker.TagList *)

Lemma Forall2_map_spec {A B : Type} (P : A -> B -> Prop) (f : A -> B)
    (l : list A) :
  (forall x, P x (f x)) -> Forall2 P l (map f l).
Proof.
  intros H. induction l as [|x l IH]; cbn [map]; constructor; auto.
Qed.

(** C10. [TagList] returns the comma-separated segments of [Tags], each
    with the white space around it removed: the tags are, one for one,
    what [strings.TrimSpace] leaves of the pieces that, joined by
    commas, give [Tags] back and that hold no comma themselves; each tag
    is its piece without a white space run at each end and has no white
    space rune at either end. When [Tags] is empty the result is the
    one-element list of the empty string, and the result is never empty. *)
Theorem TagList_trimmed_segments (U : Type) (s : Sticker U) :
  (exists segs,
      join [","%char] segs = Sticker_Tags U s
      /\ Forall (fun seg => ~ In ","%char seg) segs
      /\ Forall2 (fun seg tag =>
                    exists l r, seg = l ++ tag ++ r
                                /\ space_run l /\ space_run r /\ trimmed tag)
           segs (TagList s))
  /\ (Sticker_Tags U s = [] -> TagList s = [[]])
  /\ TagList s <> [].
Proof.
  unfold TagList.
  destruct (Split_pieces (Sticker_Tags U s) ","%char) as (J & F & L).
  split; [|split].
  - exists (strings.Split (Sticker_Tags U s) ","%char).
    split; [exact J|]. split; [exact F|].
    apply Forall2_map_spec. exact TrimSpace_spec.
  - intros ->. reflexivity.
  - intros N. apply (f_equal (@List.length bytes)) in N.
    rewrite length_map, L in N. discriminate N.
Qed.

Definition untagged_Sticker : Sticker NoUser :=
  mkSticker NoUser 0 0 [] [] [] 0%Z 0 false 0 None None.

Lemma TagList_trimmed_segments_witness : TagList untagged_Sticker = [[]].
Proof.
  exact (proj1 (proj2 (TagList_trimmed_segments NoUser untagged_Sticker))
           eq_refl).
Defined.

(** ** More on Sticker.TagList *)

Lemma asciiSpace_IsSpace (c : ascii) :
  code c < 128 -> strings.asciiSpace c = unicode.IsSpace (code c).
Proof.
  intros A. destruct (strings.asciiSpace c) eqn:E.
  - assert (G : forall c0, (negb (code c0 <? 128) || negb (strings.asciiSpace c0)
                            || unicode.IsSpace (code c0)) = true)
      by (apply forall_byte; vm_compute; reflexivity).
    specialize (G c). apply N.ltb_lt in A. rewrite A, E in G.
    symmetry. exact G.
  - symmetry. exact (ascii_not_space c A E).
Qed.

Lemma TrimSpace_stop_fixed (s : bytes) :
  s <> [] ->
  unicode.IsSpace (fst (strings.DecodeLastRune s)) = false ->
  strings.TrimSpace_stop (rev s) = s.
Proof.
  intros Hne Sp.
  destruct (exists_last Hne) as (q & d & ->).
  rewrite rev_app_distr. cbn [rev app strings.TrimSpace_stop].
  rewrite rev_involutive. unfold utf8.RuneSelf.
  destruct (128 <=? code d) eqn:A.
  - apply TrimRightSpace_fixed; assumption.
  - apply N.leb_gt in A.
    rewrite (DecodeLastRune_ascii_byte q d A) in Sp. cbn [fst] in Sp.
    rewrite (asciiSpace_IsSpace d A), Sp. reflexivity.
Qed.

(** A string with no white space rune at either end is left as it is
    by [strings.TrimSpace]. *)
Lemma TrimSpace_fixed (t : bytes) : trimmed t -> strings.TrimSpace t = t.
Proof.
  intros [->|[F L]]; [reflexivity|].
  destruct t as [|c t']; [reflexivity|].
  unfold strings.TrimSpace. cbn [strings.TrimSpace_start].
  unfold utf8.RuneSelf.
  destruct (128 <=? code c) eqn:A.
  - assert (E : strings.TrimLeftSpace (c :: t') = c :: t').
    { unfold strings.TrimLeftSpace.
      cbn [List.length strings.TrimLeftSpace_loop].
      destruct (utf8.DecodeRune (c :: t')) as [r size].
      cbn [fst] in F. rewrite F. reflexivity. }
    rewrite E. apply TrimRightSpace_fixed; [discriminate | exact L].
  - apply N.leb_gt in A.
    rewrite (DecodeRune_ascii c t' A) in F. cbn [fst] in F.
    rewrite (asciiSpace_IsSpace c A), F.
    apply TrimSpace_stop_fixed; [discriminate | exact L].
Qed.

Lemma TrimSpace_idempotent (s : bytes) :
  strings.TrimSpace (strings.TrimSpace s) = strings.TrimSpace s.
Proof.
  destruct (TrimSpace_spec s) as (l & r & _ & _ & _ & T).
  exact (TrimSpace_fixed _ T).
Qed.

Lemma IndexByte_first (x b : bytes) (sep : ascii) :
  ~ In sep x -> strings.IndexByte (x ++ sep :: b) sep = Some (List.length x).
Proof.
  induction x as [|c x IH]; intros H; cbn [app strings.IndexByte List.length].
  - rewrite byte_eqb_refl. reflexivity.
  - destruct (byte_eqb c sep) eqn:E.
    + apply byte_eqb_eq in E. subst. exfalso. apply H. left. reflexivity.
    + rewrite IH; [reflexivity|]. intros H'. apply H. right. exact H'.
Qed.

Lemma Count_cons_sep (b : bytes) (sep : ascii) :
  strings.Count (sep :: b) sep = S (strings.Count b sep).
Proof.
  unfold strings.Count. cbn [filter]. rewrite byte_eqb_refl. reflexivity.
Qed.

(** [strings.Split] undoes joining: pieces that hold no separator come
    back from their join. *)
Lemma Split_join (sep : ascii) (segs : list bytes) :
  segs <> [] ->
  Forall (fun seg => ~ In sep seg) segs ->
  strings.Split (join [sep] segs) sep = segs.
Proof.
  unfold strings.Split.
  induction segs as [|x l IH]; intros Hne F; [contradiction|].
  inversion F as [|? ? Hx Fl]; subst.
  destruct l as [|y l].
  - cbn [join]. rewrite (Count_absent x sep Hx). reflexivity.
  - change (join [sep] (x :: y :: l)) with (x ++ sep :: join [sep] (y :: l)).
    rewrite Count_app, (Count_absent x sep Hx), Count_cons_sep.
    cbn [Nat.add strings.genSplit_loop].
    rewrite (IndexByte_first x _ sep Hx).
    rewrite firstn_app, Nat.sub_diag, firstn_all. cbn [firstn].
    rewrite app_nil_r. f_equal.
    replace (List.length x + 1)%nat with (List.length (x ++ [sep]))
      by (rewrite length_app; reflexivity).
    change (x ++ sep :: join [sep] (y :: l))
      with (x ++ [sep] ++ join [sep] (y :: l)).
    rewrite app_assoc, skipn_length_app.
    apply IH; [discriminate | exact Fl].
Qed.

Lemma Split_cons (x b : bytes) (sep : ascii) :
  ~ In sep x ->
  strings.Split (x ++ sep :: b) sep = x :: strings.Split b sep.
Proof.
  intros Hx. unfold strings.Split.
  rewrite Count_app, (Count_absent x sep Hx), Count_cons_sep.
  cbn [Nat.add strings.genSplit_loop].
  rewrite (IndexByte_first x _ sep Hx).
  rewrite firstn_app, Nat.sub_diag, firstn_all. cbn [firstn].
  rewrite app_nil_r. f_equal.
  replace (List.length x + 1)%nat with (List.length (x ++ [sep]))
    by (rewrite length_app; reflexivity).
  change (x ++ sep :: b) with (x ++ [sep] ++ b).
  rewrite app_assoc, skipn_length_app. reflexivity.
Qed.

Lemma Split_whole (x : bytes) (sep : ascii) :
  ~ In sep x -> strings.Split x sep = [x].
Proof.
  intros Hx. unfold strings.Split. rewrite (Count_absent x sep Hx). reflexivity.
Qed.

(** *** Blanks around the tags *)

Lemma asciiSpace_ascii (c : ascii) :
  strings.asciiSpace c = true -> code c < 128.
Proof.
  assert (G : forall c0, (negb (strings.asciiSpace c0) || (code c0 <? 128))
                         = true)
    by (apply forall_byte; vm_compute; reflexivity).
  intros E. specialize (G c). rewrite E in G. apply N.ltb_lt. exact G.
Qed.

Lemma asciiSpace_not_comma (c : ascii) :
  strings.asciiSpace c = true -> c <> ","%char.
Proof. intros E ->. discriminate E. Qed.

Lemma space_run_blanks (l : bytes) :
  Forall (fun c => strings.asciiSpace c = true) l -> space_run l.
Proof.
  induction 1 as [|c l Hc _ IH]; [exact space_run_nil|].
  change (c :: l) with ([c] ++ l). apply space_run_app; [|exact IH].
  exact (space_run_byte c (asciiSpace_ascii c Hc) Hc).
Qed.

Lemma TrimSpace_blanks_left (p x : bytes) :
  Forall (fun c => strings.asciiSpace c = true) p ->
  strings.TrimSpace (p ++ x) = strings.TrimSpace x.
Proof.
  induction 1 as [|c p Hc _ IH]; [reflexivity|].
  rewrite <- IH. unfold strings.TrimSpace at 1.
  cbn [app strings.TrimSpace_start].
  pose proof (asciiSpace_ascii c Hc) as A. unfold utf8.RuneSelf.
  apply N.leb_gt in A. rewrite A, Hc. reflexivity.
Qed.

Lemma TrimSpace_stop_blanks (rl rs : bytes) :
  Forall (fun c => strings.asciiSpace c = true) rl ->
  strings.TrimSpace_stop (rl ++ rs) = strings.TrimSpace_stop rs.
Proof.
  induction 1 as [|c rl Hc _ IH]; [reflexivity|].
  cbn [app strings.TrimSpace_stop].
  pose proof (asciiSpace_ascii c Hc) as A. unfold utf8.RuneSelf.
  apply N.leb_gt in A. rewrite A, Hc. exact IH.
Qed.

(** Bytes that continue no rune do not change the first rune of what
    they follow. *)
Lemma DecodeRune_before (t l : bytes) :
  t <> [] ->
  match l with [] => True | c :: _ => utf8.is_cont c = false end ->
  utf8.DecodeRune (t ++ l) = utf8.DecodeRune t.
Proof.
  intros Hne Hc.
  assert (R : forall lo hi c,
             utf8.is_cont c = false -> 128 <= lo -> hi <= 191 ->
             utf8.in_range lo hi c = false).
  { intros lo hi c E Hlo Hhi. unfold utf8.is_cont in E. unfold utf8.in_range.
    apply Bool.andb_false_iff in E. apply Bool.andb_false_iff.
    destruct E as [E|E]; [left|right];
      apply N.leb_gt in E; apply N.leb_gt; lia. }
  destruct l as [|c l]; [rewrite app_nil_r; reflexivity|].
  destruct t as [|p0 [|p1 [|p2 [|p3 tl]]]]; [contradiction | | | |];
    cbn [app]; unfold utf8.DecodeRune; cbv zeta;
    try rewrite Hc;
    repeat rewrite (R _ _ _ Hc) by (destruct (code p0 =? _); lia);
    cbn [negb];
    repeat match goal with
           | |- context [if ?b then _ else _] => destruct b eqn:?
           | |- context [match ?x with [] => _ | _ :: _ => _ end] =>
             destruct x
           end;
    reflexivity.
Qed.

Lemma ascii_not_cont (c : ascii) : code c < 128 -> utf8.is_cont c = false.
Proof.
  intros A. unfold utf8.is_cont. apply Bool.andb_false_iff. left.
  apply N.leb_gt. exact A.
Qed.

Lemma lastIndexNotSpace_blanks (t l : bytes) (r : N) (size : nat) :
  t <> [] ->
  strings.DecodeLastRune t = (r, size) ->
  unicode.IsSpace r = false ->
  Forall (fun c => strings.asciiSpace c = true) l ->
  forall j,
    (j <= List.length l)%nat ->
    strings.lastIndexNotSpace (S (List.length t + j)) (t ++ l)
                              (List.length t + j)
    = Some (List.length t - size)%nat.
Proof.
  intros Hne D Sp Hl.
  assert (Ht : (0 < List.length t)%nat)
    by (destruct t; [contradiction | cbn; lia]).
  induction j as [|j IH]; intros Hj; cbn [strings.lastIndexNotSpace].
  - rewrite Nat.add_0_r. apply Nat.ltb_lt in Ht. rewrite Ht.
    rewrite firstn_app, Nat.sub_diag, firstn_all. cbn [firstn].
    rewrite app_nil_r, D, Sp. reflexivity.
  - assert (H0 : (0 <? List.length t + S j)%nat = true)
      by (apply Nat.ltb_lt; lia).
    rewrite H0.
    rewrite firstn_app.
    replace (List.length t + S j - List.length t)%nat with (S j) by lia.
    rewrite firstn_all2 by lia.
    assert (E : exists d, firstn (S j) l = firstn j l ++ [d]
                          /\ strings.asciiSpace d = true).
    { clear IH H0. revert l Hl Hj. induction j as [|j IHj]; intros l Hl Hj.
      - destruct l as [|d l]; [cbn in Hj; lia|].
        exists d. inversion Hl; subst. split; [reflexivity | assumption].
      - destruct l as [|c l]; [cbn in Hj; lia|].
        inversion Hl; subst. cbn [List.length] in Hj.
        destruct (IHj l) as (d & Ed & Hd); [assumption | lia |].
        exists d. split; [|exact Hd].
        change (firstn (S (S j)) (c :: l)) with (c :: firstn (S j) l).
        rewrite Ed. reflexivity. }
    destruct E as (d & Ed & Hd). rewrite Ed, app_assoc.
    pose proof (asciiSpace_ascii d Hd) as A.
    rewrite (DecodeLastRune_ascii_byte _ d A).
    rewrite <- (asciiSpace_IsSpace d A), Hd. cbn [negb].
    replace (List.length t + S j - 1)%nat with (List.length t + j)%nat by lia.
    replace (List.length t + S j)%nat with (S (List.length t + j)) by lia.
    apply IH. lia.
Qed.

Lemma TrimRightSpace_blanks (t l : bytes) :
  t <> [] ->
  unicode.IsSpace (fst (strings.DecodeLastRune t)) = false ->
  Forall (fun c => strings.asciiSpace c = true) l ->
  strings.TrimRightSpace (t ++ l) = t.
Proof.
  intros Hne Sp Hl.
  destruct (strings.DecodeLastRune t) as [r size] eqn:D. cbn [fst] in Sp.
  unfold strings.TrimRightSpace. rewrite length_app.
  rewrite (lastIndexNotSpace_blanks t l r size Hne D Sp Hl (List.length l)
             (Nat.le_refl _)).
  assert (Ht : (0 < List.length t)%nat)
    by (destruct t; [contradiction | cbn; lia]).
  assert (F : firstn (List.length t) (t ++ l) = t).
  { rewrite firstn_app, Nat.sub_diag, firstn_all. cbn [firstn].
    apply app_nil_r. }
  etransitivity; [|exact F].
  apply (TrimRight_cut (t ++ l) (List.length t) r size).
  - rewrite length_app. lia.
  - rewrite skipn_length_app. exact (space_run_blanks l Hl).
  - rewrite F. exact D.
Qed.

(** Blanks around a string without white space at its ends are what
    [strings.TrimSpace] removes. *)
Lemma TrimSpace_blanks (p t l : bytes) :
  trimmed t ->
  Forall (fun c => strings.asciiSpace c = true) p ->
  Forall (fun c => strings.asciiSpace c = true) l ->
  strings.TrimSpace (p ++ t ++ l) = t.
Proof.
  intros T Hp Hl. rewrite (TrimSpace_blanks_left p _ Hp).
  assert (T0 : strings.TrimSpace ([] ++ l) = []).
  { cbn [app]. rewrite <- (app_nil_r l), (TrimSpace_blanks_left l [] Hl).
    reflexivity. }
  destruct T as [->|[F L]]; [exact T0|].
  - destruct t as [|c t']; [exact T0|]. clear T0.
    unfold strings.TrimSpace. cbn [app strings.TrimSpace_start].
    unfold utf8.RuneSelf.
    destruct (128 <=? code c) eqn:A.
    + assert (Hd : utf8.DecodeRune ((c :: t') ++ l) = utf8.DecodeRune (c :: t')).
      { apply DecodeRune_before; [discriminate|].
        destruct Hl as [|d l Hd _]; [exact I|].
        exact (ascii_not_cont d (asciiSpace_ascii d Hd)). }
      assert (E : strings.TrimLeftSpace (c :: t' ++ l) = c :: t' ++ l).
      { unfold strings.TrimLeftSpace.
        cbn [List.length strings.TrimLeftSpace_loop].
        change (c :: t' ++ l) with ((c :: t') ++ l). rewrite Hd.
        destruct (utf8.DecodeRune (c :: t')) as [r size].
        cbn [fst] in F. rewrite F. reflexivity. }
      rewrite E. change (c :: t' ++ l) with ((c :: t') ++ l).
      apply TrimRightSpace_blanks; [discriminate | exact L | exact Hl].
    + apply N.leb_gt in A.
      rewrite (DecodeRune_ascii c t' A) in F. cbn [fst] in F.
      rewrite (asciiSpace_IsSpace c A), F.
      change (c :: t' ++ l) with ((c :: t') ++ l).
      rewrite rev_app_distr, TrimSpace_stop_blanks.
      * apply TrimSpace_stop_fixed; [discriminate | exact L].
      * apply Forall_rev. exact Hl.
Qed.

Lemma TagList_joined_from (l r : bytes) (ts : list bytes) :
  Forall (fun c => strings.asciiSpace c = true) l ->
  Forall (fun c => strings.asciiSpace c = true) r ->
  Forall (fun t => ~ In ","%char t /\ trimmed t) ts ->
  ts <> [] ->
  forall p,
    Forall (fun c => strings.asciiSpace c = true) p ->
    map strings.TrimSpace
        (strings.Split (p ++ join (l ++ ","%char :: r) ts) ","%char)
    = ts.
Proof.
  intros Hl Hr F. induction F as [|t ts [Hc Ht] F IH]; intros Hne q Hq;
    [contradiction|].
  assert (NC : forall a b, Forall (fun c => strings.asciiSpace c = true) a ->
                           Forall (fun c => strings.asciiSpace c = true) b ->
                           ~ In ","%char (a ++ t ++ b)).
  { intros a b Ha Hb H. rewrite !in_app_iff in H.
    rewrite Forall_forall in Ha, Hb.
    destruct H as [H|[H|H]];
      [exact (asciiSpace_not_comma _ (Ha _ H) eq_refl)
      | exact (Hc H)
      | exact (asciiSpace_not_comma _ (Hb _ H) eq_refl)]. }
  destruct ts as [|t2 ts].
  - cbn [join]. rewrite <- (app_nil_r t) at 1.
    rewrite Split_whole by (apply NC; [exact Hq | constructor]).
    cbn [map]. rewrite (TrimSpace_blanks q t [] Ht Hq (Forall_nil _)).
    reflexivity.
  - change (join (l ++ ","%char :: r) (t :: t2 :: ts))
      with (t ++ (l ++ ","%char :: r) ++ join (l ++ ","%char :: r) (t2 :: ts)).
    replace (q ++ t ++ (l ++ ","%char :: r)
               ++ join (l ++ ","%char :: r) (t2 :: ts))
      with ((q ++ t ++ l)
              ++ ","%char :: (r ++ join (l ++ ","%char :: r) (t2 :: ts)))
      by (rewrite <- !app_assoc; reflexivity).
    rewrite Split_cons by (apply NC; assumption).
    cbn [map]. rewrite (TrimSpace_blanks q t l Ht Hq Hl).
    f_equal. apply IH; [discriminate | exact Hr].
Qed.

(** X1. [TagList] gives one tag more than [Tags] has commas, and no tag
    holds a comma. *)
Theorem TagList_count (U : Type) (s : Sticker U) :
  List.length (TagList s) = S (strings.Count (Sticker_Tags U s) ","%char)
  /\ Forall (fun tag => ~ In ","%char tag) (TagList s).
Proof.
  unfold TagList.
  destruct (Split_pieces (Sticker_Tags U s) ","%char) as (_ & F & L).
  split; [rewrite length_map; exact L|].
  apply Forall_map. apply (Forall_impl _ (P := fun seg => ~ In ","%char seg));
    [|exact F].
  intros seg Hseg H.
  destruct (TrimSpace_spec seg) as (l & r & E & _).
  apply Hseg. rewrite E, !in_app_iff. auto.
Qed.

(** X2. The tags [TagList] returns are trimmed for good: each one has no
    white space rune at either end, and trimming the tags again changes
    nothing. *)
Theorem TagList_tags_stay_trimmed (U : Type) (s : Sticker U) :
  Forall trimmed (TagList s)
  /\ map strings.TrimSpace (TagList s) = TagList s.
Proof.
  unfold TagList. split.
  - apply Forall_map, Forall_forall. intros seg _.
    destruct (TrimSpace_spec seg) as (l & r & _ & _ & _ & T). exact T.
  - rewrite map_map. apply map_ext. intros seg. apply TrimSpace_idempotent.
Qed.

(** X3. [TagList] undoes joining: when [Tags] is a list of tags joined
    by a comma that may have blanks (ASCII white space) before and after
    it, and no tag holds a comma or has white space at its ends,
    [TagList] returns that list. *)
Theorem TagList_of_joined_tags (U : Type) (s : Sticker U) (ts : list bytes)
    (l r : bytes) :
  ts <> [] ->
  Forall (fun t => ~ In ","%char t /\ trimmed t) ts ->
  Forall (fun c => strings.asciiSpace c = true) l ->
  Forall (fun c => strings.asciiSpace c = true) r ->
  Sticker_Tags U s = join (l ++ ","%char :: r) ts ->
  TagList s = ts.
Proof.
  intros Hne F Hl Hr E. unfold TagList. rewrite E.
  exact (TagList_joined_from l r ts Hl Hr F Hne [] (Forall_nil _)).
Qed.

Definition tagged_Sticker : Sticker NoUser :=
  mkSticker NoUser 0 0 [] [] (B "wave, hello there") 0%Z 0 false 0 None None.

Lemma TagList_of_joined_tags_witness :
  TagList tagged_Sticker = [B "wave"; B "hello there"].
Proof.
  apply (TagList_of_joined_tags NoUser tagged_Sticker
           [B "wave"; B "hello there"] [] (B " ")).
  - discriminate.
  - repeat constructor;
      try (right; split; vm_compute; reflexivity);
      intros H; vm_compute in H; intuition discriminate.
  - constructor.
  - repeat constructor.
  - reflexivity.
Defined.

(** * Message.URL *)

Lemma split_at_separator (sep : ascii) (a a' b b' : bytes) :
  ~ In sep a -> ~ In sep a' ->
  a ++ sep :: b = a' ++ sep :: b' ->
  a = a' /\ b = b'.
Proof.
  revert a'. induction a as [|x a IH]; intros [|x' a'] Ha Ha' E;
    cbn [app] in E.
  - injection E as <-. split; reflexivity.
  - injection E as <- _. exfalso. apply Ha'. left. reflexivity.
  - injection E as -> _. exfalso. apply Ha. left. reflexivity.
  - injection E as <- E.
    destruct (IH a') as [-> ->]; [| |exact E|split; reflexivity].
    + intros H. apply Ha. right. exact H.
    + intros H. apply Ha'. right. exact H.
Qed.

Section MessageURL_facts.

Variable GuildID_IsValid : N -> bool.
Variable GuildID_String : N -> bytes.
Variable ChannelID_String : N -> bytes.
Variable MessageID_String : N -> bytes.

(** X14. The URL tells the message: when the identifiers' [String]
    forms hold no slash and differ for different identifiers, two
    messages with the same URL have the same channel, the same
    identifier and the same guild segment, hence the same guild when
    both have a valid one. *)
Theorem URL_tells_the_message (m1 m2 : Message) :
  (forall g, ~ In "/"%char (GuildID_String g)) ->
  (forall c, ~ In "/"%char (ChannelID_String c)) ->
  (forall g g', GuildID_String g = GuildID_String g' -> g = g') ->
  (forall c c', ChannelID_String c = ChannelID_String c' -> c = c') ->
  (forall i i', MessageID_String i = MessageID_String i' -> i = i') ->
  URL GuildID_IsValid GuildID_String ChannelID_String MessageID_String m1
  = URL GuildID_IsValid GuildID_String ChannelID_String MessageID_String m2 ->
  Message_ChannelID m1 = Message_ChannelID m2
  /\ Message_ID m1 = Message_ID m2
  /\ URL_guild GuildID_IsValid GuildID_String m1
     = URL_guild GuildID_IsValid GuildID_String m2
  /\ (GuildID_IsValid (Message_GuildID m1) = true ->
      GuildID_IsValid (Message_GuildID m2) = true ->
      Message_GuildID m1 = Message_GuildID m2).
Proof.
  intros Hg Hc Ig Ic Ii E. unfold URL in E.
  apply app_inv_head in E.
  assert (G : forall m, ~ In "/"%char
                          (URL_guild GuildID_IsValid GuildID_String m)).
  { intros m. unfold URL_guild.
    destruct (GuildID_IsValid (Message_GuildID m)); [apply Hg|].
    intros H. cbn in H. intuition discriminate. }
  change (B "/") with ["/"%char] in E. cbn [app] in E.
  destruct (split_at_separator _ _ _ _ _ (G m1) (G m2) E) as [E1 E2].
  destruct (split_at_separator _ _ _ _ _ (Hc _) (Hc _) E2) as [E3 E4].
  split; [exact (Ic _ _ E3)|]. split; [exact (Ii _ _ E4)|].
  split; [exact E1|].
  intros V1 V2. unfold URL_guild in E1. rewrite V1, V2 in E1.
  exact (Ig _ _ E1).
Qed.

End MessageURL_facts.

(** * The further properties on the stand-in collaborators *)

Lemma NoUser_decoder_consumes :
  User_decoder_consumes NoUser NoUser_UnmarshalJSONFFLexer.
Proof.
  intros u fs st u' fs' err H. unfold NoUser_UnmarshalJSONFFLexer in H.
  destruct (Scan fs) as [tok fs1] eqn:S1.
  apply Scan_length in S1.
  destruct (FFTok_eqb tok FFTok_right_bracket); injection H as _ <- _;
    apply S1.
Qed.

Lemma UnmarshalJSON_terminates_witness :
  exists j' e,
    forall fuel, (List.length (B "{") < fuel)%nat ->
      decode fuel zero_Emoji (B "{") = Some (j', e).
Proof.
  exact (UnmarshalJSON_terminates NoUser
           Snowflake_UnmarshalJSON Snowflake_UnmarshalJSON
           NoUser_UnmarshalJSONFFLexer zero_Emoji (B "{")
           NoUser_decoder_consumes).
Defined.

Lemma UnmarshalJSON_ends_witness :
  (Return None = Return None
   /\ exists n c' fs',
       steps NoUser Snowflake_UnmarshalJSON Snowflake_UnmarshalJSON
             NoUser_UnmarshalJSONFFLexer n
             (mkConfig NoUser (NewFFLexer (B "{}")) FFParse_map_start
                       ffjtEmojibase zero_Emoji) c'
       /\ Scan (c_fs NoUser c') = (FFTok_right_bracket, fs')
       /\ zero_Emoji = c_j NoUser c'
       /\ (c_state NoUser c' = FFParse_after_value
           \/ c_state NoUser c' = FFParse_want_key))
  \/ exists err, Return None = Return (Some err).
Proof.
  exact (UnmarshalJSON_ends NoUser
           Snowflake_UnmarshalJSON Snowflake_UnmarshalJSON
           NoUser_UnmarshalJSONFFLexer 2 zero_Emoji zero_Emoji (B "{}")
           (Return None) eq_refl).
Defined.

(** The start of an object whose first member has the key of the
    identifier. *)
Definition at_object_start : config NoUser :=
  mkConfig NoUser (NewFFLexer ("{"%char :: quoted (B "id") ++ B ":1}"))
           FFParse_map_start ffjtEmojibase zero_Emoji.

Definition at_first_value : config NoUser :=
  mkConfig NoUser (mkFFLexer (B "1}") [] FFErr_e_ok None)
           FFParse_want_value ffjtEmojiID zero_Emoji.

Lemma value_read_under_a_key_witness :
  steps NoUser Snowflake_UnmarshalJSON Snowflake_UnmarshalJSON
        NoUser_UnmarshalJSONFFLexer 3 at_object_start at_first_value
  /\ c_currentKey NoUser at_first_value <> ffjtEmojibase.
Proof.
  assert (S3 : steps NoUser Snowflake_UnmarshalJSON Snowflake_UnmarshalJSON
                     NoUser_UnmarshalJSONFFLexer 3 at_object_start
                     at_first_value).
  { repeat (eapply steps_S; [vm_compute; reflexivity|]). apply steps_O. }
  split; [exact S3|].
  exact (value_read_under_a_key NoUser
           Snowflake_UnmarshalJSON Snowflake_UnmarshalJSON
           NoUser_UnmarshalJSONFFLexer 3 at_object_start at_first_value
           S3 (or_introl eq_refl) eq_refl).
Defined.

(** An identifier encoder that refuses. *)
Definition refusing_MarshalJSON (v : N) : bytes * option error :=
  ([], Some (foreign_error "refused")).

Lemma MarshalJSON_first_error_witness :
  MarshalJSON NoUser refusing_MarshalJSON Snowflake_MarshalJSON
              NoUser_MarshalJSONBuf (Some sample_Emoji)
  = (None, Some (foreign_error "refused"))
  /\ MarshalJSON NoUser Snowflake_MarshalJSON refusing_MarshalJSON
                 NoUser_MarshalJSONBuf (Some sample_Emoji)
     = (None, Some (foreign_error "refused")).
Proof.
  split.
  - exact (proj1 (MarshalJSON_first_error NoUser refusing_MarshalJSON
                    Snowflake_MarshalJSON NoUser_MarshalJSONBuf sample_Emoji)
                 [] (foreign_error "refused") eq_refl).
  - exact (proj1 (proj2 (MarshalJSON_first_error NoUser Snowflake_MarshalJSON
                           refusing_MarshalJSON NoUser_MarshalJSONBuf
                           sample_Emoji))
                 (quoted (B "41771983429993937")) [] 1 [2] [] []
                 (foreign_error "refused") eq_refl eq_refl eq_refl eq_refl).
Defined.

Lemma roles_array_commas_witness :
  exists fs',
    handle_RoleIDs NoUser Snowflake_UnmarshalJSON
      (mkFFLexer (quoted (B "1") ++ B "," ++ quoted (B "2") ++ B ",,]}")
                 [] FFErr_e_ok None)
      zero_Emoji FFTok_left_brace
    = Handled NoUser fs' (set_RoleIDs NoUser zero_Emoji (Some [1; 2]))
    /\ reader fs' = B "}".
Proof.
  exact (proj2 (roles_array_commas NoUser Snowflake_UnmarshalJSON zero_Emoji)
               [quoted (B "1"); quoted (B "2")] [1; 2] 2%nat
               (mkFFLexer (quoted (B "1") ++ B "," ++ quoted (B "2")
                           ++ B ",,]}") [] FFErr_e_ok None)
               (B "}")
               (Forall2_cons _ _ Snowflake_round_trip_1
                  (Forall2_cons _ _ Snowflake_round_trip_2 (Forall2_nil _)))
               ltac:(discriminate) eq_refl).
Defined.

Lemma currentKey_of_ignores_case_witness :
  currentKey_of (B "NaMe") = ffjtEmojiName.
Proof.
  apply (currentKey_of_ignores_case (B "name") (B "NaMe") ffjtEmojiName).
  - right. left. reflexivity.
  - reflexivity.
Defined.




Lemma ascii_name_round_trip_witness :
  name_round_trip (B "a<b\c")
  /\ value_decodes NoUser Snowflake_UnmarshalJSON Snowflake_UnmarshalJSON
       NoUser_UnmarshalJSONFFLexer ffjtEmojiName
       (WriteJsonString [] (B "a<b\c")) zero_Emoji
       (set_Name NoUser zero_Emoji (B "a<b\c")).
Proof.
  apply (ascii_name_round_trip NoUser
           Snowflake_UnmarshalJSON Snowflake_UnmarshalJSON
           NoUser_UnmarshalJSONFFLexer (B "a<b\c") zero_Emoji).
  repeat constructor.
Defined.

Lemma decimal_inj (v v' : N) : decimal v = decimal v' -> v = v'.
Proof.
  unfold decimal. intros H.
  apply (f_equal string_of_list_ascii) in H.
  rewrite !string_of_list_ascii_of_string in H.
  apply (f_equal NilEmpty.uint_of_string) in H.
  rewrite !NilEmpty.usu in H. injection H as H.
  apply (f_equal N.of_uint) in H.
  rewrite !DecimalN.Unsigned.of_to in H. exact H.
Qed.

Lemma decimal_no_slash (v : N) : ~ In "/"%char (decimal v).
Proof.
  unfold decimal. generalize (N.to_uint v). intros d.
  induction d; cbn; [tauto| | | | | | | | | |];
    intros [H|H]; try discriminate H; exact (IHd H).
Qed.

(** Two messages of the same channel, one with the zero identifier for
    its guild and one with the null identifier: neither has a guild. *)
Definition direct_message : Message := mkMessage 3 2 0.
Definition direct_message_null : Message := mkMessage 3 2 18446744073709551615.

Lemma URL_tells_the_message_witness :
  URL Snowflake_IsValid Snowflake_String Snowflake_String Snowflake_String
      direct_message
  = B "https://discord.com/channels/@me/2/3"
  /\ Message_ChannelID direct_message = Message_ChannelID direct_message_null
  /\ Message_ID direct_message = Message_ID direct_message_null
  /\ URL_guild Snowflake_IsValid Snowflake_String direct_message
     = URL_guild Snowflake_IsValid Snowflake_String direct_message_null.
Proof.
  split; [vm_compute; reflexivity|].
  destruct (URL_tells_the_message Snowflake_IsValid Snowflake_String
              Snowflake_String Snowflake_String
              direct_message direct_message_null
              decimal_no_slash decimal_no_slash
              decimal_inj decimal_inj decimal_inj eq_refl)
    as (E1 & E2 & E3 & _).
  split; [exact E1|]. split; [exact E2 | exact E3].
Defined.

Lemma currentKey_of_sound_witness :
  exists k, In (k, ffjtEmojiRoleIDs) wire_keys /\ fold_equal k (B "Roles").
Proof.
  apply (currentKey_of_sound (B "Roles") ffjtEmojiRoleIDs).
  - reflexivity.
  - discriminate.
Defined.

Lemma UnmarshalJSON_ignores_what_follows_witness :
  exists out,
    encode (Some sample_Emoji) = (Some out, None)
    /\ forall fuel, (33 <= fuel)%nat ->
         decode fuel zero_Emoji (out ++ B "]]garbage")
         = Some (sample_Emoji, Return None).
Proof.
  exact (UnmarshalJSON_ignores_what_follows NoUser
           Snowflake_MarshalJSON Snowflake_UnmarshalJSON
           Snowflake_MarshalJSON Snowflake_UnmarshalJSON
           NoUser_MarshalJSONBuf NoUser_UnmarshalJSONFFLexer
           sample_Emoji tt (quoted (B "41771983429993937"))
           [quoted (B "1"); quoted (B "2")] (B "{}") (B "]]garbage")
           sample_encodes_parts Snowflake_round_trip_sample
           name_round_trip_test
           (Forall2_cons _ _ Snowflake_round_trip_1
              (Forall2_cons _ _ Snowflake_round_trip_2 (Forall2_nil _)))
           NoUser_round_trip).
Defined.
